(** * The sharded LRU cache of util/cache.cc

    A shallow embedding of [HandleTable], [LRUCache] and [ShardedLRUCache]
    and the properties of the handle life cycle, the usage accounting and
    the eviction order.

    Memory model.  Every [LRUHandle] lives at an address of the arena of
    the shard that allocated it; [malloc] hands out the addresses of an
    arena in increasing order and never reuses one, [free] removes the
    handle from the arena.  Reading through an address that is not
    allocated is undefined behaviour in the source and [None] here, and so
    is a failed [assert].  The three link fields of a handle are carried
    by the containers they thread: a bucket of the hash table is the list
    of the addresses chained through [next_hash], the LRU ring is the list
    of the addresses chained through [next] from [lru_.next] (oldest) to
    [lru_.prev] (newest).  Each call of a deleter is appended to a log. *)

From Stdlib Require Import ZArith Lia.
From stdpp Require Import base option list gmap strings fin_maps numbers.

Local Open Scope Z_scope.

(** ** Machine integers *)

(** [uint32_t] arithmetic. *)
Definition wrap32 (z : Z) : Z := z mod 2 ^ 32.

(** [size_t] and [uint64_t] arithmetic (LP64). *)
Definition wrap64 (z : Z) : Z := z mod 2 ^ 64.

(** ** struct LRUHandle *)

Abbreviation ptr := nat (only parsing).

Record LRUHandle := mkLRUHandle {
  value : Z;        (* void* value *)
  deleter : Z;      (* void (*deleter)(const Slice&, void*) *)
  charge : Z;       (* size_t *)
  key : string;     (* key_data, key_length; every handle of the cache is
                       linked to another node, so key() reads key_data *)
  refs : Z;         (* uint32_t *)
  hash : Z          (* uint32_t *)
}.

Definition set_refs (e : LRUHandle) (r : Z) : LRUHandle :=
  mkLRUHandle (value e) (deleter e) (charge e) (key e) r (hash e).

(** One call [( *e->deleter)(e->key(), e->value)], tagged with the address
    of the handle it was made for. *)
Record deleter_call := mkCall {
  dc_entry : ptr;
  dc_fn : Z;
  dc_key : string;
  dc_value : Z
}.

(** ** class HandleTable *)

Module HandleTable.

Record t := mk {
  length_ : Z;                 (* uint32_t *)
  elems_ : Z;                  (* uint32_t *)
  list_ : list (list ptr)      (* the buckets, each one a chain *)
}.

(** The loop of [FindPointer] along one chain: the position of the first
    handle with the hash and the key, or the length of the chain for the
    trailing slot. *)
Fixpoint walk (m : gmap ptr LRUHandle) (k : string) (h : Z)
    (c : list ptr) : option nat :=
  match c with
  | [] => Some 0%nat
  | p :: c' =>
      e ← m !! p;
      if bool_decide (hash e ≠ h ∨ k ≠ key e)
      then S <$> walk m k h c'
      else Some 0%nat
  end.

Definition bucket (tb : t) (h : Z) : nat :=
  Z.to_nat (Z.land h (length_ tb - 1)).

(** A slot is a bucket and a position in its chain. *)
Definition FindPointer (m : gmap ptr LRUHandle) (tb : t) (k : string)
    (h : Z) : option (nat * nat) :=
  c ← list_ tb !! bucket tb h;
  n ← walk m k h c;
  Some (bucket tb h, n).

(** What a slot points to; the trailing slot holds NULL. *)
Definition deref (tb : t) (slot : nat * nat) : option ptr :=
  c ← list_ tb !! slot.1; c !! slot.2.

Definition Lookup (m : gmap ptr LRUHandle) (tb : t) (k : string)
    (h : Z) : option (option ptr) :=
  slot ← FindPointer m tb k h;
  Some (deref tb slot).

(** [while (new_length < elems_) new_length *= 2].  The length wraps to 0
    after thirty doublings and stays there, so thirty-two rounds decide
    whether the loop ends. *)
Fixpoint new_length (fuel : nat) (n elems : Z) : option Z :=
  match fuel with
  | O => None
  | S f =>
      if bool_decide (n < elems)
      then new_length f (wrap32 (n * 2)) elems
      else Some n
  end.

(** The body of the rehash loop for one handle: push it on the front of
    its new bucket. *)
Definition relink (m : gmap ptr LRUHandle) (nl : Z)
    (acc : option (list (list ptr))) (p : ptr) : option (list (list ptr)) :=
  new_list ← acc;
  e ← m !! p;
  let i := Z.to_nat (Z.land (hash e) (nl - 1)) in
  c ← new_list !! i;
  Some (<[i := p :: c]> new_list).

Definition Resize (m : gmap ptr LRUHandle) (tb : t) : option t :=
  nl ← new_length 32 4 (elems_ tb);
  new_list ← foldl (relink m nl) (Some (replicate (Z.to_nat nl) []))
               (mjoin (list_ tb));
  if bool_decide (elems_ tb = wrap32 (Z.of_nat (length (mjoin (list_ tb)))))
  then Some (mk nl (elems_ tb) new_list)
  else None.

(** [HandleTable() : length_(0), elems_(0), list_(NULL) { Resize(); }] *)
Definition init : t := default (mk 0 0 []) (Resize ∅ (mk 0 0 [])).

Definition Insert (m : gmap ptr LRUHandle) (tb : t) (h : ptr)
    : option (t * option ptr) :=
  e ← m !! h;
  slot ← FindPointer m tb (key e) (hash e);
  c ← list_ tb !! slot.1;
  match c !! slot.2 with
  | Some old =>
      Some (mk (length_ tb) (elems_ tb)
               (<[slot.1 := <[slot.2 := h]> c]> (list_ tb)), Some old)
  | None =>
      let tb' := mk (length_ tb) (wrap32 (elems_ tb + 1))
                    (<[slot.1 := c ++ [h]]> (list_ tb)) in
      if bool_decide (elems_ tb' > length_ tb')
      then tb'' ← Resize m tb'; Some (tb'', None)
      else Some (tb', None)
  end.

Definition Remove (m : gmap ptr LRUHandle) (tb : t) (k : string) (h : Z)
    : option (t * option ptr) :=
  slot ← FindPointer m tb k h;
  c ← list_ tb !! slot.1;
  match c !! slot.2 with
  | Some result =>
      Some (mk (length_ tb) (wrap32 (elems_ tb - 1))
               (<[slot.1 := delete slot.2 c]> (list_ tb)), Some result)
  | None => Some (tb, None)
  end.

(** The handles reachable from the table. *)
Definition members (tb : t) : list ptr := mjoin (list_ tb).

End HandleTable.

(** ** class LRUCache: one shard *)

Module LRUCache.

Record t := mk {
  capacity_ : Z;                     (* size_t *)
  usage_ : Z;                        (* size_t *)
  lru_ : list ptr;                   (* the ring, oldest first *)
  table_ : HandleTable.t;
  heap : gmap ptr LRUHandle;         (* the arena of the shard *)
  brk : ptr;                         (* next address malloc returns *)
  deleted : list deleter_call        (* the deleter calls so far *)
}.

Definition set_capacity (s : t) (c : Z) : t :=
  mk c (usage_ s) (lru_ s) (table_ s) (heap s) (brk s) (deleted s).
Definition set_lru (s : t) (l : list ptr) : t :=
  mk (capacity_ s) (usage_ s) l (table_ s) (heap s) (brk s) (deleted s).
Definition set_table (s : t) (tb : HandleTable.t) : t :=
  mk (capacity_ s) (usage_ s) (lru_ s) tb (heap s) (brk s) (deleted s).
Definition set_heap (s : t) (m : gmap ptr LRUHandle) : t :=
  mk (capacity_ s) (usage_ s) (lru_ s) (table_ s) m (brk s) (deleted s).

(** [LRUCache()]: an empty ring and table; the capacity is set by
    [SetCapacity] before use. *)
Definition init : t := mk 0 0 [] HandleTable.init ∅ 0%nat [].

Definition SetCapacity (s : t) (capacity : Z) : t := set_capacity s capacity.

Definition Unref (s : t) (e : ptr) : option t :=
  h ← heap s !! e;
  if bool_decide (refs h > 0) then
    let r := wrap32 (refs h - 1) in
    if bool_decide (r <= 0) then
      Some (mk (capacity_ s) (wrap64 (usage_ s - charge h)) (lru_ s)
               (table_ s) (delete e (heap s)) (brk s)
               (deleted s ++ [mkCall e (deleter h) (key h) (value h)]))
    else Some (set_heap s (<[e := set_refs h r]> (heap s)))
  else None.

(** Unlinking a node: the ring holds a node once. *)
Definition LRU_Remove (l : list ptr) (e : ptr) : list ptr :=
  filter (λ x, x ≠ e) l.

(** Linking a node just before [lru_], as the newest. *)
Definition LRU_Append (l : list ptr) (e : ptr) : list ptr := l ++ [e].

Definition Lookup (s : t) (k : string) (h : Z) : option (t * option ptr) :=
  r ← HandleTable.Lookup (heap s) (table_ s) k h;
  match r with
  | Some e =>
      he ← heap s !! e;
      Some (set_lru
              (set_heap s (<[e := set_refs he (wrap32 (refs he + 1))]> (heap s)))
              (LRU_Append (LRU_Remove (lru_ s) e) e),
            Some e)
  | None => Some (s, None)
  end.

Definition Release (s : t) (handle : ptr) : option t := Unref s handle.

(** The eviction loop of [Insert]; every round unlinks the oldest node,
    so as many rounds as the ring has nodes are enough. *)
Fixpoint evict (fuel : nat) (s : t) : option t :=
  match lru_ s with
  | old :: _ =>
      if bool_decide (usage_ s > capacity_ s) then
        match fuel with
        | O => None
        | S f =>
            h ← heap s !! old;
            r ← HandleTable.Remove (heap s) (table_ s) (key h) (hash h);
            s' ← Unref (set_table (set_lru s (LRU_Remove (lru_ s) old)) r.1) old;
            evict f s'
        end
      else Some s
  | [] => Some s
  end.

Definition Insert (s : t) (k : string) (h : Z) (v : Z) (c : Z) (d : Z)
    : option (t * ptr) :=
  let e := brk s in
  let s1 := mk (capacity_ s) (wrap64 (usage_ s + c)) (LRU_Append (lru_ s) e)
               (table_ s) (<[e := mkLRUHandle v d c k 2 h]> (heap s))
               (S e) (deleted s) in
  r ← HandleTable.Insert (heap s1) (table_ s1) e;
  let s2 := set_table s1 r.1 in
  s3 ← match r.2 with
       | Some old => Unref (set_lru s2 (LRU_Remove (lru_ s2) old)) old
       | None => Some s2
       end;
  s4 ← evict (length (lru_ s3)) s3;
  Some (s4, e).

Definition Erase (s : t) (k : string) (h : Z) : option t :=
  r ← HandleTable.Remove (heap s) (table_ s) k h;
  match r.2 with
  | Some e => Unref (set_table (set_lru s (LRU_Remove (lru_ s) e)) r.1) e
  | None => Some s
  end.

(** [reinterpret_cast<LRUHandle*>(handle)->value] *)
Definition Value (s : t) (handle : ptr) : option Z :=
  value <$> heap s !! handle.

End LRUCache.

(** ** class ShardedLRUCache *)

Module ShardedLRUCache.
Section Sharded.

(** [Hash(data, n, seed)] of util/hash.h, which is not part of the
    sources at hand: any function of the bytes and the seed. *)
Variable Hash : string → Z → Z.

Definition kNumShardBits : Z := 4.
Definition kNumShards : Z := Z.shiftl 1 kNumShardBits.

Record t := mk {
  shard_ : list LRUCache.t;     (* LRUCache shard_[kNumShards] *)
  last_id_ : Z                  (* uint64_t *)
}.

(** A handle is the address of an [LRUHandle]: the arena of the shard
    that allocated it and the address in that arena. *)
Record Handle := mkHandle { arena : nat; addr : ptr }.

Definition HashSlice (s : string) : Z := wrap32 (Hash s 0).

Definition Shard (hash : Z) : nat :=
  Z.to_nat (Z.shiftr hash (32 - kNumShardBits)).

(** [ShardedLRUCache(capacity)] *)
Definition new (capacity : Z) : t :=
  let per_shard := wrap64 (capacity + (kNumShards - 1)) / kNumShards in
  mk (replicate (Z.to_nat kNumShards)
        (LRUCache.SetCapacity LRUCache.init per_shard)) 0.

Definition Insert (c : t) (k : string) (v : Z) (charge : Z) (d : Z)
    : option (t * Handle) :=
  let hash := HashSlice k in
  sh ← shard_ c !! Shard hash;
  r ← LRUCache.Insert sh k hash v charge d;
  Some (mk (<[Shard hash := r.1]> (shard_ c)) (last_id_ c),
        mkHandle (Shard hash) r.2).

Definition Lookup (c : t) (k : string) : option (t * option Handle) :=
  let hash := HashSlice k in
  sh ← shard_ c !! Shard hash;
  r ← LRUCache.Lookup sh k hash;
  Some (mk (<[Shard hash := r.1]> (shard_ c)) (last_id_ c),
        match r.2 with
        | Some e => Some (mkHandle (Shard hash) e)
        | None => None
        end).

Definition Release (c : t) (handle : Handle) : option t :=
  own ← shard_ c !! arena handle;
  h ← LRUCache.heap own !! addr handle;
  sh ← shard_ c !! Shard (hash h);
  sh' ← LRUCache.Release sh (addr handle);
  Some (mk (<[Shard (hash h) := sh']> (shard_ c)) (last_id_ c)).

Definition Erase (c : t) (k : string) : option t :=
  let hash := HashSlice k in
  sh ← shard_ c !! Shard hash;
  sh' ← LRUCache.Erase sh k hash;
  Some (mk (<[Shard hash := sh']> (shard_ c)) (last_id_ c)).

Definition Value (c : t) (handle : Handle) : option Z :=
  own ← shard_ c !! arena handle;
  LRUCache.Value own (addr handle).

(** [return ++(last_id_)] *)
Definition NewId (c : t) : t * Z :=
  let id := wrap64 (last_id_ c + 1) in
  (mk (shard_ c) id, id).

End Sharded.
End ShardedLRUCache.

(** [Cache* NewLRUCache(size_t capacity)] *)
Definition NewLRUCache (capacity : Z) : ShardedLRUCache.t :=
  ShardedLRUCache.new capacity.

(** ** Clients

    A client of one shard calls the four public operations and keeps the
    handles it was given and has not released yet.  A call exists when its
    arguments have their C types and, for [Release], when the handle is one
    the client still holds. *)

Inductive op :=
  | OpInsert (k : string) (h : Z) (v : Z) (c : Z) (d : Z)
  | OpLookup (k : string) (h : Z)
  | OpRelease (handle : ptr)
  | OpErase (k : string) (h : Z).

(** The handles held on [p]. *)
Definition held (H : list ptr) (p : ptr) : nat :=
  length (filter (λ q, q = p) H).

(** Giving one handle on [p] back. *)
Fixpoint give_back (p : ptr) (H : list ptr) : list ptr :=
  match H with
  | [] => []
  | q :: H' => if decide (q = p) then H' else q :: give_back p H'
  end.

Definition step (o : op) (σ : LRUCache.t * list ptr)
    : option (LRUCache.t * list ptr) :=
  match o with
  | OpInsert k h v c d =>
      if bool_decide (0 ≤ h < 2 ^ 32 ∧ 0 ≤ c < 2 ^ 64) then
        r ← LRUCache.Insert σ.1 k h v c d;
        Some (r.1, r.2 :: σ.2)
      else None
  | OpLookup k h =>
      r ← LRUCache.Lookup σ.1 k h;
      Some (r.1, match r.2 with Some e => e :: σ.2 | None => σ.2 end)
  | OpRelease p =>
      if bool_decide (p ∈ σ.2) then
        s ← LRUCache.Release σ.1 p;
        Some (s, give_back p σ.2)
      else None
  | OpErase k h =>
      s ← LRUCache.Erase σ.1 k h;
      Some (s, σ.2)
  end.

Definition run (ops : list op) (σ : LRUCache.t * list ptr)
    : option (LRUCache.t * list ptr) :=
  foldl (λ acc o, acc ≫= step o) (Some σ) ops.

(** A shard of the given capacity that no client has used yet. *)
Definition fresh (capacity : Z) : LRUCache.t * list ptr :=
  (LRUCache.SetCapacity LRUCache.init capacity, []).

(** The charge of all handles of an arena. *)
Definition total_charge (m : gmap ptr LRUHandle) : Z :=
  map_fold (λ _ e acc, charge e + acc) 0 m.


(** The deleter calls made for the handle at [p]. *)
Definition ncalls (log : list deleter_call) (p : ptr) : nat :=
  length (filter (λ c, dc_entry c = p) log).

Definition calls (s : LRUCache.t) (p : ptr) : nat :=
  ncalls (LRUCache.deleted s) p.

(** The clients of the sharded cache. *)
Inductive sop :=
  | SInsert (k : string) (v : Z) (c : Z) (d : Z)
  | SLookup (k : string)
  | SRelease (handle : ShardedLRUCache.Handle)
  | SErase (k : string)
  | SNewId.

#[export] Instance Handle_eq_dec : EqDecision ShardedLRUCache.Handle.
Proof. solve_decision. Defined.

Record client := mkClient {
  cache : ShardedLRUCache.t;
  handles : list ShardedLRUCache.Handle;   (* held, not released yet *)
  ids : list Z                             (* returned by NewId, in order *)
}.

Fixpoint sgive_back (p : ShardedLRUCache.Handle)
    (H : list ShardedLRUCache.Handle) : list ShardedLRUCache.Handle :=
  match H with
  | [] => []
  | q :: H' => if decide (q = p) then H' else q :: sgive_back p H'
  end.

Section Clients.

Variable Hash : string → Z → Z.

Definition sstep (o : sop) (σ : client) : option client :=
  match o with
  | SInsert k v c d =>
      if bool_decide (0 ≤ c < 2 ^ 64) then
        r ← ShardedLRUCache.Insert Hash (cache σ) k v c d;
        Some (mkClient r.1 (r.2 :: handles σ) (ids σ))
      else None
  | SLookup k =>
      r ← ShardedLRUCache.Lookup Hash (cache σ) k;
      Some (mkClient r.1
              (match r.2 with Some e => e :: handles σ | None => handles σ end)
              (ids σ))
  | SRelease p =>
      if bool_decide (p ∈ handles σ) then
        c ← ShardedLRUCache.Release (cache σ) p;
        Some (mkClient c (sgive_back p (handles σ)) (ids σ))
      else None
  | SErase k =>
      c ← ShardedLRUCache.Erase Hash (cache σ) k;
      Some (mkClient c (handles σ) (ids σ))
  | SNewId =>
      let r := ShardedLRUCache.NewId (cache σ) in
      Some (mkClient r.1 (handles σ) (ids σ ++ [r.2]))
  end.

Definition srun (ops : list sop) (σ : client) : option client :=
  foldl (λ acc o, acc ≫= sstep o) (Some σ) ops.

End Clients.

(** A cache of the given total capacity that no client has used yet. *)
Definition sfresh (capacity : Z) : client :=
  mkClient (NewLRUCache capacity) [] [].

(** * The vocabulary of the properties *)

Section Vocabulary.

(** ** The hash table *)

Import HandleTable.

(** What [FindPointer] is looking for among the handles [M]. *)
Definition finds (m : gmap ptr LRUHandle) (M : list ptr) (k : string) (h : Z)
    (r : option ptr) : Prop :=
  match r with
  | Some p => p ∈ M ∧ ∃ e, m !! p = Some e ∧ key e = k ∧ hash e = h
  | None => ∀ p e, p ∈ M → m !! p = Some e → ¬ (key e = k ∧ hash e = h)
  end.

(** No two of the handles [M] have the same key and hash. *)
Definition keys_inj (m : gmap ptr LRUHandle) (M : list ptr) : Prop :=
  ∀ p q e e', p ∈ M → q ∈ M → m !! p = Some e → m !! q = Some e' →
    key e = key e' → hash e = hash e' → p = q.

(** The representation invariant of the table over an arena: one chain per
    bucket, every handle allocated and chained in the bucket of its hash, no
    two handles with the same key and hash, the count of handles right. *)
Record table_ok (m : gmap ptr LRUHandle) (tb : HandleTable.t) : Prop := {
  tok_len : length (list_ tb) = Z.to_nat (length_ tb);
  tok_pos : 1 ≤ length_ tb;
  tok_bucket : ∀ b c p, list_ tb !! b = Some c → p ∈ c →
    ∃ e, m !! p = Some e ∧ bucket tb (hash e) = b;
  tok_nodup : NoDup (members tb);
  tok_inj : keys_inj m (members tb);
  tok_elems : elems_ tb = Z.of_nat (length (members tb));
  tok_small : elems_ tb ≤ 2 ^ 31
}.

(** ** A shard *)

Import LRUCache.

(** The usage counter is the charge of the arena, addresses are handed out
    in order, and the deleter has been called once for every handle that
    was freed and never for one that is allocated. *)
Record accounted (s : LRUCache.t) : Prop := {
  acc_usage : usage_ s = wrap64 (total_charge (heap s));
  acc_brk : ∀ p, is_Some (heap s !! p) → (p < brk s)%nat;
  acc_calls : ∀ p, (p < brk s)%nat →
    calls s p = match heap s !! p with Some _ => 0%nat | None => 1%nat end;
  acc_log : ∀ c, c ∈ deleted s → (dc_entry c < brk s)%nat
}.

(** Two handles that differ in their reference count at most. *)
Definition same_data (e e' : LRUHandle) : Prop := set_refs e 0 = set_refs e' 0.

(** From a state to a later one: the capacity stays, addresses are not
    reused, an allocated handle was allocated before with the same data
    unless it is new, and the log of deleter calls grows. *)
Record evolves (s s' : LRUCache.t) : Prop := {
  ev_capacity : capacity_ s' = capacity_ s;
  ev_brk : (brk s ≤ brk s')%nat;
  ev_heap : ∀ p e', heap s' !! p = Some e' → (p < brk s)%nat →
    ∃ e, heap s !! p = Some e ∧ same_data e e';
  ev_log : ∃ l, deleted s' = deleted s ++ l
}.

(** What every operation of a shard does to its state. *)
Definition step_ok (s s' : LRUCache.t) : Prop :=
  evolves s s' ∧ (accounted s → accounted s').

(** The ring holds the handles [M], each once; they and the handles the
    client holds are allocated; a reference count is the number of handles
    the client holds plus one for the table; the fields have their C
    types. *)
Record shard_inv (M : list ptr) (s : LRUCache.t) (H : list ptr) : Prop := {
  si_ring : lru_ s ≡ₚ M;
  si_nodup : NoDup M;
  si_live : ∀ p, p ∈ M → is_Some (heap s !! p);
  si_held : ∀ p, p ∈ H → is_Some (heap s !! p);
  si_refs : ∀ p e, heap s !! p = Some e →
    refs e = Z.of_nat (held H p) + (if bool_decide (p ∈ M) then 1 else 0);
  si_typed : ∀ p e, heap s !! p = Some e →
    0 < refs e < 2 ^ 32 ∧ 0 ≤ charge e < 2 ^ 64 ∧ 0 ≤ hash e < 2 ^ 32
}.

(** The invariant of a shard whose client holds the handles [H]. *)
Definition shard_ok (s : LRUCache.t) (H : list ptr) : Prop :=
  table_ok (heap s) (table_ s) ∧
  shard_inv (members (table_ s)) s H ∧
  accounted s.

(** The state [Unref] leaves when the reference count is in range. *)
Definition dropped (s : LRUCache.t) (p : ptr) (e : LRUHandle) : LRUCache.t :=
  if bool_decide (refs e = 1) then
    LRUCache.mk (capacity_ s) (wrap64 (usage_ s - charge e)) (lru_ s)
      (table_ s) (delete p (heap s)) (brk s)
      (deleted s ++ [mkCall p (deleter e) (key e) (value e)])
  else set_heap s (<[p:=set_refs e (refs e - 1)]> (heap s)).

(** The state [Erase] leaves: [LRU_Remove(e)], the table without [e],
    [Unref(e)]. *)
Definition retired (s : LRUCache.t) (p : ptr) (e : LRUHandle)
    (tb' : HandleTable.t) : LRUCache.t :=
  dropped (set_table (set_lru s (LRU_Remove (lru_ s) p)) tb') p e.

(** The state a [Lookup] that finds [e] leaves: one more reference, [e]
    at the new end of the ring. *)
Definition touched (s : LRUCache.t) (p : ptr) (e : LRUHandle) : LRUCache.t :=
  set_lru (set_heap s (<[p:=set_refs e (wrap32 (refs e + 1))]> (heap s)))
    (LRU_Append (LRU_Remove (lru_ s) p) p).

(** The state of [Insert] before [table_.Insert(e)]. *)
Definition allocated (s : LRUCache.t) (k : string) (h v c d : Z) : LRUCache.t :=
  LRUCache.mk (capacity_ s) (wrap64 (usage_ s + c))
    (LRU_Append (lru_ s) (brk s)) (table_ s)
    (<[brk s:=mkLRUHandle v d c k 2 h]> (heap s)) (S (brk s)) (deleted s).

(** The ring after [LRU_Remove(old)], when [table_.Insert] returned
    [old]. *)
Definition unlink (l : list ptr) (old : option ptr) : list ptr :=
  match old with Some o => LRU_Remove l o | None => l end.

(** ** Runs of a client of one shard *)

(** What a run from an unused shard of capacity [c] leaves; the unused
    shard itself when the run is not one a client can make. *)
Definition outcome (ops : list op) (c : Z) : LRUCache.t * list ptr :=
  default (fresh c) (run ops (fresh c)).










(** ** The sharded cache *)

Import ShardedLRUCache.

(** The handles a client holds in the arena [i]. *)
Definition proj (i : nat) (HS : list Handle) : list ptr :=
  addr <$> filter (λ hd, arena hd = i) HS.

(** Every shard is well formed for the handles held in its arena, the
    entries of the arena [i] hash to the shard [i], and the handles held
    point into arenas that exist. *)
Record cache_ok (c : ShardedLRUCache.t) (HS : list Handle) : Prop := {
  co_len : length (shard_ c) = 16%nat;
  co_shard : ∀ i sh, shard_ c !! i = Some sh → shard_ok sh (proj i HS);
  co_home : ∀ i sh p e, shard_ c !! i = Some sh →
    heap sh !! p = Some e → Shard (hash e) = i;
  co_arena : ∀ hd, hd ∈ HS → (arena hd < 16)%nat
}.

(** No shard has allocated more than [n] handles. *)
Definition shards_below (n : Z) (c : ShardedLRUCache.t) : Prop :=
  ∀ i sh, shard_ c !! i = Some sh → Z.of_nat (brk sh) ≤ n.

(** Every shard has the capacity [cap]. *)
Definition shards_capacity (cap : Z) (c : ShardedLRUCache.t) : Prop :=
  ∀ i sh, shard_ c !! i = Some sh → capacity_ sh = cap.

(** The capacity [ShardedLRUCache(capacity)] gives every shard. *)
Definition per_shard (capacity : Z) : Z :=
  wrap64 (capacity + (kNumShards - 1)) / kNumShards.

(** No shard has a resident entry. *)
Definition all_empty (c : ShardedLRUCache.t) : Prop :=
  ∀ i sh, shard_ c !! i = Some sh → members (table_ sh) = [].

(** The calls that are [NewId]. *)
Definition is_NewId (o : sop) : bool :=
  match o with SNewId => true | _ => false end.

(** The calls of [NewId] in a run. *)
Definition new_ids (ops : list sop) : nat :=
  length (filter (λ o, is_NewId o = true) ops).

(** A hash function to run the sharded cache with: the length of the key
    in the four high bits. *)
Definition sample_hash (s : string) (seed : Z) : Z :=
  Z.shiftl (Z.of_nat (String.length s)) 28 + seed.

(** What a run on a new cache of total capacity [cap] leaves. *)
Definition soutcome (ops : list sop) (cap : Z) : client :=
  default (sfresh cap) (srun sample_hash ops (sfresh cap)).

(** [NewId] between the calls of a client. *)
Definition ids_between_inserts : list sop :=
  [SNewId; SInsert "a" 1 1 0; SNewId; SLookup "a"; SNewId].


End Vocabulary.

(** * More of the code *)

(** ** Slice: the comparisons of include/leveldb/slice.h that
    [FindPointer] calls *)

Module Slice.

(** A slice is its bytes; [size()] is their number. *)
Definition size (s : string) : Z := Z.of_nat (String.length s).

(** [memcmp(a, b, n)] on the bytes of two slices.  Reading past the end of
    either is undefined behaviour, [None] here.  The bytes are compared as
    [unsigned char]; of the result only the sign is specified, the
    difference of the first two bytes that differ is taken for it. *)
Fixpoint memcmp (a b : string) (n : nat) : option Z :=
  match n with
  | O => Some 0
  | S n' =>
      match a, b with
      | String x a', String y b' =>
          if bool_decide (x = y) then memcmp a' b' n'
          else Some (Z.of_nat (Ascii.nat_of_ascii x)
                     - Z.of_nat (Ascii.nat_of_ascii y))
      | _, _ => None
      end
  end.

(** [operator==]: [&&] does not evaluate [memcmp] when the sizes differ. *)
Definition eq (x y : string) : option bool :=
  if bool_decide (size x = size y)
  then r ← memcmp x y (String.length x); Some (bool_decide (r = 0))
  else Some false.

(** [operator!=] *)
Definition ne (x y : string) : option bool := negb <$> eq x y.

End Slice.

(** ** The destructor of a shard *)

(** One round of the loop of [~LRUCache()]: [assert(e->refs == 1)], then
    [Unref(e)]. *)
Definition dtor_step (acc : option LRUCache.t) (e : ptr) : option LRUCache.t :=
  s ← acc;
  h ← LRUCache.heap s !! e;
  if bool_decide (refs h = 1) then LRUCache.Unref s e else None.

(** [~LRUCache()] walks the ring from [lru_.next], reading [e->next]
    before [Unref(e)] frees [e]; it does not unlink.  What is left of a
    destroyed shard is its arena and the deleter calls made. *)
Definition LRUCache_dtor (s : LRUCache.t)
    : option (gmap ptr LRUHandle * list deleter_call) :=
  s' ← foldl dtor_step (Some s) (LRUCache.lru_ s);
  Some (LRUCache.heap s', LRUCache.deleted s').

(** ** The destructor of the cache *)

(** [~ShardedLRUCache()] has an empty body; the shards are destroyed as
    members of the array, the last first, each by [~LRUCache()].  What is
    left is the arena and the deleter calls of every shard, listed in the
    order of destruction. *)
Definition ShardedLRUCache_dtor (c : ShardedLRUCache.t)
    : option (list (gmap ptr LRUHandle * list deleter_call)) :=
  mapM LRUCache_dtor (reverse (ShardedLRUCache.shard_ c)).

(** ** More vocabulary *)

(** The number of buckets is a power of two, at least four, and at least
    the number of entries: chains have one entry on average at most. *)
Definition load_ok (tb : HandleTable.t) : Prop :=
  HandleTable.elems_ tb ≤ HandleTable.length_ tb ∧
  ∃ k, 2 ≤ k ≤ 31 ∧ HandleTable.length_ tb = 2 ^ k.

(** The charge a call adds to a shard, and the charges of a run. *)
Definition op_charge (o : op) : Z :=
  match o with OpInsert _ _ _ c _ => c | _ => 0 end.

Definition inserted_charge (ops : list op) : Z :=
  foldr (λ o acc, op_charge o + acc) 0 ops.

(** An entry erased while its handle is held, and one that is
    resident. *)
Definition one_erased : list op :=
  [OpInsert "a" 7 1 10 0; OpErase "a" 7; OpInsert "b" 9 2 60 0].

(** An entry looked up twice, one handle given back, and a second
    entry. *)
Definition two_entries : list op :=
  [OpInsert "a" 7 1 10 0; OpLookup "a" 7; OpRelease 0%nat;
   OpInsert "b" 9 2 20 0].

(** Two entries inserted and released. *)
Definition two_released : list op :=
  [OpInsert "a" 7 1 40 0; OpRelease 0%nat;
   OpInsert "b" 9 2 50 0; OpRelease 1%nat].

(** The call [( *e->deleter)(e->key(), e->value)] for the entry at [p]. *)
Definition deleter_call_of (m : gmap ptr LRUHandle) (p : ptr)
    : option deleter_call :=
  e ← m !! p; Some (mkCall p (deleter e) (key e) (value e)).

(** The only handle held is on an entry that was erased. *)
Definition erased_held_only : list op := one_erased ++ [OpRelease 1%nat].

(** Entries of three shards, one looked up again, all handles but one
    given back. *)
Definition three_shards : list sop :=
  [SInsert "a" 1 3 0; SInsert "bb" 2 4 0; SInsert "ccc" 3 5 0;
   SLookup "bb";
   SRelease (ShardedLRUCache.mkHandle 1 0); SRelease (ShardedLRUCache.mkHandle 3 0);
   SRelease (ShardedLRUCache.mkHandle 2 0)].

(** Entries of two shards, every handle given back. *)
Definition all_released : list sop :=
  [SInsert "a" 1 3 0; SInsert "bb" 2 4 0;
   SRelease (ShardedLRUCache.mkHandle 1 0); SRelease (ShardedLRUCache.mkHandle 2 0)].

(** From a state to a later one: the deleter calls made in between for
    entries that were allocated in the first state are the calls for those
    entries, with their deleter, key and value. *)
Definition calls_from (s s' : LRUCache.t) : Prop :=
  ∃ l, LRUCache.deleted s' = LRUCache.deleted s ++ l ∧
    ∀ call, call ∈ l → (dc_entry call < LRUCache.brk s)%nat →
      deleter_call_of (LRUCache.heap s) (dc_entry call) = Some call.

Definition tracked (s s' : LRUCache.t) : Prop :=
  evolves s s' ∧ calls_from s s'.

(** ** Runs past the range of the reference count *)



(** * Machine arithmetic *)

Lemma bind_Some {A B} (x : A) (f : A → option B) : Some x ≫= f = f x.
Proof. done. Qed.

Lemma land_mask_range a b : 0 ≤ b → 0 ≤ Z.land a b ≤ b.
Proof.
  intros Hb. split; [apply Z.land_nonneg; auto|].
  assert (Hd : Z.land (Z.ldiff b a) (Z.land b a) = 0).
  { rewrite (Z.land_comm b a), Z.land_assoc, Z.land_ldiff. apply Z.land_0_l. }
  pose proof (Z.add_nocarry_lxor _ _ Hd) as Hs.
  rewrite (Z.lxor_lor _ _ Hd), Z.lor_ldiff_and in Hs.
  assert (0 ≤ Z.ldiff b a) by (apply Z.ldiff_nonneg; auto).
  rewrite (Z.land_comm a b). lia.
Qed.

Lemma wrap32_small z : 0 ≤ z < 2 ^ 32 → wrap32 z = z.
Proof. intros. unfold wrap32. apply Z.mod_small. lia. Qed.

Lemma wrap64_small z : 0 ≤ z < 2 ^ 64 → wrap64 z = z.
Proof. intros. unfold wrap64. apply Z.mod_small. lia. Qed.

Lemma wrap64_add_l a b : wrap64 (wrap64 a + b) = wrap64 (a + b).
Proof. unfold wrap64. apply Zplus_mod_idemp_l. Qed.

Lemma wrap64_sub_l a b : wrap64 (wrap64 a - b) = wrap64 (a - b).
Proof. unfold wrap64. apply Zminus_mod_idemp_l. Qed.

(** * The hash table *)

Import HandleTable.

Lemma elem_of_members tb p :
  p ∈ members tb ↔ ∃ b c, list_ tb !! b = Some c ∧ p ∈ c.
Proof.
  unfold members. rewrite list_elem_of_join. split.
  - intros (c & Hp & Hc). apply list_elem_of_lookup in Hc as [b Hb]. eauto.
  - intros (b & c & Hb & Hp). exists c. split; [done|].
    eapply list_elem_of_lookup_2; eauto.
Qed.

Lemma table_ok_live m tb p :
  table_ok m tb → p ∈ members tb → is_Some (m !! p).
Proof.
  intros Hok (b & c & Hb & Hp)%elem_of_members.
  destruct (tok_bucket _ _ Hok _ _ _ Hb Hp) as (e & He & _). eauto.
Qed.

Lemma bucket_lt tb h :
  1 ≤ length_ tb → (bucket tb h < Z.to_nat (length_ tb))%nat.
Proof.
  intros. unfold bucket.
  pose proof (land_mask_range h (length_ tb - 1)). lia.
Qed.

Lemma walk_spec m k h c :
  (∀ p, p ∈ c → is_Some (m !! p)) →
  ∃ n, walk m k h c = Some n ∧ (n ≤ length c)%nat ∧
    (∀ i q e, (i < n)%nat → c !! i = Some q → m !! q = Some e →
       ¬ (key e = k ∧ hash e = h)) ∧
    (∀ q, c !! n = Some q → ∃ e, m !! q = Some e ∧ key e = k ∧ hash e = h).
Proof.
  induction c as [|p c IH]; intros Hlive; simpl.
  - exists 0%nat. repeat split; [lia| intros; lia | intros ? [=]].
  - destruct (Hlive p) as [e He]; [left|]. rewrite He. simpl.
    case_bool_decide as Hd.
    + destruct IH as (n & -> & Hle & Hbefore & Hat).
      { intros q Hq. apply Hlive. by right. }
      exists (S n). simpl. repeat split; [lia| |done].
      intros [|i] q e' Hi Hq He' [Hk Hh]; simpl in *.
      * simplify_eq. destruct Hd; congruence.
      * eapply (Hbefore i); eauto. lia.
    + exists 0%nat. repeat split; [lia | intros; lia |].
      intros q [= <-]. exists e. split; [done|].
      split; destruct (decide (key e = k)), (decide (hash e = h));
        try done; destruct Hd; auto.
Qed.

Lemma FindPointer_spec m tb k h :
  table_ok m tb →
  ∃ c n, list_ tb !! bucket tb h = Some c ∧
    FindPointer m tb k h = Some (bucket tb h, n) ∧
    (n ≤ length c)%nat ∧
    finds m (members tb) k h (c !! n).
Proof.
  intros Hok.
  destruct (lookup_lt_is_Some_2 (list_ tb) (bucket tb h)) as [c Hc].
  { rewrite (tok_len _ _ Hok). apply bucket_lt, Hok. }
  destruct (walk_spec m k h c) as (n & Hw & Hle & Hbefore & Hat).
  { intros p Hp. eapply table_ok_live; [done|].
    apply elem_of_members; eauto. }
  exists c, n. unfold FindPointer. rewrite Hc. simpl. rewrite Hw. simpl.
  repeat split; [done|].
  destruct (c !! n) as [q|] eqn:Hq; simpl.
  - split; [|by apply Hat].
    apply elem_of_members. exists (bucket tb h), c. split; [done|].
    eapply list_elem_of_lookup_2; eauto.
  - intros p e (b & c' & Hb & Hp)%elem_of_members He [Hk Hh].
    destruct (tok_bucket _ _ Hok _ _ _ Hb Hp) as (e' & He' & Hbk).
    simplify_eq.
    apply list_elem_of_lookup in Hp as [i Hi].
    apply lookup_ge_None in Hq.
    eapply (Hbefore i); eauto.
    apply lookup_lt_Some in Hi. lia.
Qed.

Lemma Lookup_spec m tb k h :
  table_ok m tb →
  ∃ r, Lookup m tb k h = Some r ∧ finds m (members tb) k h r.
Proof.
  intros Hok.
  destruct (FindPointer_spec m tb k h Hok) as (c & n & Hc & Hf & _ & Hr).
  exists (c !! n). unfold Lookup. rewrite Hf. simpl.
  unfold deref. simpl. rewrite Hc. done.
Qed.

Lemma mjoin_insert {A} (l : list (list A)) b c :
  l !! b = Some c →
  ∃ X Y, mjoin l = X ++ c ++ Y ∧ ∀ c', mjoin (<[b:=c']> l) = X ++ c' ++ Y.
Proof.
  intros Hb. exists (mjoin (take b l)), (mjoin (drop (S b) l)). split.
  - rewrite <- (take_drop_middle l b c Hb) at 1. by rewrite join_app.
  - intros c'. rewrite insert_take_drop by (by eapply lookup_lt_Some).
    by rewrite join_app.
Qed.

(** Changing one chain of a table whose buckets are right keeps them
    right. *)
Lemma table_ok_update m tb b c c' E :
  table_ok m tb →
  list_ tb !! b = Some c →
  (∀ p, p ∈ c' → ∃ e, m !! p = Some e ∧ bucket tb (hash e) = b) →
  let tb' := HandleTable.mk (length_ tb) E (<[b:=c']> (list_ tb)) in
  NoDup (members tb') →
  keys_inj m (members tb') →
  E = Z.of_nat (length (members tb')) → E ≤ 2 ^ 31 →
  table_ok m tb'.
Proof.
  intros Hok Hb Hc' tb' Hnd Hinj HE Hsm. split; simpl; try done.
  - rewrite length_insert. apply Hok.
  - apply Hok.
  - intros b' c'' p Hl Hp.
    destruct (decide (b' = b)) as [->|Hne].
    + rewrite list_lookup_insert_eq in Hl by (by eapply lookup_lt_Some).
      simplify_eq. by apply Hc'.
    + rewrite list_lookup_insert_ne in Hl by done.
      apply (tok_bucket _ _ Hok _ _ _ Hl Hp).
Qed.

Lemma Remove_spec m tb k h :
  table_ok m tb →
  ∃ tb' r, Remove m tb k h = Some (tb', r) ∧
    finds m (members tb) k h r ∧
    members tb ≡ₚ option_list r ++ members tb' ∧
    table_ok m tb'.
Proof.
  intros Hok.
  destruct (FindPointer_spec m tb k h Hok) as (c & n & Hc & Hf & Hle & Hr).
  unfold Remove. rewrite Hf. simpl. rewrite Hc. simpl.
  destruct (c !! n) as [r|] eqn:Hn; [|by eauto 10].
  eexists _, _. split; [done|]. split; [done|].
  destruct (mjoin_insert _ _ _ Hc) as (X & Y & HX & HY).
  assert (Hperm : mjoin (list_ tb) ≡ₚ
    r :: mjoin (<[bucket tb h:=delete n c]> (list_ tb))).
  { rewrite HX, HY. rewrite (delete_Permutation c n r Hn) at 1.
    simpl. by rewrite <- Permutation_middle. }
  split; [done|].
  pose proof (tok_nodup _ _ Hok) as Hnd. unfold members in Hnd.
  rewrite Hperm in Hnd.
  apply list.NoDup_cons in Hnd as [Hnotin Hnd].
  pose proof (Permutation_length Hperm) as Hlen. simpl in Hlen.
  pose proof (tok_elems _ _ Hok) as HE. unfold members in HE.
  pose proof (tok_small _ _ Hok) as HS.
  eapply table_ok_update; unfold members; simpl; try done.
  - intros p Hp. eapply (tok_bucket _ _ Hok); [done|].
    rewrite (delete_Permutation c n r Hn). by right.
  - intros p q e e' Hp Hq.
    apply (tok_inj _ _ Hok); unfold members; rewrite Hperm; by right.
  - rewrite wrap32_small; lia.
  - rewrite wrap32_small; lia.
Qed.

Lemma new_length_spec elems f k :
  elems ≤ 2 ^ 31 → 2 ≤ k ≤ 31 → 31 - k < Z.of_nat f →
  ∃ nl, new_length f (2 ^ k) elems = Some nl ∧ 4 ≤ nl.
Proof.
  intros He. revert k. induction f as [|f IH]; intros k Hk Hf; [lia|].
  simpl. case_bool_decide as Hlt.
  - assert (k < 31).
    { destruct (decide (k = 31)) as [->|]; lia. }
    replace (wrap32 (2 ^ k * 2)) with (2 ^ (k + 1)).
    + apply IH; lia.
    + rewrite Z.pow_add_r by lia. rewrite wrap32_small; [lia|].
      assert (2 ^ k < 2 ^ 31) by (apply Z.pow_lt_mono_r; lia). lia.
  - exists (2 ^ k). split; [done|].
    change 4 with (2 ^ 2). apply Z.pow_le_mono_r; lia.
Qed.

Lemma relink_spec m nl ps :
  1 ≤ nl →
  (∀ p, p ∈ ps → is_Some (m !! p)) →
  ∀ acc, length acc = Z.to_nat nl →
  ∃ acc', foldl (relink m nl) (Some acc) ps = Some acc' ∧
    length acc' = Z.to_nat nl ∧
    mjoin acc' ≡ₚ ps ++ mjoin acc ∧
    (∀ b c p, acc' !! b = Some c → p ∈ c →
       (∃ c0, acc !! b = Some c0 ∧ p ∈ c0) ∨
       (∃ e, m !! p = Some e ∧ Z.to_nat (Z.land (hash e) (nl - 1)) = b)).
Proof.
  intros Hnl. induction ps as [|p ps IH]; intros Hlive acc Hlen; simpl.
  - exists acc. repeat split; [done..|]. intros b c p Hb Hp. left. eauto.
  - destruct (Hlive p) as [e He]; [left|]. rewrite He. simpl.
    set (i := Z.to_nat (Z.land (hash e) (nl - 1))).
    assert (Hi : (i < length acc)%nat).
    { pose proof (land_mask_range (hash e) (nl - 1)). lia. }
    destruct (lookup_lt_is_Some_2 acc i Hi) as [c Hc].
    rewrite Hc. simpl.
    destruct (IH (λ q Hq, Hlive q (list_elem_of_further _ _ _ Hq))
                (<[i:=p :: c]> acc)) as (acc' & -> & Hl' & Hperm & Hbk).
    { by rewrite length_insert. }
    exists acc'. repeat split; [done| |].
    + rewrite Hperm.
      destruct (mjoin_insert _ _ _ Hc) as (X & Y & -> & ->).
      simpl. rewrite <- !Permutation_middle. done.
    + intros b c' q Hb Hq.
      destruct (Hbk b c' q Hb Hq) as [(c0 & Hc0 & Hq0)|?]; [|by right].
      destruct (decide (b = i)) as [->|Hne].
      * rewrite list_lookup_insert_eq in Hc0 by done. simplify_eq.
        apply elem_of_cons in Hq0 as [->|Hq0]; [right|left]; eauto.
      * rewrite list_lookup_insert_ne in Hc0 by done. left; eauto.
Qed.

Lemma mjoin_replicate_nil {A} n : mjoin (replicate n ([] : list A)) = [].
Proof. induction n; simpl; auto. Qed.

Lemma Resize_spec m tb :
  (∀ p, p ∈ members tb → is_Some (m !! p)) →
  NoDup (members tb) →
  keys_inj m (members tb) →
  elems_ tb = Z.of_nat (length (members tb)) →
  elems_ tb ≤ 2 ^ 31 →
  ∃ tb', Resize m tb = Some tb' ∧ table_ok m tb' ∧
    members tb' ≡ₚ members tb.
Proof.
  intros Hlive Hnd Hinj HE Hsm.
  destruct (new_length_spec (elems_ tb) 32 2) as (nl & Hnl & Hge); [lia..|].
  unfold Resize. change (2 ^ 2) with 4 in Hnl. rewrite Hnl. simpl.
  destruct (relink_spec m nl (members tb) ltac:(lia) Hlive
              (replicate (Z.to_nat nl) []))
    as (acc' & Hfold & Hlen & Hperm & Hbk).
  { apply length_replicate. }
  unfold members in *. rewrite Hfold. simpl.
  rewrite mjoin_replicate_nil, app_nil_r in Hperm.
  rewrite bool_decide_true by (rewrite wrap32_small; lia).
  eexists. split; [done|]. split; [|done].
  split; simpl; unfold members; simpl; try lia.
  - intros b c p Hb Hp.
    destruct (Hbk b c p Hb Hp) as [(c0 & Hc0 & Hp0)|?]; [|done].
    apply lookup_replicate in Hc0 as [-> _]. by apply elem_of_nil in Hp0.
  - by rewrite Hperm.
  - intros p q e e' Hp Hq. apply Hinj; by rewrite <- Hperm.
  - by rewrite Hperm.
Qed.

Lemma keys_inj_subseteq m M M' :
  (∀ p, p ∈ M' → p ∈ M) → keys_inj m M → keys_inj m M'.
Proof. intros Hsub Hinj p q e e' Hp Hq. apply Hinj; auto. Qed.

Lemma keys_inj_cons m M p e :
  m !! p = Some e →
  finds m M (key e) (hash e) None →
  keys_inj m M → keys_inj m (p :: M).
Proof.
  intros He Hnone Hinj q1 q2 e1 e2 Hq1 Hq2 H1 H2 Hk Hh.
  apply elem_of_cons in Hq1 as [->|Hq1]; apply elem_of_cons in Hq2 as [->|Hq2];
    simplify_eq; try done.
  - destruct (Hnone q2 e2 Hq2 H2). by split.
  - destruct (Hnone q1 e1 Hq1 H1). by split.
  - eapply Hinj; eauto.
Qed.

Lemma finds_unique m M k h r p e :
  keys_inj m M → finds m M k h r →
  p ∈ M → m !! p = Some e → key e = k → hash e = h → r = Some p.
Proof.
  intros Hinj Hr Hp He Hk Hh. destruct r as [q|]; simpl in Hr.
  - destruct Hr as (Hq & e' & He' & Hk' & Hh'). f_equal.
    eapply Hinj; eauto; congruence.
  - destruct (Hr p e Hp He). by split.
Qed.

Lemma Insert_spec m tb p e :
  table_ok m tb → m !! p = Some e → p ∉ members tb →
  Z.of_nat (length (members tb)) < 2 ^ 31 →
  ∃ tb' old, Insert m tb p = Some (tb', old) ∧
    finds m (members tb) (key e) (hash e) old ∧
    p :: members tb ≡ₚ option_list old ++ members tb' ∧
    table_ok m tb'.
Proof.
  intros Hok He Hfresh Hbound.
  destruct (FindPointer_spec m tb (key e) (hash e) Hok)
    as (c & n & Hc & Hf & Hle & Hr).
  pose proof (tok_nodup _ _ Hok) as Hnd.
  pose proof (tok_elems _ _ Hok) as HE.
  pose proof (tok_inj _ _ Hok) as Hinj.
  unfold members in Hnd, HE, Hbound, Hfresh.
  destruct (mjoin_insert _ _ _ Hc) as (X & Y & HX & HY).
  unfold Insert. rewrite He. simpl. rewrite Hf. simpl. rewrite Hc. simpl.
  destruct (c !! n) as [old|] eqn:Hn.
  - eexists _, _. split; [done|]. split; [done|].
    assert (Hperm : p :: mjoin (list_ tb) ≡ₚ
      old :: mjoin (<[bucket tb (hash e):=<[n:=p]> c]> (list_ tb))).
    { rewrite HX, HY.
      rewrite (insert_take_drop c n p) by (by eapply lookup_lt_Some).
      rewrite <- (take_drop_middle c n old Hn) at 1.
      rewrite <- !app_assoc. simpl.
      rewrite <- !Permutation_middle. apply perm_swap. }
    split; [done|].
    assert (Hnd' : NoDup (p :: mjoin (list_ tb))) by by apply NoDup_cons_2.
    rewrite Hperm in Hnd'. apply list.NoDup_cons in Hnd' as [Hold Hnd'].
    pose proof (Permutation_length Hperm) as Hlen. simpl in Hlen.
    assert (Hsub : ∀ q, q ∈ mjoin (<[bucket tb (hash e):=<[n:=p]> c]> (list_ tb)) →
                        q = p ∨ (q ∈ mjoin (list_ tb) ∧ q ≠ old)).
    { intros q Hq. assert (q ∈ p :: mjoin (list_ tb)) as Hq'.
      { rewrite Hperm. by right. }
      apply elem_of_cons in Hq' as [->|Hq']; [by left|right].
      split; [done|]. intros ->. done. }
    eapply table_ok_update; unfold members; simpl; try done.
    + intros q Hq.
      apply list_elem_of_lookup in Hq as [i Hi].
      destruct (decide (i = n)) as [->|Hne].
      * rewrite list_lookup_insert_eq in Hi by (by eapply lookup_lt_Some).
        simplify_eq. eauto.
      * rewrite list_lookup_insert_ne in Hi by done.
        eapply (tok_bucket _ _ Hok); [done|].
        eapply list_elem_of_lookup_2; eauto.
    + simpl in Hr. destruct Hr as (Hoin & eo & Heo & Hko & Hho).
      intros q1 q2 e1 e2 Hq1 Hq2 H1 H2 Hk Hh.
      destruct (Hsub _ Hq1) as [->|[Hm1 Hn1]];
        destruct (Hsub _ Hq2) as [->|[Hm2 Hn2]]; simplify_eq; try done.
      * destruct Hn2. eapply Hinj; eauto; congruence.
      * destruct Hn1. eapply Hinj; eauto; congruence.
      * eapply Hinj; eauto.
    + lia.
    + apply Hok.
  - assert (Hperm : mjoin (<[bucket tb (hash e):=c ++ [p]]> (list_ tb)) ≡ₚ
      p :: mjoin (list_ tb)).
    { rewrite HX, HY. rewrite <- !app_assoc. simpl.
      by rewrite <- !Permutation_middle. }
    assert (Hnd' : NoDup (mjoin (<[bucket tb (hash e):=c ++ [p]]> (list_ tb)))).
    { rewrite Hperm. by apply NoDup_cons_2. }
    assert (Hinj' : keys_inj m
      (mjoin (<[bucket tb (hash e):=c ++ [p]]> (list_ tb)))).
    { eapply keys_inj_subseteq; [|by eapply keys_inj_cons].
      intros q Hq. by rewrite <- Hperm. }
    pose proof (Permutation_length Hperm) as Hlen. simpl in Hlen.
    assert (Hw : wrap32 (elems_ tb + 1) =
      Z.of_nat (length (mjoin (<[bucket tb (hash e):=c ++ [p]]> (list_ tb))))).
    { rewrite wrap32_small; lia. }
    case_bool_decide as Hgrow.
    + edestruct (Resize_spec m
        (HandleTable.mk (length_ tb) (wrap32 (elems_ tb + 1))
           (<[bucket tb (hash e):=c ++ [p]]> (list_ tb))))
        as (tb'' & HR & Hok'' & Hperm''); unfold members; simpl; try done.
      * intros q Hq. rewrite Hperm in Hq.
        apply elem_of_cons in Hq as [->|Hq]; [eauto|].
        eapply table_ok_live; eauto.
      * lia.
      * simpl in HR. rewrite HR. simpl. eexists _, _.
        split; [done|]. split; [done|]. split; [|done].
        simpl. unfold members in Hperm''. simpl in Hperm''.
        unfold members. by rewrite Hperm'', Hperm.
    + eexists _, _. split; [done|]. split; [done|]. split.
      { simpl. unfold members. simpl. by rewrite Hperm. }
      eapply table_ok_update; unfold members; simpl; try done; [|lia].
      intros q [Hq|Hq%list_elem_of_singleton]%elem_of_app.
      * eapply (tok_bucket _ _ Hok); eauto.
      * subst. eauto.
Qed.

Lemma table_ok_arena m m' tb :
  table_ok m tb →
  (∀ p e, p ∈ members tb → m !! p = Some e →
     ∃ e', m' !! p = Some e' ∧ key e' = key e ∧ hash e' = hash e) →
  table_ok m' tb.
Proof.
  intros Hok Hsame. split; try apply Hok.
  - intros b c p Hb Hp.
    destruct (tok_bucket _ _ Hok _ _ _ Hb Hp) as (e & He & Hbk).
    destruct (Hsame p e) as (e' & He' & _ & Hh); [|done|].
    { apply elem_of_members; eauto. }
    exists e'. by rewrite Hh.
  - intros p q e e' Hp Hq He He' Hk Hh.
    destruct (table_ok_live _ _ _ Hok Hp) as [e0 He0].
    destruct (table_ok_live _ _ _ Hok Hq) as [e0' He0'].
    destruct (Hsame p e0 Hp He0) as (e1 & He1 & Hk1 & Hh1).
    destruct (Hsame q e0' Hq He0') as (e1' & He1' & Hk1' & Hh1').
    simplify_eq. eapply (tok_inj _ _ Hok); eauto; congruence.
Qed.

Lemma table_ok_init : table_ok ∅ HandleTable.init.
Proof.
  split; try done; simpl.
  - intros b c p Hb Hp. repeat (destruct b as [|b]; simplify_eq/=);
      by apply elem_of_nil in Hp.
  - constructor.
Qed.

(** * The arena: charges, deleter calls, handles held *)

Import LRUCache.

Lemma total_charge_insert m p e :
  m !! p = None → total_charge (<[p:=e]> m) = charge e + total_charge m.
Proof.
  intros. unfold total_charge.
  rewrite map_fold_insert_L; [done| |done]. intros. lia.
Qed.

Lemma total_charge_delete m p e :
  m !! p = Some e → total_charge (delete p m) = total_charge m - charge e.
Proof.
  intros He. rewrite <- (insert_delete_id m p e He) at 2.
  rewrite total_charge_insert by apply lookup_delete_eq. lia.
Qed.

Lemma total_charge_update m p e e' :
  m !! p = Some e → charge e' = charge e →
  total_charge (<[p:=e']> m) = total_charge m.
Proof.
  intros He Hc. rewrite <- insert_delete_eq.
  rewrite total_charge_insert by apply lookup_delete_eq.
  rewrite (total_charge_delete m p e He). lia.
Qed.

Lemma total_charge_empty : total_charge ∅ = 0.
Proof. done. Qed.

Lemma ncalls_app log log' p :
  ncalls (log ++ log') p = (ncalls log p + ncalls log' p)%nat.
Proof. unfold ncalls. by rewrite list.filter_app, length_app. Qed.

Lemma ncalls_one c p :
  ncalls [c] p = if decide (dc_entry c = p) then 1%nat else 0%nat.
Proof. unfold ncalls. rewrite filter_cons. by case_decide. Qed.

Lemma ncalls_zero log p : (∀ c, c ∈ log → dc_entry c ≠ p) → ncalls log p = 0%nat.
Proof.
  intros Hne. unfold ncalls. induction log as [|c log IH]; [done|].
  rewrite filter_cons. destruct (decide (dc_entry c = p)) as [Heq|_].
  - destruct (Hne c); [left|done].
  - apply IH. intros c' Hc'. apply Hne. by right.
Qed.

Lemma held_cons H q p :
  held (q :: H) p = if decide (q = p) then S (held H p) else held H p.
Proof. unfold held. rewrite filter_cons. by case_decide. Qed.

Lemma held_pos H p : p ∈ H ↔ (0 < held H p)%nat.
Proof.
  induction H as [|q H IH].
  - split; [by intros ?%elem_of_nil | unfold held; simpl; lia].
  - rewrite held_cons, elem_of_cons. case_decide; subst; [|rewrite IH]; 
      split; auto with lia.
Qed.

Lemma held_give_back_eq H p :
  p ∈ H → held H p = S (held (give_back p H) p).
Proof.
  induction H as [|q H IH]; [by intros ?%elem_of_nil|].
  intros Hp. simpl. rewrite held_cons. case_decide; [done|].
  rewrite held_cons. case_decide; [done|].
  apply IH. apply elem_of_cons in Hp as [?|?]; [congruence|done].
Qed.

Lemma held_give_back_ne H p q :
  q ≠ p → held (give_back p H) q = held H q.
Proof.
  intros Hne. induction H as [|r H IH]; [done|].
  simpl. case_decide; subst.
  - rewrite held_cons. by case_decide.
  - rewrite !held_cons. case_decide; by rewrite IH.
Qed.

Lemma give_back_subseteq H p q : q ∈ give_back p H → q ∈ H.
Proof.
  induction H as [|r H IH]; [done|]. simpl. case_decide.
  - by right.
  - intros [->|?]%elem_of_cons; [left|right; auto].
Qed.

Lemma give_back_length H p : (length (give_back p H) ≤ length H)%nat.
Proof.
  induction H as [|r H IH]; [done|]. simpl. case_decide; simpl; lia.
Qed.

Lemma held_le_length H p : (held H p ≤ length H)%nat.
Proof. apply length_filter. Qed.

(** ** What every call keeps, whoever makes it *)

Lemma evolves_refl s : evolves s s.
Proof.
  split; [done|lia| |exists []; by rewrite app_nil_r].
  intros p e' He' _. by exists e'.
Qed.

Lemma evolves_trans s1 s2 s3 : evolves s1 s2 → evolves s2 s3 → evolves s1 s3.
Proof.
  intros [C1 B1 H1 [l1 L1]] [C2 B2 H2 [l2 L2]]. split.
  - congruence.
  - lia.
  - intros p e3 He3 Hp. destruct (H2 p e3 He3) as (e2 & He2 & Hd2); [lia|].
    destruct (H1 p e2 He2 Hp) as (e1 & He1 & Hd1).
    exists e1. split; [done|]. unfold same_data in *. congruence.
  - exists (l1 ++ l2). by rewrite L2, L1, app_assoc.
Qed.

Lemma step_ok_refl s : step_ok s s.
Proof. split; [apply evolves_refl|done]. Qed.

Lemma step_ok_trans s1 s2 s3 : step_ok s1 s2 → step_ok s2 s3 → step_ok s1 s3.
Proof. intros [E1 A1] [E2 A2]. split; [by eapply evolves_trans|auto]. Qed.

(** The ring and the table do not matter to the accounts. *)
Lemma step_ok_links s s' :
  capacity_ s' = capacity_ s → usage_ s' = usage_ s → heap s' = heap s →
  brk s' = brk s → deleted s' = deleted s → step_ok s s'.
Proof.
  intros Hc Hu Hh Hb Hd. split.
  - split; [done|lia| |exists []; by rewrite app_nil_r].
    intros p e'. rewrite Hh. intros He' _. by exists e'.
  - intros [A1 A2 A3 A4]. split; unfold calls in *; rewrite ?Hu, ?Hh, ?Hb, ?Hd; done.
Qed.

Lemma step_ok_bump s p e r :
  heap s !! p = Some e →
  step_ok s (set_heap s (<[p:=set_refs e r]> (heap s))).
Proof.
  intros He. split.
  - split; simpl; [done|lia| |exists []; by rewrite app_nil_r].
    intros q e' Hq _. destruct (decide (p = q)) as [->|Hne].
    + rewrite lookup_insert_eq in Hq. simplify_eq. by exists e.
    + rewrite lookup_insert_ne in Hq by done. by exists e'.
  - intros [A1 A2 A3 A4]. split; simpl; unfold calls; simpl.
    + by rewrite (total_charge_update _ _ e).
    + intros q [Hq|Hq]%lookup_insert_is_Some'; [subst|]; apply A2; eauto.
    + intros q Hq. specialize (A3 q Hq). unfold calls in A3. rewrite A3.
      destruct (decide (p = q)) as [->|Hne].
      * by rewrite lookup_insert_eq, He.
      * by rewrite lookup_insert_ne.
    + done.
Qed.

Lemma step_ok_free s p e :
  heap s !! p = Some e →
  step_ok s (LRUCache.mk (capacity_ s) (wrap64 (usage_ s - charge e)) (lru_ s)
               (table_ s) (delete p (heap s)) (brk s)
               (deleted s ++ [mkCall p (deleter e) (key e) (value e)])).
Proof.
  intros He. split.
  - split; simpl; [done|lia| |by eexists].
    intros q e' Hq _. destruct (decide (p = q)) as [->|Hne].
    + by rewrite lookup_delete_eq in Hq.
    + rewrite lookup_delete_ne in Hq by done. by exists e'.
  - intros [A1 A2 A3 A4]. split; simpl; unfold calls; simpl.
    + rewrite (total_charge_delete _ _ e He), A1. apply wrap64_sub_l.
    + intros q [e' Hq]. destruct (decide (p = q)) as [->|Hne].
      * by rewrite lookup_delete_eq in Hq.
      * rewrite lookup_delete_ne in Hq by done. apply A2. eauto.
    + intros q Hq. rewrite ncalls_app, ncalls_one. simpl.
      specialize (A3 q Hq). unfold calls in A3. rewrite A3.
      destruct (decide (p = q)) as [->|Hne].
      * by rewrite lookup_delete_eq, He.
      * by rewrite lookup_delete_ne by done; destruct (heap s !! q).
    + intros c [Hc|Hc%list_elem_of_singleton]%elem_of_app; [by apply A4|].
      subst. simpl. apply A2. eauto.
Qed.

Lemma step_ok_alloc s l tb e c :
  charge e = c →
  step_ok s (LRUCache.mk (capacity_ s) (wrap64 (usage_ s + c)) l tb
               (<[brk s:=e]> (heap s)) (S (brk s)) (deleted s)).
Proof.
  intros Hc. split.
  - split; simpl; [done|lia| |exists []; by rewrite app_nil_r].
    intros q e' Hq Hlt. rewrite lookup_insert_ne in Hq by lia. by exists e'.
  - intros [A1 A2 A3 A4].
    assert (Hfresh : heap s !! brk s = None).
    { destruct (heap s !! brk s) eqn:Hb; [|done].
      assert (brk s < brk s)%nat by (apply A2; eauto). lia. }
    split; simpl; unfold calls; simpl.
    + rewrite total_charge_insert, A1 by done. rewrite wrap64_add_l.
      f_equal. lia.
    + intros q [Hq|Hq]%lookup_insert_is_Some'; [lia|].
      specialize (A2 q Hq). lia.
    + intros q Hq. destruct (decide (brk s = q)) as [<-|Hne].
      * rewrite lookup_insert_eq. apply ncalls_zero.
        intros c' Hc' Heq. specialize (A4 c' Hc'). lia.
      * rewrite lookup_insert_ne by done. apply A3. lia.
    + intros c' Hc'. specialize (A4 c' Hc'). lia.
Qed.

Lemma Unref_step_ok s p s' : Unref s p = Some s' → step_ok s s'.
Proof.
  unfold Unref. intros Hu.
  destruct (heap s !! p) as [e|] eqn:He; [|done]. simpl in Hu.
  repeat case_bool_decide; simplify_eq.
  - by apply step_ok_free.
  - by apply step_ok_bump.
Qed.

Lemma Lookup_step_ok s k h s' r :
  LRUCache.Lookup s k h = Some (s', r) → step_ok s s'.
Proof.
  unfold LRUCache.Lookup. intros Hl.
  destruct (HandleTable.Lookup (heap s) (table_ s) k h) as [[e|]|];
    simplify_eq/=; [|apply step_ok_refl].
  destruct (heap s !! e) as [he|] eqn:He; simplify_eq/=.
  eapply step_ok_trans; [by apply (step_ok_bump s e he)|].
  by apply step_ok_links.
Qed.

Lemma Release_step_ok s p s' : Release s p = Some s' → step_ok s s'.
Proof. apply Unref_step_ok. Qed.

Lemma Erase_step_ok s k h s' : Erase s k h = Some s' → step_ok s s'.
Proof.
  unfold Erase. intros He.
  destruct (HandleTable.Remove (heap s) (table_ s) k h) as [[tb [e|]]|];
    simplify_eq/=; [|apply step_ok_refl].
  eapply step_ok_trans; [|by eapply Unref_step_ok].
  by apply step_ok_links.
Qed.

Lemma evict_step_ok fuel s s' : evict fuel s = Some s' → step_ok s s'.
Proof.
  revert s. induction fuel as [|fuel IH]; intros s; simpl.
  - destruct (lru_ s); [|case_bool_decide]; intros; simplify_eq;
      apply step_ok_refl.
  - destruct (lru_ s) as [|old l] eqn:Hl;
      [intros; simplify_eq; apply step_ok_refl|].
    case_bool_decide; [|intros; simplify_eq; apply step_ok_refl].
    intros He.
    destruct (heap s !! old) as [h|]; simplify_eq/=.
    destruct (HandleTable.Remove (heap s) (table_ s) (key h) (hash h))
      as [r|]; simplify_eq/=.
    destruct (Unref _ old) as [s1|] eqn:Hu; simplify_eq/=.
    eapply step_ok_trans; [|by apply IH].
    eapply step_ok_trans; [|by eapply Unref_step_ok].
    by apply step_ok_links.
Qed.

Lemma Insert_step_ok s k h v c d s' p :
  LRUCache.Insert s k h v c d = Some (s', p) → step_ok s s'.
Proof.
  unfold LRUCache.Insert. intros Hi.
  destruct (HandleTable.Insert _ _ _) as [r|]; simplify_eq/=.
  match type of Hi with (?x ≫= _) = _ => destruct x as [s3|] eqn:H3 end;
    simplify_eq/=.
  destruct (evict _ s3) as [s4|] eqn:H4; simplify_eq/=.
  eapply step_ok_trans; [|by eapply evict_step_ok].
  eapply step_ok_trans; [by apply (step_ok_alloc s (LRU_Append (lru_ s) (brk s))
    (table_ s) (mkLRUHandle v d c k 2 h) c)|].
  destruct r.2 as [old|].
  - eapply step_ok_trans; [|by eapply Unref_step_ok]. by apply step_ok_links.
  - simplify_eq. by apply step_ok_links.
Qed.

(** ** Runs *)

Lemma run_none ops : foldl (λ acc o, acc ≫= step o) None ops = None.
Proof. induction ops; simpl; auto. Qed.

Lemma run_cons o ops σ : run (o :: ops) σ = step o σ ≫= run ops.
Proof.
  unfold run. simpl. destruct (step o σ); simpl; [done|apply run_none].
Qed.

Lemma step_step_ok o σ σ' : step o σ = Some σ' → step_ok σ.1 σ'.1.
Proof.
  destruct σ as [s H], o; simpl; intros Hs.
  - case_bool_decide; [|done].
    destruct (LRUCache.Insert s k h v c d) as [[s1 p]|] eqn:Hi; simplify_eq/=.
    by eapply Insert_step_ok.
  - destruct (LRUCache.Lookup s k h) as [[s1 r]|] eqn:Hl; simplify_eq/=.
    by eapply Lookup_step_ok.
  - case_bool_decide; [|done].
    destruct (Release s handle) as [s1|] eqn:Hr; simplify_eq/=.
    by eapply Release_step_ok.
  - destruct (Erase s k h) as [s1|] eqn:He; simplify_eq/=.
    by eapply Erase_step_ok.
Qed.

Lemma run_step_ok ops σ σ' : run ops σ = Some σ' → step_ok σ.1 σ'.1.
Proof.
  revert σ. induction ops as [|o ops IH]; intros σ.
  - intros [= <-]. apply step_ok_refl.
  - rewrite run_cons. destruct (step o σ) as [σ1|] eqn:Hs; [|done]. simpl.
    intros Hr. eapply step_ok_trans; [by eapply step_step_ok|by apply IH].
Qed.

Lemma accounted_fresh c : accounted (fresh c).1.
Proof.
  split; simpl; unfold calls; simpl; try done.
  - intros p [e He]. by rewrite lookup_empty in He.
  - intros p Hp. lia.
  - intros x Hx. by apply elem_of_nil in Hx.
Qed.

(** * One shard and its client *)

Lemma shard_inv_perm M M' s H :
  M ≡ₚ M' → shard_inv M s H → shard_inv M' s H.
Proof.
  intros HM [I1 I2 I3 I4 I5 I6]. split; try done.
  - by rewrite <- HM.
  - by rewrite <- HM.
  - intros p Hp. apply I3. by rewrite HM.
  - intros p e He. rewrite (I5 p e He).
    by rewrite (bool_decide_ext (p ∈ M) (p ∈ M')) by (by rewrite HM).
Qed.

Lemma shard_inv_links M s s' H :
  lru_ s' = lru_ s → heap s' = heap s → shard_inv M s H → shard_inv M s' H.
Proof.
  intros Hl Hh [I1 I2 I3 I4 I5 I6]. split; rewrite ?Hl, ?Hh; done.
Qed.

Lemma Unref_dropped s p e :
  heap s !! p = Some e → 0 < refs e < 2 ^ 32 →
  Unref s p = Some (dropped s p e).
Proof.
  intros He Hr. unfold Unref, dropped. rewrite He. simpl.
  rewrite bool_decide_true by lia. rewrite wrap32_small by lia.
  destruct (decide (refs e = 1));
    [rewrite !bool_decide_true by lia|rewrite !bool_decide_false by lia]; done.
Qed.

Lemma dropped_lru s p e : lru_ (dropped s p e) = lru_ s.
Proof. unfold dropped. by case_bool_decide. Qed.

Lemma dropped_table s p e : table_ (dropped s p e) = table_ s.
Proof. unfold dropped. by case_bool_decide. Qed.

Lemma dropped_capacity s p e : capacity_ (dropped s p e) = capacity_ s.
Proof. unfold dropped. by case_bool_decide. Qed.

Lemma dropped_brk s p e : brk (dropped s p e) = brk s.
Proof. unfold dropped. by case_bool_decide. Qed.

Lemma dropped_usage s p e :
  usage_ (dropped s p e) =
  if bool_decide (refs e = 1) then wrap64 (usage_ s - charge e) else usage_ s.
Proof. unfold dropped. by case_bool_decide. Qed.

Lemma dropped_heap s p e :
  heap (dropped s p e) =
  if bool_decide (refs e = 1) then delete p (heap s)
  else <[p:=set_refs e (refs e - 1)]> (heap s).
Proof. unfold dropped. by case_bool_decide. Qed.

Lemma dropped_deleted s p e :
  deleted (dropped s p e) =
  if bool_decide (refs e = 1)
  then deleted s ++ [mkCall p (deleter e) (key e) (value e)]
  else deleted s.
Proof. unfold dropped. by case_bool_decide. Qed.

Lemma dropped_lookup_ne s p e q :
  q ≠ p → heap (dropped s p e) !! q = heap s !! q.
Proof.
  intros. rewrite dropped_heap. case_bool_decide.
  - by rewrite lookup_delete_ne.
  - by rewrite lookup_insert_ne.
Qed.

Lemma dropped_lookup_eq s p e :
  heap (dropped s p e) !! p =
  if bool_decide (refs e = 1) then None else Some (set_refs e (refs e - 1)).
Proof.
  rewrite dropped_heap. case_bool_decide.
  - by rewrite lookup_delete_eq.
  - by rewrite lookup_insert_eq.
Qed.

Lemma dropped_lookup_one s p e :
  refs e = 1 → heap (dropped s p e) !! p = None.
Proof. intros. by rewrite dropped_lookup_eq, bool_decide_true. Qed.

Lemma dropped_lookup_more s p e :
  refs e ≠ 1 → heap (dropped s p e) !! p = Some (set_refs e (refs e - 1)).
Proof. intros. by rewrite dropped_lookup_eq, bool_decide_false. Qed.

Lemma shard_inv_dropped M M' s s0 H H' p e :
  shard_inv M s H → heap s0 = heap s → heap s !! p = Some e →
  lru_ s0 ≡ₚ M' → NoDup M' →
  (∀ q, q ∈ M' → q ∈ M) → (∀ q, q ∈ H' → q ∈ H) →
  (∀ q, q ≠ p → (q ∈ M → q ∈ M') ∧ held H' q = held H q) →
  Z.of_nat (held H' p) + (if bool_decide (p ∈ M') then 1 else 0) =
    Z.of_nat (held H p) + (if bool_decide (p ∈ M) then 1 else 0) - 1 →
  shard_inv M' (dropped s0 p e) H'.
Proof.
  intros [I1 I2 I3 I4 I5 I6] Hheap He Hring Hnd HM HH Hother Hcount.
  pose proof (I5 p e He) as Hrefs.
  pose proof (I6 p e He) as Htyped.
  assert (Hgone : refs e = 1 → (p ∉ M') ∧ (p ∉ H')).
  { intros H1. split.
    - intros Hin. rewrite (bool_decide_true (p ∈ M')) in Hcount by done. lia.
    - intros Hin%held_pos. destruct (bool_decide (p ∈ M')); lia. }
  assert (Hrest : ∀ q e', q ≠ p → heap s !! q = Some e' →
    refs e' = Z.of_nat (held H' q) + (if bool_decide (q ∈ M') then 1 else 0)).
  { intros q e' Hne Hq. rewrite (I5 q e' Hq).
    destruct (Hother q Hne) as [Hin ->].
    by rewrite (bool_decide_ext (q ∈ M) (q ∈ M')) by (split; auto). }
  split.
  - by rewrite dropped_lru.
  - done.
  - intros q Hq. destruct (decide (q = p)) as [->|Hne].
    + destruct (decide (refs e = 1)) as [Hone|Hmore].
      * by destruct (Hgone Hone).
      * rewrite dropped_lookup_more by done. eauto.
    + rewrite dropped_lookup_ne, Hheap by done. auto.
  - intros q Hq. destruct (decide (q = p)) as [->|Hne].
    + destruct (decide (refs e = 1)) as [Hone|Hmore].
      * by destruct (Hgone Hone).
      * rewrite dropped_lookup_more by done. eauto.
    + rewrite dropped_lookup_ne, Hheap by done. auto.
  - intros q e' Hq. destruct (decide (q = p)) as [->|Hne].
    + destruct (decide (refs e = 1)) as [Hone|Hmore].
      * by rewrite dropped_lookup_one in Hq.
      * rewrite dropped_lookup_more in Hq by done. simplify_eq. simpl. lia.
    + rewrite dropped_lookup_ne, Hheap in Hq by done. auto.
  - intros q e' Hq. destruct (decide (q = p)) as [->|Hne].
    + destruct (decide (refs e = 1)) as [Hone|Hmore].
      * by rewrite dropped_lookup_one in Hq.
      * rewrite dropped_lookup_more in Hq by done. simplify_eq. simpl. lia.
    + rewrite dropped_lookup_ne, Hheap in Hq by done. eauto.
Qed.

Lemma table_ok_dropped s s0 tb p e :
  table_ok (heap s) tb → heap s0 = heap s → heap s !! p = Some e →
  (refs e = 1 → p ∉ members tb) →
  table_ok (heap (dropped s0 p e)) tb.
Proof.
  intros Hok Hheap He Hgone. eapply table_ok_arena; [done|].
  intros q e' Hq He'. destruct (decide (q = p)) as [->|Hne].
  - destruct (decide (refs e = 1)) as [Hone|Hmore]; [by destruct (Hgone Hone)|].
    rewrite dropped_lookup_more by done. simplify_eq. eauto.
  - rewrite dropped_lookup_ne, Hheap by done. eauto.
Qed.

Lemma accounted_dropped s s0 p e :
  accounted s → heap s !! p = Some e → 0 < refs e < 2 ^ 32 →
  capacity_ s0 = capacity_ s → usage_ s0 = usage_ s → heap s0 = heap s →
  brk s0 = brk s → deleted s0 = deleted s →
  accounted (dropped s0 p e).
Proof.
  intros Hacc He Hr ?????.
  apply (Unref_step_ok s0 p).
  - apply Unref_dropped; [congruence|done].
  - by apply (step_ok_links s s0).
Qed.

Lemma filter_ne_id (M : list ptr) p :
  p ∉ M → filter (λ x, x ≠ p) M = M.
Proof.
  induction M as [|q M IH]; [done|].
  intros [Hne Hp]%not_elem_of_cons.
  rewrite filter_cons_True by done. by rewrite IH.
Qed.

Lemma filter_ne_perm (l M' : list ptr) p :
  l ≡ₚ p :: M' → p ∉ M' → filter (λ x, x ≠ p) l ≡ₚ M'.
Proof.
  intros Hl Hp. rewrite Hl. rewrite filter_cons_False by (intros ?; done).
  by rewrite filter_ne_id.
Qed.

Lemma nodup_bounded_length (l : list ptr) n :
  NoDup l → (∀ x, x ∈ l → (x < n)%nat) → (length l ≤ n)%nat.
Proof.
  intros Hnd Hlt. trans (length (seq 0 n)); [|by rewrite length_seq].
  apply submseteq_length, NoDup_submseteq; [done|].
  intros x Hx. apply elem_of_seq. specialize (Hlt x Hx). lia.
Qed.

(** ** Retiring a handle: out of the ring and the table, one reference less *)

Lemma retire_spec s H p e :
  shard_ok s H → p ∈ members (table_ s) → heap s !! p = Some e →
  ∃ tb',
    HandleTable.Remove (heap s) (table_ s) (key e) (hash e) = Some (tb', Some p) ∧
    Unref (set_table (set_lru s (LRU_Remove (lru_ s) p)) tb') p =
      Some (retired s p e tb') ∧
    shard_ok (retired s p e tb') H ∧
    members (table_ s) ≡ₚ p :: members tb'.
Proof.
  intros (Hok & Hinv & Hacc) Hp He.
  destruct (Remove_spec (heap s) (table_ s) (key e) (hash e) Hok)
    as (tb' & r & HR & Hfinds & Hperm & Hok').
  assert (r = Some p) as ->.
  { eapply finds_unique; eauto. apply Hok. }
  simpl in Hperm.
  pose proof (si_typed _ _ _ Hinv p e He) as Htyped.
  pose proof (tok_nodup _ _ Hok) as Hnd. rewrite Hperm in Hnd.
  apply list.NoDup_cons in Hnd as [Hnotin Hnd].
  exists tb'. split; [done|]. split.
  { apply Unref_dropped; [done|lia]. }
  split; [|done]. unfold retired. split; [|split].
  - rewrite dropped_table. simpl. by apply (table_ok_dropped s).
  - rewrite dropped_table. simpl.
    eapply (shard_inv_dropped (members (table_ s)) (members tb') s); eauto.
    + simpl. apply filter_ne_perm; [|done]. by rewrite (si_ring _ _ _ Hinv).
    + intros q Hq. rewrite Hperm. by right.
    + intros q Hne. split; [|done]. rewrite Hperm.
      intros [?|?]%elem_of_cons; done.
    + rewrite bool_decide_false, bool_decide_true by done. lia.
  - apply (accounted_dropped s); try done. lia.
Qed.

Lemma Erase_spec s H k h :
  shard_ok s H →
  ∃ s' r, Erase s k h = Some s' ∧
    finds (heap s) (members (table_ s)) k h r ∧
    shard_ok s' H ∧
    match r with
    | Some p => ∃ e tb', heap s !! p = Some e ∧ s' = retired s p e tb' ∧
                  members (table_ s) ≡ₚ p :: members tb'
    | None => s' = s
    end.
Proof.
  intros Hs. pose proof Hs as (Hok & Hinv & Hacc).
  destruct (Remove_spec (heap s) (table_ s) k h Hok)
    as (tb' & r & HR & Hfinds & Hperm & Hok').
  unfold Erase. rewrite HR. simpl. destruct r as [p|]; [|by eauto 10].
  destruct Hfinds as (Hp & e & He & <- & <-).
  destruct (retire_spec s H p e Hs Hp He) as (tb'' & HR' & HU & Hs' & Hperm').
  simplify_eq. exists (retired s p e tb'), (Some p).
  split; [done|]. split; [by split; eauto|]. split; [done|]. eauto.
Qed.

Lemma Release_spec s H p :
  shard_ok s H → p ∈ H →
  ∃ e, heap s !! p = Some e ∧ Release s p = Some (dropped s p e) ∧
    shard_ok (dropped s p e) (give_back p H).
Proof.
  intros (Hok & Hinv & Hacc) Hp.
  destruct (si_held _ _ _ Hinv p Hp) as [e He].
  pose proof (si_typed _ _ _ Hinv p e He) as Htyped.
  pose proof (si_refs _ _ _ Hinv p e He) as Hrefs.
  pose proof (held_give_back_eq H p Hp) as Hheld.
  exists e. split; [done|]. split.
  { apply Unref_dropped; [done|lia]. }
  split; [|split].
  - rewrite dropped_table. apply (table_ok_dropped s); try done.
    intros Hone Hin. rewrite bool_decide_true in Hrefs by done. lia.
  - rewrite dropped_table.
    eapply (shard_inv_dropped (members (table_ s)) _ s); eauto.
    + apply Hinv.
    + apply Hinv.
    + intros q. apply give_back_subseteq.
    + intros q Hne. split; [done|]. by apply held_give_back_ne.
    + lia.
  - apply (accounted_dropped s); try done. lia.
Qed.

Lemma move_to_end_perm (l : list ptr) p :
  NoDup l → p ∈ l → filter (λ x, x ≠ p) l ++ [p] ≡ₚ l.
Proof.
  induction l as [|x l IH]; [by intros _ ?%elem_of_nil|].
  intros [Hx Hnd]%list.NoDup_cons Hp.
  destruct (decide (x = p)) as [->|Hne].
  - rewrite filter_cons_False by (intros ?; done).
    rewrite filter_ne_id by done. by rewrite <- Permutation_cons_append.
  - rewrite filter_cons_True by done. simpl. f_equiv. apply IH; [done|].
    apply elem_of_cons in Hp as [?|?]; [congruence|done].
Qed.

Lemma Lookup_ok s H k h :
  shard_ok s H → Z.of_nat (length H) < 2 ^ 32 - 2 →
  ∃ s' r, LRUCache.Lookup s k h = Some (s', r) ∧
    finds (heap s) (members (table_ s)) k h r ∧
    shard_ok s' (option_list r ++ H) ∧
    match r with
    | Some p => ∃ e, heap s !! p = Some e ∧ s' = touched s p e
    | None => s' = s
    end.
Proof.
  intros Hs Hbound. pose proof Hs as (Hok & Hinv & Hacc).
  destruct (Lookup_spec (heap s) (table_ s) k h Hok) as (r & HL & Hfinds).
  unfold LRUCache.Lookup. rewrite HL. simpl.
  destruct r as [p|]; [|by eauto 10].
  pose proof Hfinds as (Hp & e & He & _).
  rewrite He. simpl. eexists _, (Some p). split; [done|]. split; [done|].
  split; [|by eauto].
  pose proof (si_typed _ _ _ Hinv p e He) as Htyped.
  pose proof (si_refs _ _ _ Hinv p e He) as Hrefs.
  pose proof (held_le_length H p).
  rewrite bool_decide_true in Hrefs by done.
  rewrite wrap32_small by lia.
  destruct Hinv as [I1 I2 I3 I4 I5 I6].
  split; [|split]; simpl.
  - eapply table_ok_arena; [done|]. intros q e' Hq He'.
    destruct (decide (p = q)) as [->|Hne].
    + rewrite lookup_insert_eq. simplify_eq. eauto.
    + rewrite lookup_insert_ne by done. eauto.
  - split; simpl.
    + unfold LRU_Append, LRU_Remove. rewrite <- I1.
      apply move_to_end_perm; rewrite I1; done.
    + done.
    + intros q Hq. apply lookup_insert_is_Some'. auto.
    + intros q [->|Hq]%elem_of_cons; apply lookup_insert_is_Some'; auto.
    + intros q e' Hq. rewrite held_cons.
      destruct (decide (p = q)) as [->|Hne].
      * rewrite lookup_insert_eq in Hq. simplify_eq. simpl.
        rewrite bool_decide_true by done. lia.
      * rewrite lookup_insert_ne in Hq by done. by apply I5.
    + intros q e' Hq. destruct (decide (p = q)) as [->|Hne].
      * rewrite lookup_insert_eq in Hq. simplify_eq. simpl. lia.
      * rewrite lookup_insert_ne in Hq by done. eauto.
  - eapply (step_ok_trans s); [by apply (step_ok_bump s p e)| |done].
    by apply step_ok_links.
Qed.

(** ** Insert: allocation, the table, the eviction loop *)

Lemma Insert_unfold s k h v c d :
  LRUCache.Insert s k h v c d =
  (r ← HandleTable.Insert (heap (allocated s k h v c d)) (table_ s) (brk s);
   s3 ← match r.2 with
        | Some old =>
            Unref (set_lru (set_table (allocated s k h v c d) r.1)
                     (LRU_Remove (lru_ (allocated s k h v c d)) old)) old
        | None => Some (set_table (allocated s k h v c d) r.1)
        end;
   s4 ← evict (length (lru_ s3)) s3;
   Some (s4, brk s)).
Proof. reflexivity. Qed.

Lemma fresh_brk s : accounted s → heap s !! brk s = None.
Proof.
  intros Hacc. destruct (heap s !! brk s) eqn:Hb; [|done].
  assert (brk s < brk s)%nat by (apply Hacc; eauto). lia.
Qed.

Lemma alloc_inv s H k h v c d :
  shard_ok s H → 0 ≤ h < 2 ^ 32 → 0 ≤ c < 2 ^ 64 →
  shard_inv (brk s :: members (table_ s)) (allocated s k h v c d) (brk s :: H) ∧
  table_ok (heap (allocated s k h v c d)) (table_ s) ∧
  accounted (allocated s k h v c d) ∧
  (brk s ∉ members (table_ s)) ∧ (brk s ∉ H).
Proof.
  intros (Hok & [I1 I2 I3 I4 I5 I6] & Hacc) Hh Hc.
  pose proof (fresh_brk s Hacc) as Hfresh.
  assert (HnM : brk s ∉ members (table_ s)).
  { intros [e He]%I3. congruence. }
  assert (HnH : brk s ∉ H).
  { intros [e He]%I4. congruence. }
  split; [|split; [|split; [|done]]].
  - split; simpl.
    + unfold LRU_Append. rewrite I1. by rewrite <- Permutation_cons_append.
    + by apply NoDup_cons_2.
    + intros q [->|Hq]%elem_of_cons; apply lookup_insert_is_Some'; auto.
    + intros q [->|Hq]%elem_of_cons; apply lookup_insert_is_Some'; auto.
    + intros q e' Hq. rewrite held_cons.
      destruct (decide (brk s = q)) as [<-|Hne].
      * rewrite lookup_insert_eq in Hq. simplify_eq. simpl.
        rewrite bool_decide_true by left.
        rewrite held_pos in HnH. lia.
      * rewrite lookup_insert_ne in Hq by done. rewrite (I5 q e' Hq).
        rewrite (bool_decide_ext (q ∈ brk s :: members (table_ s))
                   (q ∈ members (table_ s))); [done|].
        rewrite elem_of_cons. split; [|by right].
        intros [?|?]; [congruence|done].
    + intros q e' Hq. destruct (decide (brk s = q)) as [<-|Hne].
      * rewrite lookup_insert_eq in Hq. simplify_eq. simpl. lia.
      * rewrite lookup_insert_ne in Hq by done. eauto.
  - simpl. eapply table_ok_arena; [done|]. intros q e' Hq He'.
    rewrite lookup_insert_ne by (intros <-; done). eauto.
  - by apply (step_ok_alloc s _ _ (mkLRUHandle v d c k 2 h) c).
Qed.

Lemma Insert_pre s H k h v c d :
  shard_ok s H → Z.of_nat (brk s) < 2 ^ 31 →
  0 ≤ h < 2 ^ 32 → 0 ≤ c < 2 ^ 64 →
  let s1 := allocated s k h v c d in
  ∃ tb' old s3,
    HandleTable.Insert (heap s1) (table_ s) (brk s) = Some (tb', old) ∧
    finds (heap s) (members (table_ s)) k h old ∧
    brk s :: members (table_ s) ≡ₚ option_list old ++ members tb' ∧
    match old with
    | Some o => ∃ eo, heap s !! o = Some eo ∧
        s3 = dropped (set_lru (set_table s1 tb') (LRU_Remove (lru_ s1) o)) o eo
    | None => s3 = set_table s1 tb'
    end ∧
    shard_ok s3 (brk s :: H).
Proof.
  intros Hs Hbrk Hh Hc s1. pose proof Hs as (Hok & Hinv & Hacc).
  destruct (alloc_inv s H k h v c d Hs Hh Hc)
    as (Hinv1 & Hok1 & Hacc1 & HnM & HnH).
  fold s1 in Hinv1, Hok1, Hacc1.
  assert (He1 : heap s1 !! brk s = Some (mkLRUHandle v d c k 2 h)).
  { simpl. apply lookup_insert_eq. }
  destruct (Insert_spec (heap s1) (table_ s) (brk s) _ Hok1 He1 HnM)
    as (tb' & old & HI & Hfinds & Hperm & Hok').
  { pose proof (nodup_bounded_length (members (table_ s)) (brk s)
      (tok_nodup _ _ Hok)) as Hlen.
    assert (length (members (table_ s)) ≤ brk s)%nat; [|lia].
    apply Hlen. intros q Hq. apply Hacc. by apply (si_live _ _ _ Hinv). }
  simpl in Hfinds.
  assert (Hold : ∀ q, q ∈ members (table_ s) → heap s1 !! q = heap s !! q).
  { intros q Hq. simpl. apply lookup_insert_ne. intros <-. done. }
  assert (Hfinds' : finds (heap s) (members (table_ s)) k h old).
  { destruct old as [o|]; simpl in *.
    - destruct Hfinds as (Ho & eo & Heo & ? & ?). rewrite Hold in Heo by done.
      eauto.
    - intros q e' Hq He'. apply (Hfinds q e' Hq). by rewrite Hold. }
  exists tb', old. destruct old as [o|]; simpl in Hperm.
  - destruct Hfinds' as (Ho & eo & Heo & Hko & Hho).
    assert (Heo1 : heap s1 !! o = Some eo) by by rewrite Hold.
    eexists. split; [done|]. split; [by split; eauto|]. split; [done|].
    split; [by eauto|].
    assert (Hnd : NoDup (o :: members tb')).
    { rewrite <- Hperm. apply Hinv1. }
    apply list.NoDup_cons in Hnd as [Hno Hnd].
    assert (Hne : o ≠ brk s) by (intros ->; done).
    pose proof (si_typed _ _ _ Hinv1 o eo Heo1) as Htyped.
    split; [|split].
    + rewrite dropped_table. simpl. by apply (table_ok_dropped s1).
    + rewrite dropped_table. simpl.
      eapply (shard_inv_dropped (brk s :: members (table_ s)) (members tb') s1);
        eauto.
      * pose proof (si_ring _ _ _ Hinv1) as Hr1. simpl in Hr1.
        simpl. apply filter_ne_perm; [|done]. by rewrite Hr1.
      * intros q Hq. rewrite Hperm. by right.
      * intros q Hq. split; [|done]. rewrite Hperm.
        intros [?|?]%elem_of_cons; done.
      * rewrite bool_decide_false by done.
        rewrite bool_decide_true by (by right). lia.
    + apply (accounted_dropped s1); try done. lia.
  - eexists. split; [done|]. split; [done|]. split; [done|].
    split; [reflexivity|]. split; [done|].
    split; [|by apply (step_ok_links s1)]. simpl.
    eapply shard_inv_perm; [exact Hperm|].
    by apply (shard_inv_links _ s1).
Qed.

Lemma evict_halt fuel s :
  lru_ s = [] ∨ usage_ s ≤ capacity_ s → evict fuel s = Some s.
Proof.
  intros Hstop. destruct fuel; simpl; destruct (lru_ s) eqn:Hl; try done;
    (destruct Hstop; [done|]); by rewrite bool_decide_false by lia.
Qed.

Lemma evict_round s H old l :
  shard_ok s H → lru_ s = old :: l →
  ∃ e tb', heap s !! old = Some e ∧
    (∀ fuel, usage_ s > capacity_ s →
       evict (S fuel) s = evict fuel (retired s old e tb')) ∧
    shard_ok (retired s old e tb') H ∧
    lru_ (retired s old e tb') = l ∧
    members (table_ s) ≡ₚ old :: members tb'.
Proof.
  intros Hs Hl. pose proof Hs as (Hok & Hinv & Hacc).
  assert (Hin : old ∈ members (table_ s)).
  { rewrite <- (si_ring _ _ _ Hinv), Hl. left. }
  destruct (si_live _ _ _ Hinv old Hin) as [e He].
  destruct (retire_spec s H old e Hs Hin He) as (tb' & HR & HU & Hs' & Hperm).
  exists e, tb'. split; [done|]. split; [|split; [done|split; [|done]]].
  - intros fuel Hover. simpl. rewrite Hl. rewrite bool_decide_true by done.
    rewrite He. simpl. rewrite HR. simpl. rewrite <- Hl, HU. done.
  - unfold retired. rewrite dropped_lru. simpl. rewrite Hl.
    unfold LRU_Remove. rewrite filter_cons_False by (intros ?; done).
    apply filter_ne_id.
    assert (Hnd : NoDup (old :: l)).
    { rewrite <- Hl, (si_ring _ _ _ Hinv). apply Hinv. }
    by apply list.NoDup_cons in Hnd as [? _].
Qed.

Lemma evict_ok fuel s H :
  shard_ok s H → (length (lru_ s) ≤ fuel)%nat →
  ∃ s', evict fuel s = Some s' ∧ shard_ok s' H ∧
    (lru_ s' = [] ∨ usage_ s' ≤ capacity_ s') ∧
    (∃ j, lru_ s' = drop j (lru_ s)).
Proof.
  revert s. induction fuel as [|fuel IH]; intros s Hs Hlen.
  - destruct (lru_ s) eqn:Hl; [|simpl in Hlen; lia].
    exists s. rewrite evict_halt by auto. rewrite Hl.
    split; [done|]. split; [done|]. split; [auto|]. by exists 0%nat.
  - destruct (decide (lru_ s = [] ∨ usage_ s ≤ capacity_ s)) as [Hstop|Hgo].
    + exists s. rewrite evict_halt by done.
      split; [done|]. split; [done|]. split; [done|]. by exists 0%nat.
    + destruct (lru_ s) as [|old l] eqn:Hl; [destruct Hgo; auto|].
      destruct (evict_round s H old l Hs Hl)
        as (e & tb' & He & Hstep & Hs' & Hl' & Hperm).
      rewrite Hstep by lia.
      destruct (IH _ Hs') as (s' & -> & Hs'' & Hdone & j & Hj).
      { rewrite Hl'. simpl in Hlen. lia. }
      exists s'. split; [done|]. split; [done|]. split; [done|].
      exists (S j). by rewrite Hj, Hl'.
Qed.

Lemma Insert_ok s H k h v c d :
  shard_ok s H → Z.of_nat (brk s) < 2 ^ 31 →
  0 ≤ h < 2 ^ 32 → 0 ≤ c < 2 ^ 64 →
  ∃ s', LRUCache.Insert s k h v c d = Some (s', brk s) ∧
    shard_ok s' (brk s :: H).
Proof.
  intros Hs Hbrk Hh Hc.
  destruct (Insert_pre s H k h v c d Hs Hbrk Hh Hc)
    as (tb' & old & s3 & HI & Hfinds & Hperm & Hs3 & Hok3).
  destruct (evict_ok (length (lru_ s3)) s3 _ Hok3 (le_n _))
    as (s' & He & Hs' & _).
  exists s'. split; [|done].
  rewrite Insert_unfold, HI, bind_Some. cbv beta. cbn [fst snd].
  destruct old as [o|].
  - destruct Hs3 as (eo & Heo & ->).
    pose proof Hs as (_ & Hinv & _).
    rewrite Unref_dropped with (e := eo).
    + by rewrite bind_Some, He.
    + simpl. rewrite lookup_insert_ne; [done|].
      intros <-. pose proof (fresh_brk s (proj2 (proj2 Hs))). congruence.
    + pose proof (si_typed _ _ _ Hinv o eo Heo). lia.
  - subst s3. by rewrite bind_Some, He.
Qed.

(** ** The address counter *)

Lemma Unref_brk s p s' : Unref s p = Some s' → brk s' = brk s.
Proof.
  unfold Unref. intros Hu.
  destruct (heap s !! p) as [e|]; [|done]. simpl in Hu.
  repeat case_bool_decide; by simplify_eq.
Qed.

Lemma evict_brk fuel s s' : evict fuel s = Some s' → brk s' = brk s.
Proof.
  revert s. induction fuel as [|fuel IH]; intros s; simpl.
  - destruct (lru_ s); [|case_bool_decide]; intros; by simplify_eq.
  - destruct (lru_ s) as [|old l]; [intros; by simplify_eq|].
    case_bool_decide; [|intros; by simplify_eq].
    intros He.
    destruct (heap s !! old) as [h|]; simplify_eq/=.
    destruct (HandleTable.Remove (heap s) (table_ s) (key h) (hash h))
      as [r|]; simplify_eq/=.
    destruct (Unref _ old) as [s1|] eqn:Hu; simplify_eq/=.
    rewrite (IH _ He). by rewrite (Unref_brk _ _ _ Hu).
Qed.

Lemma Insert_brk s k h v c d s' p :
  LRUCache.Insert s k h v c d = Some (s', p) → p = brk s ∧ brk s' = S (brk s).
Proof.
  unfold LRUCache.Insert. intros Hi.
  destruct (HandleTable.Insert _ _ _) as [r|]; simplify_eq/=.
  match type of Hi with (?x ≫= _) = _ => destruct x as [s3|] eqn:H3 end;
    simplify_eq/=.
  destruct (evict _ s3) as [s4|] eqn:H4; simplify_eq/=.
  split; [done|]. rewrite (evict_brk _ _ _ H4).
  destruct r.2 as [old|]; [|by simplify_eq].
  by rewrite (Unref_brk _ _ _ H3).
Qed.

Lemma Erase_brk s k h s' : Erase s k h = Some s' → brk s' = brk s.
Proof.
  unfold Erase. intros He.
  destruct (HandleTable.Remove _ _ _ _) as [[tb [e|]]|]; simplify_eq/=;
    [|done].
  by rewrite (Unref_brk _ _ _ He).
Qed.

Lemma step_brk o σ σ' :
  step o σ = Some σ' →
  (brk σ'.1 ≤ S (brk σ.1))%nat ∧ (length σ'.2 ≤ S (length σ.2))%nat.
Proof.
  destruct σ as [s H], o; simpl; intros Hs.
  - case_bool_decide; [|done].
    destruct (LRUCache.Insert s k h v c d) as [[s1 p]|] eqn:Hi; simplify_eq/=.
    apply Insert_brk in Hi as [_ ->]. lia.
  - unfold LRUCache.Lookup in Hs.
    destruct (HandleTable.Lookup _ _ _ _) as [[e|]|]; simplify_eq/=; [|lia].
    destruct (heap s !! e); simplify_eq/=. lia.
  - case_bool_decide; [|done].
    destruct (Release s handle) as [s1|] eqn:Hr; simplify_eq/=.
    rewrite (Unref_brk _ _ _ Hr). pose proof (give_back_length H handle). lia.
  - destruct (Erase s k h) as [s1|] eqn:He; simplify_eq/=.
    rewrite (Erase_brk _ _ _ _ He). lia.
Qed.

(** ** Every call of a client keeps the shard well formed *)

Lemma shard_ok_fresh c : shard_ok (fresh c).1 (fresh c).2.
Proof.
  split; [apply table_ok_init|]. split; [|apply accounted_fresh].
  split; simpl; try done.
  - constructor.
  - intros p Hp. by apply elem_of_nil in Hp.
  - intros p Hp. by apply elem_of_nil in Hp.
Qed.

Lemma step_shard_ok o s H σ' :
  shard_ok s H →
  Z.of_nat (brk s) < 2 ^ 31 → Z.of_nat (length H) < 2 ^ 31 →
  step o (s, H) = Some σ' → shard_ok σ'.1 σ'.2.
Proof.
  intros Hs Hb HH. destruct o; simpl.
  - case_bool_decide as Hty; [|done]. destruct Hty as [Hh Hc].
    destruct (Insert_ok s H k h v c d Hs Hb Hh Hc) as (s' & -> & Hs').
    simpl. by intros [= <-].
  - destruct (Lookup_ok s H k h Hs) as (s' & r & -> & _ & Hs' & _); [lia|].
    simpl. intros [= <-]. by destruct r.
  - case_bool_decide as Hp; [|done].
    destruct (Release_spec s H handle Hs Hp) as (e & _ & -> & Hs').
    simpl. by intros [= <-].
  - destruct (Erase_spec s H k h Hs) as (s' & r & -> & _ & Hs' & _).
    simpl. by intros [= <-].
Qed.

Lemma run_shard_ok ops σ σ' :
  shard_ok σ.1 σ.2 →
  Z.of_nat (brk σ.1) + Z.of_nat (length ops) ≤ 2 ^ 31 →
  Z.of_nat (length σ.2) + Z.of_nat (length ops) ≤ 2 ^ 31 →
  run ops σ = Some σ' →
  shard_ok σ'.1 σ'.2 ∧
  Z.of_nat (brk σ'.1) ≤ Z.of_nat (brk σ.1) + Z.of_nat (length ops) ∧
  Z.of_nat (length σ'.2) ≤ Z.of_nat (length σ.2) + Z.of_nat (length ops).
Proof.
  revert σ. induction ops as [|o ops IH]; intros [s H] Hs Hb HH.
  - intros [= <-]. simpl in *. split; [done|lia].
  - simpl in Hs, Hb, HH. rewrite run_cons.
    destruct (step o (s, H)) as [σ1|] eqn:Hstep; [|done]. simpl.
    intros Hrun.
    pose proof (step_brk _ _ _ Hstep) as [Hb1 HH1]. simpl in Hb1, HH1.
    destruct (IH σ1) as (Hs' & Hb' & HH'); try done; try lia.
    + eapply step_shard_ok; eauto; lia.
    + split; [done|]. simpl length. lia.
Qed.

Lemma run_fresh_ok ops c s H :
  Z.of_nat (length ops) ≤ 2 ^ 31 →
  run ops (fresh c) = Some (s, H) →
  shard_ok s H ∧ Z.of_nat (brk s) ≤ Z.of_nat (length ops) ∧
  Z.of_nat (length H) ≤ Z.of_nat (length ops).
Proof.
  intros Hlen Hrun.
  pose proof (run_shard_ok ops (fresh c) (s, H) (shard_ok_fresh c)) as Hok.
  simpl in Hok. destruct Hok as (Hs & Hb & HH); [lia..|done|].
  split; [done|lia].
Qed.

(** ** What the eviction loop leaves *)

Lemma total_charge_nonneg m :
  (∀ q e, m !! q = Some e → 0 ≤ charge e) → 0 ≤ total_charge m.
Proof.
  unfold total_charge.
  apply (map_fold_weak_ind (λ r m,
    (∀ q e, m !! q = Some e → 0 ≤ charge e) → 0 ≤ r)); [done|].
  intros q e m' r Hq IH Hpos.
  assert (0 ≤ charge e) by (apply (Hpos q); apply lookup_insert_eq).
  assert (0 ≤ r); [|lia].
  apply IH. intros q' e' Hq'. apply (Hpos q').
  rewrite lookup_insert_ne; [done|]. intros <-. congruence.
Qed.

Lemma total_charge_ge m p e :
  (∀ q e', m !! q = Some e' → 0 ≤ charge e') → m !! p = Some e →
  charge e ≤ total_charge m.
Proof.
  intros Hpos He. rewrite <- (insert_delete_id m p e He).
  rewrite total_charge_insert by apply lookup_delete_eq.
  assert (0 ≤ total_charge (delete p m)); [|lia].
  apply total_charge_nonneg. intros q e' Hq. apply (Hpos q).
  destruct (decide (p = q)) as [->|Hne].
  - by rewrite lookup_delete_eq in Hq.
  - by rewrite lookup_delete_ne in Hq.
Qed.

Lemma total_charge_dropped s p e :
  heap s !! p = Some e → 0 ≤ charge e →
  total_charge (heap (dropped s p e)) ≤ total_charge (heap s).
Proof.
  intros He Hc. rewrite dropped_heap. case_bool_decide.
  - rewrite (total_charge_delete _ _ e He). lia.
  - by rewrite (total_charge_update _ _ e).
Qed.

Lemma shard_ok_charges s H q e :
  shard_ok s H → heap s !! q = Some e → 0 ≤ charge e.
Proof.
  intros (_ & Hinv & _) He. pose proof (si_typed _ _ _ Hinv q e He). lia.
Qed.

Lemma shard_ok_usage s H :
  shard_ok s H → total_charge (heap s) < 2 ^ 64 →
  usage_ s = total_charge (heap s).
Proof.
  intros Hs Hlt. pose proof Hs as (_ & _ & Hacc).
  rewrite (acc_usage _ Hacc). apply wrap64_small. split; [|done].
  apply total_charge_nonneg. intros q e. by apply (shard_ok_charges s H).
Qed.

(** When the newest node of the ring is one the client holds and the loop
    empties the ring, the usage is still over the capacity. *)
Lemma evict_last_held fuel s H p :
  shard_ok s H → (length (lru_ s) ≤ fuel)%nat →
  list.last (lru_ s) = Some p → p ∈ H →
  ∀ s', evict fuel s = Some s' → lru_ s' = [] → capacity_ s' < usage_ s'.
Proof.
  revert s. induction fuel as [|fuel IH]; intros s Hs Hlen Hlast Hp s'.
  - destruct (lru_ s) eqn:Hl; [done|simpl in Hlen; lia].
  - destruct (lru_ s) as [|old l] eqn:Hl; [done|].
    destruct (decide (usage_ s ≤ capacity_ s)) as [Hfit|Hgo].
    { rewrite evict_halt by auto. intros [= <-]. congruence. }
    destruct (evict_round s H old l Hs Hl)
      as (eo & tb' & Heo & Hstep & Hs1 & Hl1 & Hperm).
    rewrite Hstep by lia.
    destruct l as [|x l].
    + simpl in Hlast. simplify_eq.
      rewrite evict_halt by auto. intros [= <-] _.
      unfold retired. rewrite dropped_capacity, dropped_usage. simpl.
      pose proof Hs as (_ & Hinv & _).
      pose proof (si_refs _ _ _ Hinv p eo Heo) as Hrefs.
      apply held_pos in Hp.
      rewrite bool_decide_true in Hrefs.
      * rewrite bool_decide_false; lia.
      * rewrite <- (si_ring _ _ _ Hinv), Hl. left.
    + apply (IH (retired s old eo tb')); try done.
      * rewrite Hl1. simpl in Hlen. simpl. lia.
      * by rewrite Hl1.
Qed.

Lemma evict_total fuel s H s' :
  shard_ok s H → evict fuel s = Some s' →
  total_charge (heap s') ≤ total_charge (heap s).
Proof.
  revert s. induction fuel as [|fuel IH]; intros s Hs.
  - simpl. destruct (lru_ s); [|case_bool_decide]; intros; simplify_eq; lia.
  - destruct (decide (lru_ s = [] ∨ usage_ s ≤ capacity_ s)) as [Hstop|Hgo].
    { rewrite evict_halt by done. intros [= <-]. lia. }
    destruct (lru_ s) as [|old l] eqn:Hl; [destruct Hgo; auto|].
    destruct (evict_round s H old l Hs Hl)
      as (eo & tb' & Heo & Hstep & Hs1 & Hl1 & Hperm).
    rewrite Hstep by lia. intros He.
    pose proof (IH _ Hs1 He) as Hle.
    pose proof (total_charge_dropped
      (set_table (set_lru s (LRU_Remove (lru_ s) old)) tb') old eo Heo
      (shard_ok_charges s H old eo Hs Heo)) as Hd.
    unfold retired in Hle. simpl in Hd. lia.
Qed.

Lemma last_in_drop (l : list ptr) j p :
  list.last l = Some p → drop j l ≠ [] → p ∈ drop j l.
Proof.
  intros [l0 ->]%last_Some Hne.
  destruct (decide (j ≤ length l0)%nat) as [Hle|Hgt].
  - rewrite drop_app_le by done. apply elem_of_app. right. left.
  - destruct Hne. apply drop_ge. rewrite length_app. simpl. lia.
Qed.


(** All that [Insert] does to a well-formed shard. *)
Lemma Insert_full s H k h v c d :
  shard_ok s H → Z.of_nat (brk s) < 2 ^ 31 →
  0 ≤ h < 2 ^ 32 → 0 ≤ c < 2 ^ 64 →
  ∃ s' old j,
    LRUCache.Insert s k h v c d = Some (s', brk s) ∧
    shard_ok s' (brk s :: H) ∧
    finds (heap s) (members (table_ s)) k h old ∧
    lru_ s' = drop j (unlink (lru_ s ++ [brk s]) old) ∧
    (brk s ∈ lru_ s' ↔ usage_ s' ≤ capacity_ s') ∧
    (lru_ s' = [] ∨ usage_ s' ≤ capacity_ s') ∧
    (∃ e', heap s' !! brk s = Some e' ∧
           same_data (mkLRUHandle v d c k 2 h) e') ∧
    total_charge (heap s') ≤ total_charge (heap s) + c.
Proof.
  intros Hs Hbrk Hh Hc.
  destruct (Insert_ok s H k h v c d Hs Hbrk Hh Hc) as (s' & HI & Hs').
  destruct (Insert_pre s H k h v c d Hs Hbrk Hh Hc)
    as (tb' & old & s3 & HTI & Hfinds & Hperm & Hs3 & Hok3).
  pose proof Hs as (Hok & Hinv & Hacc).
  pose proof (fresh_brk s Hacc) as Hfresh.
  assert (Hne : ∀ o eo, heap s !! o = Some eo → o ≠ brk s).
  { intros o eo Ho ->. congruence. }
  assert (Hl3 : lru_ s3 = unlink (lru_ s ++ [brk s]) old).
  { destruct old as [o|]; [destruct Hs3 as (eo & Heo & ->)|subst s3]; [|done].
    by rewrite dropped_lru. }
  assert (Hh3 : heap s3 !! brk s = Some (mkLRUHandle v d c k 2 h)).
  { destruct old as [o|]; [destruct Hs3 as (eo & Heo & ->)|subst s3]; simpl.
    - rewrite dropped_lookup_ne by (intros Heq; by apply (Hne o eo)).
      simpl. apply lookup_insert_eq.
    - apply lookup_insert_eq. }
  assert (Hb3 : brk s3 = S (brk s)).
  { destruct old as [o|]; [destruct Hs3 as (eo & Heo & ->)|subst s3]; [|done].
    by rewrite dropped_brk. }
  assert (Hlast : list.last (lru_ s3) = Some (brk s)).
  { rewrite Hl3. destruct old as [o|]; simpl; [|apply last_snoc].
    destruct Hs3 as (eo & Heo & _).
    unfold LRU_Remove. rewrite list.filter_app.
    rewrite filter_cons_True by (intros Heq; by apply (Hne o eo)).
    apply last_snoc. }
  assert (He : evict (length (lru_ s3)) s3 = Some s').
  { rewrite Insert_unfold, HTI, bind_Some in HI. cbv beta in HI.
    cbn [fst snd] in HI.
    destruct old as [o|].
    - destruct Hs3 as (eo & Heo & ->).
      rewrite Unref_dropped with (e := eo) in HI.
      + rewrite bind_Some in HI.
        destruct (evict _ _) as [s4|]; simplify_eq/=. done.
      + simpl. rewrite lookup_insert_ne; [done|].
        intros Heq. by apply (Hne o eo).
      + pose proof (si_typed _ _ _ Hinv o eo Heo). lia.
    - subst s3. rewrite bind_Some in HI.
      destruct (evict _ _) as [s4|]; simplify_eq/=. done. }
  destruct (evict_ok _ s3 _ Hok3 (le_n _)) as (s'' & He' & _ & Hdone & j & Hj).
  rewrite He in He'. injection He' as <-.
  exists s', old, j. split; [done|]. split; [done|]. split; [done|].
  split; [by rewrite Hj, Hl3|]. split; [|split; [done|split]].
  - split.
    + intros Hin. destruct Hdone as [Hnil|?]; [|done].
      rewrite Hnil in Hin. by apply elem_of_nil in Hin.
    + intros Hfit. rewrite Hj. apply last_in_drop; [done|].
      rewrite <- Hj. intros Hnil.
      pose proof (evict_last_held _ s3 (brk s :: H) (brk s) Hok3 (le_n _)
        Hlast ltac:(left) s' He Hnil). lia.
  - destruct Hs' as (_ & Hinv' & _).
    destruct (si_held _ _ _ Hinv' (brk s)) as [e' He'']; [left|].
    exists e'. split; [done|].
    pose proof (evict_step_ok _ _ _ He) as [Hev _].
    destruct (ev_heap _ _ Hev (brk s) e' He'') as (e3 & He3 & Hsame); [lia|].
    congruence.
  - pose proof (evict_total _ _ _ _ Hok3 He) as Hle.
    assert (total_charge (heap s3) ≤ total_charge (heap s) + c); [|lia].
    assert (H1 : total_charge (heap (allocated s k h v c d)) =
                 total_charge (heap s) + c).
    { simpl. rewrite total_charge_insert by done. simpl. lia. }
    destruct old as [o|]; [destruct Hs3 as (eo & Heo & ->)|subst s3].
    + assert (Heo1 : heap (allocated s k h v c d) !! o = Some eo).
      { simpl. rewrite lookup_insert_ne; [done|].
        intros Heq. by apply (Hne o eo). }
      set (s0 := set_lru (set_table (allocated s k h v c d) tb')
                   (LRU_Remove (lru_ (allocated s k h v c d)) o)) in *.
      assert (Hd : total_charge (heap (dropped s0 o eo)) ≤
                   total_charge (heap (allocated s k h v c d))).
      { apply (total_charge_dropped s0 o eo); [exact Heo1|].
        apply (shard_ok_charges s H o eo Hs Heo). }
      lia.
    + change (heap (set_table (allocated s k h v c d) tb'))
        with (heap (allocated s k h v c d)). lia.
Qed.

(** Inserting an entry whose charge alone is over the capacity, when the
    charges do not wrap: the loop evicts everything, the new entry too. *)
Lemma Insert_over s H k h v c d :
  shard_ok s H → Z.of_nat (brk s) < 2 ^ 31 →
  0 ≤ h < 2 ^ 32 → 0 ≤ c → capacity_ s < c →
  total_charge (heap s) + c < 2 ^ 64 →
  ∃ s', LRUCache.Insert s k h v c d = Some (s', brk s) ∧
    shard_ok s' (brk s :: H) ∧
    lru_ s' = [] ∧ members (table_ s') = [] ∧
    Value s' (brk s) = Some v ∧
    capacity_ s' = capacity_ s ∧ brk s' = S (brk s) ∧
    total_charge (heap s') ≤ total_charge (heap s) + c.
Proof.
  intros Hs Hbrk Hh Hc0 Hover Hsum.
  assert (Hc : 0 ≤ c < 2 ^ 64).
  { split; [done|].
    pose proof (total_charge_nonneg (heap s)
      (λ q e, shard_ok_charges s H q e Hs)). lia. }
  destruct (Insert_full s H k h v c d Hs Hbrk Hh Hc)
    as (s' & old & j & HI & Hs' & _ & _ & _ & Hdone & (e' & He' & Hsame) & Htot).
  pose proof (Insert_step_ok _ _ _ _ _ _ _ _ HI) as [Hev _].
  pose proof (Insert_brk _ _ _ _ _ _ _ _ HI) as [_ Hb'].
  assert (Hce : charge e' = c).
  { unfold same_data in Hsame. by injection Hsame as _ _ <- _ _. }
  assert (Hve : value e' = v).
  { unfold same_data in Hsame. by injection Hsame as <- _ _ _ _. }
  assert (Hnil : lru_ s' = []).
  { destruct Hdone as [?|Hfit]; [done|].
    rewrite (shard_ok_usage s' _ Hs') in Hfit by lia.
    pose proof (total_charge_ge (heap s') (brk s) e'
      (λ q e, shard_ok_charges s' _ q e Hs') He').
    rewrite (ev_capacity _ _ Hev) in Hfit. lia. }
  exists s'. split; [done|]. split; [done|]. split; [done|].
  split; [|split; [|split; [apply Hev|done]]].
  - destruct Hs' as (_ & Hinv' & _).
    pose proof (si_ring _ _ _ Hinv') as Hring. rewrite Hnil in Hring.
    by apply Permutation_nil in Hring.
  - unfold Value. by rewrite He', <- Hve.
Qed.

Lemma Lookup_empty s k h :
  table_ok (heap s) (table_ s) → members (table_ s) = [] →
  LRUCache.Lookup s k h = Some (s, None).
Proof.
  intros Hok Hnil.
  destruct (Lookup_spec (heap s) (table_ s) k h Hok) as (r & HL & Hfinds).
  unfold LRUCache.Lookup. rewrite HL. simpl.
  destruct r as [p|]; [|done].
  destruct Hfinds as [Hp _]. rewrite Hnil in Hp. by apply elem_of_nil in Hp.
Qed.

(** * The usage counter *)




(** * Release *)




(** * The life of an entry *)


(** ** When the reference count wraps *)









Lemma held_absent H p : p ∉ H → held H p = 0%nat.
Proof. rewrite held_pos. lia. Qed.

(** An entry out of the table that no client holds is freed. *)
Lemma shard_ok_unheld s H p :
  shard_ok s H → p ∉ members (table_ s) → p ∉ H → heap s !! p = None.
Proof.
  intros (_ & Hinv & _) HnM HnH.
  destruct (heap s !! p) as [e|] eqn:He; [|done].
  pose proof (si_refs _ _ _ Hinv p e He) as Hrefs.
  pose proof (si_typed _ _ _ Hinv p e He) as Htyped.
  rewrite bool_decide_false, (held_absent H p) in Hrefs by done. lia.
Qed.

Lemma shard_ok_ring s H p :
  shard_ok s H → p ∈ lru_ s ↔ p ∈ members (table_ s).
Proof. intros (_ & Hinv & _). by rewrite (si_ring _ _ _ Hinv). Qed.





(** * An entry over the capacity *)


Lemma run_capacity ops c s H :
  run ops (fresh c) = Some (s, H) → capacity_ s = c.
Proof.
  intros Hrun. apply run_step_ok in Hrun as [Hev _].
  apply (ev_capacity _ _ Hev).
Qed.




(** * Replacing an entry *)

Lemma same_data_fields e e' :
  same_data e e' →
  value e' = value e ∧ deleter e' = deleter e ∧ charge e' = charge e ∧
  key e' = key e ∧ hash e' = hash e.
Proof. unfold same_data. intros Hs. by injection Hs as -> -> -> -> ->. Qed.







(** * The order of eviction *)






Lemma shard_ok_ring_nodup s H : shard_ok s H → NoDup (lru_ s).
Proof. intros (_ & Hinv & _). rewrite (si_ring _ _ _ Hinv). apply Hinv. Qed.

(** ** The ring in every run *)
















(** * The sharded cache *)

Import ShardedLRUCache.

Lemma proj_cons_eq i p HS : proj i (mkHandle i p :: HS) = p :: proj i HS.
Proof. unfold proj. by rewrite filter_cons_True. Qed.

Lemma proj_cons_ne i hd HS : arena hd ≠ i → proj i (hd :: HS) = proj i HS.
Proof. intros. unfold proj. by rewrite filter_cons_False. Qed.

Lemma proj_length i HS : (length (proj i HS) ≤ length HS)%nat.
Proof. unfold proj. rewrite length_fmap. apply length_filter. Qed.

Lemma elem_of_proj hd HS : hd ∈ HS → addr hd ∈ proj (arena hd) HS.
Proof.
  intros Hin. unfold proj. apply list_elem_of_fmap. exists hd.
  split; [done|]. by apply list_elem_of_filter.
Qed.

Lemma proj_sgive_back_eq hd HS :
  proj (arena hd) (sgive_back hd HS) = give_back (addr hd) (proj (arena hd) HS).
Proof.
  induction HS as [|q HS IH]; [done|]. simpl.
  destruct (decide (q = hd)) as [->|Hne].
  - destruct hd as [i p]. simpl. rewrite proj_cons_eq. simpl.
    by rewrite decide_True.
  - destruct q as [i p], hd as [i' p']. simpl in *.
    destruct (decide (i = i')) as [->|Ha].
    + rewrite !proj_cons_eq. simpl. rewrite decide_False by congruence.
      by rewrite IH.
    + by rewrite !proj_cons_ne.
Qed.

Lemma proj_sgive_back_ne i hd HS :
  arena hd ≠ i → proj i (sgive_back hd HS) = proj i HS.
Proof.
  intros Hne. induction HS as [|q HS IH]; [done|]. simpl.
  destruct (decide (q = hd)) as [->|Hq].
  - by rewrite proj_cons_ne.
  - destruct q as [j p]. destruct (decide (j = i)) as [->|Ha].
    + by rewrite !proj_cons_eq, IH.
    + by rewrite !proj_cons_ne.
Qed.

Lemma sgive_back_subseteq hd HS q : q ∈ sgive_back hd HS → q ∈ HS.
Proof.
  induction HS as [|r HS IH]; [done|]. simpl. case_decide.
  - by right.
  - intros [->|?]%elem_of_cons; [left|right; auto].
Qed.

Lemma sgive_back_length hd HS : (length (sgive_back hd HS) ≤ length HS)%nat.
Proof.
  induction HS as [|r HS IH]; [done|]. simpl. case_decide; simpl; lia.
Qed.

Section ShardedFacts.

Variable Hash : string → Z → Z.

Lemma HashSlice_range k : 0 ≤ HashSlice Hash k < 2 ^ 32.
Proof. unfold HashSlice, wrap32. apply Z.mod_pos_bound. lia. Qed.

Lemma Shard_lt h : 0 ≤ h < 2 ^ 32 → (Shard h < 16)%nat.
Proof.
  intros Hh. unfold Shard, kNumShardBits. rewrite Z.shiftr_div_pow2 by lia.
  assert (h `div` 2 ^ (32 - 4) < 16); [|lia].
  apply Z.div_lt_upper_bound; lia.
Qed.

(** Replacing the shard [i] by a later state of it. *)
Lemma cache_ok_update c HS HS' i sh sh' :
  cache_ok c HS → shard_ c !! i = Some sh →
  shard_ok sh' (proj i HS') →
  (∀ j, j ≠ i → proj j HS' = proj j HS) →
  (∀ p e, heap sh' !! p = Some e → Shard (hash e) = i) →
  (∀ hd, hd ∈ HS' → (arena hd < 16)%nat) →
  cache_ok (ShardedLRUCache.mk (<[i:=sh']> (shard_ c)) (last_id_ c)) HS'.
Proof.
  intros [C1 C2 C3 C4] Hi Hs' Hproj Hhome Harena. split; simpl.
  - by rewrite length_insert.
  - intros j shj Hj. destruct (decide (j = i)) as [->|Hne].
    + rewrite list_lookup_insert_eq in Hj by (by eapply lookup_lt_Some).
      by simplify_eq.
    + rewrite list_lookup_insert_ne in Hj by done.
      rewrite Hproj by done. by apply C2.
  - intros j shj p e Hj He. destruct (decide (j = i)) as [->|Hne].
    + rewrite list_lookup_insert_eq in Hj by (by eapply lookup_lt_Some).
      simplify_eq. eauto.
    + rewrite list_lookup_insert_ne in Hj by done. eauto.
  - done.
Qed.

Lemma home_evolves i sh sh' :
  evolves sh sh' →
  (∀ p e, heap sh !! p = Some e → Shard (hash e) = i) →
  (∀ p e, heap sh' !! p = Some e → (p < brk sh)%nat ∨ Shard (hash e) = i) →
  ∀ p e, heap sh' !! p = Some e → Shard (hash e) = i.
Proof.
  intros Hev Hhome Hnew p e He.
  destruct (Hnew p e He) as [Hlt|?]; [|done].
  destruct (ev_heap _ _ Hev p e He Hlt) as (e0 & He0 & Hd).
  apply same_data_fields in Hd as (_ & _ & _ & _ & ->). eauto.
Qed.

Lemma shards_update (P : LRUCache.t → Prop) c i sh' :
  (∀ j sh, shard_ c !! j = Some sh → P sh) → P sh' →
  ∀ j sh, <[i:=sh']> (shard_ c) !! j = Some sh → P sh.
Proof.
  intros Hall Hsh' j sh Hj. destruct (decide (j = i)) as [->|Hne].
  - destruct (decide (i < length (shard_ c))%nat).
    + rewrite list_lookup_insert_eq in Hj by done. by simplify_eq.
    + rewrite list_insert_ge in Hj by lia. eauto.
  - rewrite list_lookup_insert_ne in Hj by done. eauto.
Qed.

Lemma shards_below_update c i sh' n m lid :
  shards_below n c → n ≤ m → Z.of_nat (brk sh') ≤ m →
  shards_below m (ShardedLRUCache.mk (<[i:=sh']> (shard_ c)) lid).
Proof.
  intros Hb Hnm Hsh' j sh Hj. cbn [shard_] in Hj.
  apply (shards_update (λ s, Z.of_nat (brk s) ≤ m) c i sh') in Hj; [done| |done].
  intros j' shj Hj'. specialize (Hb j' shj Hj'). lia.
Qed.

Lemma shards_capacity_update c i sh' cap lid :
  shards_capacity cap c → capacity_ sh' = cap →
  shards_capacity cap (ShardedLRUCache.mk (<[i:=sh']> (shard_ c)) lid).
Proof.
  intros Hc Hsh' j sh Hj. cbn [shard_] in Hj.
  by apply (shards_update (λ s, capacity_ s = cap) c i sh') in Hj.
Qed.

Lemma sharded_Insert_eq c k v ch d sh sh' p :
  shard_ c !! Shard (HashSlice Hash k) = Some sh →
  LRUCache.Insert sh k (HashSlice Hash k) v ch d = Some (sh', p) →
  ShardedLRUCache.Insert Hash c k v ch d =
  Some (ShardedLRUCache.mk (<[Shard (HashSlice Hash k):=sh']> (shard_ c))
          (last_id_ c),
        mkHandle (Shard (HashSlice Hash k)) p).
Proof.
  intros Hi HI. unfold ShardedLRUCache.Insert. cbv zeta.
  by rewrite Hi, bind_Some, HI.
Qed.

Lemma sharded_Lookup_eq c k sh sh' r :
  shard_ c !! Shard (HashSlice Hash k) = Some sh →
  LRUCache.Lookup sh k (HashSlice Hash k) = Some (sh', r) →
  ShardedLRUCache.Lookup Hash c k =
  Some (ShardedLRUCache.mk (<[Shard (HashSlice Hash k):=sh']> (shard_ c))
          (last_id_ c),
        match r with
        | Some e => Some (mkHandle (Shard (HashSlice Hash k)) e)
        | None => None
        end).
Proof.
  intros Hi HL. unfold ShardedLRUCache.Lookup. cbv zeta.
  by rewrite Hi, bind_Some, HL.
Qed.

Lemma sharded_Erase_eq c k sh sh' :
  shard_ c !! Shard (HashSlice Hash k) = Some sh →
  LRUCache.Erase sh k (HashSlice Hash k) = Some sh' →
  ShardedLRUCache.Erase Hash c k =
  Some (ShardedLRUCache.mk (<[Shard (HashSlice Hash k):=sh']> (shard_ c))
          (last_id_ c)).
Proof.
  intros Hi HE. unfold ShardedLRUCache.Erase. cbv zeta.
  by rewrite Hi, bind_Some, HE.
Qed.

Lemma sharded_Release_eq c hd own e sh' :
  shard_ c !! arena hd = Some own →
  heap own !! addr hd = Some e →
  Shard (hash e) = arena hd →
  LRUCache.Release own (addr hd) = Some sh' →
  ShardedLRUCache.Release c hd =
  Some (ShardedLRUCache.mk (<[arena hd:=sh']> (shard_ c)) (last_id_ c)).
Proof.
  intros Hown He Hhome HR. unfold ShardedLRUCache.Release.
  rewrite Hown, bind_Some, He, bind_Some, Hhome, Hown, bind_Some, HR.
  done.
Qed.

Lemma shard_exists c HS i :
  cache_ok c HS → (i < 16)%nat → ∃ sh, shard_ c !! i = Some sh.
Proof.
  intros Hc Hi. apply lookup_lt_is_Some_2. by rewrite (co_len _ _ Hc).
Qed.

(** One call of a client of the cache. *)
Lemma sstep_ok o σ σ' n cap :
  cache_ok (cache σ) (handles σ) →
  shards_below n (cache σ) → shards_capacity cap (cache σ) →
  Z.of_nat (length (handles σ)) ≤ n → n < 2 ^ 31 →
  sstep Hash o σ = Some σ' →
  cache_ok (cache σ') (handles σ') ∧
  shards_below (n + 1) (cache σ') ∧ shards_capacity cap (cache σ') ∧
  Z.of_nat (length (handles σ')) ≤ n + 1.
Proof.
  destruct σ as [c HS ids0]. cbn [cache handles].
  intros Hc Hbelow Hcap HH Hn Hstep.
  pose proof (HashSlice_range) as Hrange.
  destruct o as [k v ch d|k|hd|k|]; cbn [sstep cache handles ids] in Hstep.
  - (* Insert *)
    case_bool_decide as Hty; [|done].
    set (i := Shard (HashSlice Hash k)) in *.
    destruct (shard_exists c HS i Hc) as [sh Hi]; [apply Shard_lt, Hrange|].
    pose proof (co_shard _ _ Hc i sh Hi) as Hsh.
    pose proof (Hbelow i sh Hi) as Hb.
    destruct (Insert_full sh (proj i HS) k (HashSlice Hash k) v ch d Hsh)
      as (sh' & old & j & HI & Hsh' & _ & _ & _ & _ & (e' & He' & Hd) & _);
      try done; try lia.
    rewrite (sharded_Insert_eq _ _ _ _ _ _ _ _ Hi HI), bind_Some in Hstep.
    cbv beta in Hstep. cbn [fst snd] in Hstep.
    apply (inj Some) in Hstep as <-. cbn [cache handles].
    pose proof (Insert_step_ok _ _ _ _ _ _ _ _ HI) as [Hev _].
    pose proof (Insert_brk _ _ _ _ _ _ _ _ HI) as [_ Hb'].
    fold i. split; [|split; [|split]].
    + eapply cache_ok_update; eauto.
      * by rewrite proj_cons_eq.
      * intros j' Hne. by rewrite proj_cons_ne.
      * apply (home_evolves i sh sh' Hev);
          [intros p e; by apply (co_home _ _ Hc i sh)|].
        intros p e He. destruct (decide (p < brk sh)%nat); [by left|right].
        assert (p < brk sh')%nat by (apply Hsh'; eauto).
        assert (p = brk sh) as -> by lia. simplify_eq.
        by apply same_data_fields in Hd as (_ & _ & _ & _ & ->).
      * intros hd [->|?]%elem_of_cons; [|by apply (co_arena _ _ Hc)].
        apply Shard_lt, Hrange.
    + apply (shards_below_update c i sh' n); [done|lia|lia].
    + apply shards_capacity_update; [done|].
      rewrite (ev_capacity _ _ Hev). eauto.
    + cbn [length]. lia.
  - (* Lookup *)
    set (i := Shard (HashSlice Hash k)) in *.
    destruct (shard_exists c HS i Hc) as [sh Hi]; [apply Shard_lt, Hrange|].
    pose proof (co_shard _ _ Hc i sh Hi) as Hsh.
    pose proof (Hbelow i sh Hi) as Hb.
    pose proof (proj_length i HS).
    destruct (Lookup_ok sh (proj i HS) k (HashSlice Hash k) Hsh)
      as (sh' & r & HL & Hfinds & Hsh' & Hr); [lia|].
    rewrite (sharded_Lookup_eq _ _ _ _ _ Hi HL), bind_Some in Hstep.
    cbv beta in Hstep. cbn [fst snd] in Hstep.
    apply (inj Some) in Hstep as <-. cbn [cache handles].
    pose proof (Lookup_step_ok _ _ _ _ _ HL) as [Hev _].
    assert (Hbrk : brk sh' = brk sh).
    { destruct r as [q|]; [|by subst].
      by destruct Hr as (e & _ & ->). }
    fold i.
    assert (Hhs : match match r with
                        | Some e => Some (mkHandle i e)
                        | None => None
                        end with
                  | Some e => e :: HS
                  | None => HS
                  end = (mkHandle i <$> option_list r) ++ HS)
      by by destruct r.
    rewrite Hhs. clear Hhs.
    split; [|split; [|split]].
    + eapply cache_ok_update; eauto.
      * destruct r as [q|]; [|exact Hsh'].
        change ((mkHandle i <$> option_list (Some q)) ++ HS)
          with (mkHandle i q :: HS).
        by rewrite proj_cons_eq.
      * intros j' Hne. destruct r as [q|]; [|done].
        change ((mkHandle i <$> option_list (Some q)) ++ HS)
          with (mkHandle i q :: HS).
        by rewrite proj_cons_ne.
      * apply (home_evolves i sh sh' Hev);
          [intros p e; by apply (co_home _ _ Hc i sh)|].
        intros p e He. left. rewrite <- Hbrk. apply Hsh'. eauto.
      * intros hd [Hhd|?]%elem_of_app; [|by apply (co_arena _ _ Hc)].
        destruct r as [q|]; [|by apply elem_of_nil in Hhd].
        apply list_elem_of_singleton in Hhd as ->.
        apply Shard_lt, Hrange.
    + apply (shards_below_update c i sh' n); [done|lia|lia].
    + apply shards_capacity_update; [done|].
      rewrite (ev_capacity _ _ Hev). eauto.
    + rewrite length_app, length_fmap.
      assert (length (option_list r) ≤ 1)%nat by (destruct r; simpl; lia).
      lia.
  - (* Release *)
    case_bool_decide as Hin; [|done].
    destruct (shard_exists c HS (arena hd) Hc) as [own Hown];
      [by apply (co_arena _ _ Hc)|].
    pose proof (co_shard _ _ Hc _ own Hown) as Hsh.
    destruct (Release_spec own _ (addr hd) Hsh (elem_of_proj hd HS Hin))
      as (e & He & HR & Hsh').
    pose proof (co_home _ _ Hc _ own _ e Hown He) as Hhome.
    rewrite (sharded_Release_eq _ _ _ _ _ Hown He Hhome HR), bind_Some
      in Hstep.
    cbv beta in Hstep. cbn [fst snd] in Hstep.
    apply (inj Some) in Hstep as <-. cbn [cache handles].
    pose proof (Release_step_ok _ _ _ HR) as [Hev _].
    split; [|split; [|split]].
    + eapply cache_ok_update; eauto.
      * by rewrite proj_sgive_back_eq.
      * intros j' Hne. by apply proj_sgive_back_ne.
      * apply (home_evolves _ own _ Hev);
          [intros p e'; by apply (co_home _ _ Hc _ own)|].
        intros p e' He'. left. rewrite <- (dropped_brk own (addr hd) e).
        apply Hsh'. eauto.
      * intros q Hq%sgive_back_subseteq. by apply (co_arena _ _ Hc).
    + apply (shards_below_update c _ _ n); [done|lia|].
      rewrite dropped_brk. specialize (Hbelow _ own Hown). lia.
    + apply shards_capacity_update; [done|].
      rewrite dropped_capacity. eauto.
    + pose proof (sgive_back_length hd HS). lia.
  - (* Erase *)
    set (i := Shard (HashSlice Hash k)) in *.
    destruct (shard_exists c HS i Hc) as [sh Hi]; [apply Shard_lt, Hrange|].
    pose proof (co_shard _ _ Hc i sh Hi) as Hsh.
    destruct (Erase_spec sh (proj i HS) k (HashSlice Hash k) Hsh)
      as (sh' & r & HE & _ & Hsh' & _).
    rewrite (sharded_Erase_eq _ _ _ _ Hi HE), bind_Some in Hstep.
    cbv beta in Hstep. cbn [fst snd] in Hstep.
    apply (inj Some) in Hstep as <-. cbn [cache handles].
    pose proof (Erase_step_ok _ _ _ _ HE) as [Hev _].
    pose proof (Erase_brk _ _ _ _ HE) as Hbrk.
    fold i. split; [|split; [|split]].
    + eapply cache_ok_update; eauto.
      * apply (home_evolves i sh sh' Hev);
          [intros p e; by apply (co_home _ _ Hc i sh)|].
        intros p e He. left. rewrite <- Hbrk. apply Hsh'. eauto.
      * by apply (co_arena _ _ Hc).
    + apply (shards_below_update c i sh' n); [done|lia|].
      rewrite Hbrk. specialize (Hbelow _ sh Hi). lia.
    + apply shards_capacity_update; [done|].
      rewrite (ev_capacity _ _ Hev). eauto.
    + lia.
  - (* NewId *)
    apply (inj Some) in Hstep as <-. cbn [cache handles fst snd NewId].
    split; [|split; [|split]].
    + destruct Hc as [C1 C2 C3 C4]. by split.
    + intros j' shj Hj. specialize (Hbelow j' shj Hj). lia.
    + done.
    + lia.
Qed.

Lemma srun_none ops : foldl (λ acc o, acc ≫= sstep Hash o) None ops = None.
Proof. induction ops; simpl; auto. Qed.

Lemma srun_cons o ops σ :
  srun Hash (o :: ops) σ = sstep Hash o σ ≫= srun Hash ops.
Proof.
  unfold srun. simpl. destruct (sstep Hash o σ); simpl; [done|apply srun_none].
Qed.

Lemma srun_ok ops : ∀ σ σ' n cap,
  cache_ok (cache σ) (handles σ) →
  shards_below n (cache σ) → shards_capacity cap (cache σ) →
  Z.of_nat (length (handles σ)) ≤ n →
  n + Z.of_nat (length ops) ≤ 2 ^ 31 →
  srun Hash ops σ = Some σ' →
  cache_ok (cache σ') (handles σ') ∧
  shards_below (n + Z.of_nat (length ops)) (cache σ') ∧
  shards_capacity cap (cache σ') ∧
  Z.of_nat (length (handles σ')) ≤ n + Z.of_nat (length ops).
Proof.
  induction ops as [|o ops IH]; intros σ σ' n cap Hc Hb Hcap HH Hn.
  - intros [= <-]. split; [done|]. split; [|split; [done|simpl; lia]].
    intros i sh Hi. specialize (Hb i sh Hi). simpl. lia.
  - rewrite srun_cons. simpl length in *.
    destruct (sstep Hash o σ) as [σ1|] eqn:Hstep; [|done]. simpl.
    intros Hrun.
    destruct (sstep_ok o σ σ1 n cap) as (Hc1 & Hb1 & Hcap1 & HH1);
      try done; try lia.
    destruct (IH σ1 σ' (n + 1) cap) as (Hc' & Hb' & Hcap' & HH');
      try done; try lia.
    split; [done|]. split; [|split; [done|lia]].
    intros i sh Hi. specialize (Hb' i sh Hi). lia.
Qed.

End ShardedFacts.


(** A handle a client holds keeps its value from a state to a later one. *)
Lemma Value_kept s s' H' p v :
  accounted s → shard_ok s' H' → evolves s s' → p ∈ H' →
  LRUCache.Value s p = Some v → LRUCache.Value s' p = Some v.
Proof.
  intros Hacc (_ & Hinv' & _) Hev Hp. unfold LRUCache.Value.
  destruct (heap s !! p) as [e|] eqn:He; [|done]. simpl. intros [= <-].
  destruct (si_held _ _ _ Hinv' p Hp) as [e' He']. rewrite He'. simpl.
  destruct (ev_heap _ _ Hev p e' He') as (e0 & He0 & Hd).
  { apply Hacc. eauto. }
  apply same_data_fields in Hd as (-> & _). by simplify_eq.
Qed.

Section ShardedClaims.

Variable Hash : string → Z → Z.

Lemma cache_ok_fresh cap :
  cache_ok (NewLRUCache cap) [] ∧
  shards_below 0 (NewLRUCache cap) ∧
  shards_capacity (per_shard cap) (NewLRUCache cap).
Proof.
  split; [split|split].
  - done.
  - intros i sh [-> _]%lookup_replicate. apply (shard_ok_fresh (per_shard cap)).
  - intros i sh p e [-> _]%lookup_replicate He. cbn in He.
    by rewrite lookup_empty in He.
  - intros hd Hhd. by apply elem_of_nil in Hhd.
  - intros i sh [-> _]%lookup_replicate. done.
  - intros i sh [-> _]%lookup_replicate. done.
Qed.

Lemma sharded_Lookup_miss c HS k :
  cache_ok c HS →
  (∀ sh, shard_ c !! Shard (HashSlice Hash k) = Some sh →
     members (table_ sh) = []) →
  ShardedLRUCache.Lookup Hash c k = Some (c, None).
Proof.
  intros Hc Hempty.
  destruct (shard_exists c HS (Shard (HashSlice Hash k)) Hc) as [sh Hi].
  { apply Shard_lt, HashSlice_range. }
  pose proof (co_shard _ _ Hc _ sh Hi) as (Hok & _).
  rewrite (sharded_Lookup_eq Hash c k sh sh None Hi).
  - rewrite list_insert_id by done. by destruct c.
  - apply Lookup_empty; auto.
Qed.

(** [Insert] of an entry over the capacity of its shard, when the
    charges of the shard do not wrap. *)
Lemma sharded_Insert_over c HS n cap k v ch d sh :
  cache_ok c HS → shards_below n c → shards_capacity cap c →
  Z.of_nat (length HS) ≤ n → n < 2 ^ 31 →
  shard_ c !! Shard (HashSlice Hash k) = Some sh →
  0 ≤ ch → cap < ch → total_charge (heap sh) + ch < 2 ^ 64 →
  ∃ sh',
    let hd := mkHandle (Shard (HashSlice Hash k)) (brk sh) in
    let c1 := ShardedLRUCache.mk
                (<[Shard (HashSlice Hash k):=sh']> (shard_ c)) (last_id_ c) in
    ShardedLRUCache.Insert Hash c k v ch d = Some (c1, hd) ∧
    cache_ok c1 (hd :: HS) ∧ shards_below (n + 1) c1 ∧
    shards_capacity cap c1 ∧
    members (table_ sh') = [] ∧
    total_charge (heap sh') ≤ total_charge (heap sh) + ch ∧
    ShardedLRUCache.Value c1 hd = Some v ∧
    (∀ hd' v', hd' ∈ HS → ShardedLRUCache.Value c hd' = Some v' →
       ShardedLRUCache.Value c1 hd' = Some v').
Proof.
  intros Hc Hbelow Hcaps HH Hn Hi Hch Hover Hsum.
  set (i := Shard (HashSlice Hash k)) in *.
  pose proof (co_shard _ _ Hc i sh Hi) as Hsh.
  pose proof (Hbelow i sh Hi) as Hb.
  pose proof (Hcaps i sh Hi) as Hcap.
  destruct (Insert_over sh (proj i HS) k (HashSlice Hash k) v ch d Hsh)
    as (sh' & HI & Hsh' & Hnil & HM & Hval & _ & Hbrk & Htot);
    try done; try lia; [apply HashSlice_range|].
  assert (Hty : 0 ≤ ch < 2 ^ 64).
  { pose proof (total_charge_nonneg (heap sh)
      (λ q e, shard_ok_charges sh _ q e Hsh)). lia. }
  pose proof (sharded_Insert_eq Hash c k v ch d sh sh' (brk sh) Hi HI) as Heq.
  fold i in Heq.
  pose proof (Insert_step_ok _ _ _ _ _ _ _ _ HI) as [Hev _].
  exists sh'. cbv zeta. split; [done|].
  destruct (sstep_ok Hash (SInsert k v ch d) (mkClient c HS [])
              (mkClient (ShardedLRUCache.mk (<[i:=sh']> (shard_ c)) (last_id_ c))
                 (mkHandle i (brk sh) :: HS) []) n cap)
    as (Hc1 & Hb1 & Hcap1 & _); cbn [cache handles]; try done.
  { cbn [sstep cache handles ids]. rewrite bool_decide_true by done.
    by rewrite Heq, bind_Some. }
  cbn [cache handles] in Hc1, Hb1, Hcap1.
  do 5 (split; [done|]).
  assert (Hlen : (i < length (shard_ c))%nat) by (by eapply lookup_lt_Some).
  split.
  - unfold ShardedLRUCache.Value. cbn [arena addr shard_].
    by rewrite list_lookup_insert_eq, bind_Some by done.
  - intros [j p] v' Hin. unfold ShardedLRUCache.Value. cbn [arena addr shard_].
    destruct (decide (j = i)) as [->|Hne].
    + rewrite Hi, list_lookup_insert_eq, !bind_Some by done.
      apply (Value_kept sh sh' (brk sh :: proj i HS)); [apply Hsh|done|done|].
      right. apply (elem_of_proj (mkHandle i p) HS Hin).
    + by rewrite list_lookup_insert_ne by done.
Qed.

End ShardedClaims.

(** * NewId *)

Section NewIdFacts.

Variable Hash : string → Z → Z.

Lemma sstep_ids o σ σ' :
  sstep Hash o σ = Some σ' →
  if is_NewId o
  then ids σ' = ids σ ++ [wrap64 (last_id_ (cache σ) + 1)] ∧
       last_id_ (cache σ') = wrap64 (last_id_ (cache σ) + 1)
  else ids σ' = ids σ ∧ last_id_ (cache σ') = last_id_ (cache σ).
Proof.
  destruct σ as [c HS ids0].
  destruct o as [k v ch d|k|hd|k|]; cbn [sstep cache handles ids is_NewId].
  - case_bool_decide; [|done].
    unfold ShardedLRUCache.Insert. cbv zeta.
    destruct (shard_ c !! _) as [sh|]; [|done]. rewrite bind_Some.
    destruct (LRUCache.Insert sh _ _ _ _ _) as [r|]; [|done].
    rewrite !bind_Some. cbv beta. cbn [fst snd].
    intros Heq. by apply (inj Some) in Heq as <-.
  - unfold ShardedLRUCache.Lookup. cbv zeta.
    destruct (shard_ c !! _) as [sh|]; [|done]. rewrite bind_Some.
    destruct (LRUCache.Lookup sh _ _) as [r|]; [|done].
    rewrite !bind_Some. cbv beta. cbn [fst snd].
    intros Heq. by apply (inj Some) in Heq as <-.
  - case_bool_decide; [|done].
    unfold ShardedLRUCache.Release.
    destruct (shard_ c !! arena hd) as [own|]; [|done]. rewrite bind_Some.
    destruct (heap own !! addr hd) as [e|]; [|done]. rewrite bind_Some.
    destruct (shard_ c !! _) as [sh|]; [|done]. rewrite bind_Some.
    destruct (LRUCache.Release sh _) as [sh'|]; [|done].
    rewrite !bind_Some. cbv beta.
    intros Heq. by apply (inj Some) in Heq as <-.
  - unfold ShardedLRUCache.Erase. cbv zeta.
    destruct (shard_ c !! _) as [sh|]; [|done]. rewrite bind_Some.
    destruct (LRUCache.Erase sh _ _) as [sh'|]; [|done].
    rewrite !bind_Some. cbv beta.
    intros Heq. by apply (inj Some) in Heq as <-.
  - intros Heq. by apply (inj Some) in Heq as <-.
Qed.

Lemma srun_ids ops : ∀ σ σ',
  srun Hash ops σ = Some σ' →
  last_id_ (cache σ) = Z.of_nat (length (ids σ)) →
  ids σ = Z.of_nat <$> seq 1 (length (ids σ)) →
  Z.of_nat (length (ids σ)) + Z.of_nat (length ops) < 2 ^ 64 →
  last_id_ (cache σ') = Z.of_nat (length (ids σ')) ∧
  ids σ' = Z.of_nat <$> seq 1 (length (ids σ')) ∧
  length (ids σ') = (length (ids σ) + new_ids ops)%nat.
Proof.
  induction ops as [|o ops IH]; intros σ σ'.
  - intros [= <-] Hlast Hids _. unfold new_ids. simpl.
    split; [done|]. split; [done|lia].
  - rewrite srun_cons.
    destruct (sstep Hash o σ) as [σ1|] eqn:Hstep; [|done].
    rewrite bind_Some. intros Hrun Hlast Hids Hlen. simpl length in Hlen.
    pose proof (sstep_ids o σ σ1 Hstep) as Hone.
    unfold new_ids. rewrite filter_cons.
    destruct (is_NewId o) eqn:Ho.
    + destruct Hone as [Hi1 Hl1].
      rewrite Hlast, wrap64_small in Hi1, Hl1 by lia.
      destruct (IH σ1 σ' Hrun) as (Hl' & Hi' & Hn').
      * rewrite Hl1, Hi1, length_app. simpl. lia.
      * rewrite Hi1, length_app. simpl.
        rewrite Nat.add_1_r, seq_S, fmap_app. simpl.
        rewrite <- Hids. do 2 f_equal. lia.
      * rewrite Hi1, length_app. simpl. lia.
      * split; [done|]. split; [done|].
        rewrite Hn', Hi1, length_app. unfold new_ids.
        rewrite decide_True by done. simpl. lia.
    + destruct Hone as [Hi1 Hl1].
      destruct (IH σ1 σ' Hrun) as (Hl' & Hi' & Hn').
      * by rewrite Hl1, Hi1.
      * by rewrite Hi1.
      * rewrite Hi1. lia.
      * split; [done|]. split; [done|].
        rewrite Hn', Hi1. unfold new_ids.
        by rewrite decide_False by done.
Qed.

End NewIdFacts.

(** C9: in a run of fewer than 2^64 calls on a new cache, the calls of
    [NewId], however they are mixed with the other operations and whatever
    these do to the shards, return 1, 2, ..., N in this order, N being the
    number of calls of [NewId]; the counter is then N.  So the first call
    returns 1, every call returns more than all calls before it, and no
    value is returned twice. *)
Theorem new_ids_count_up (Hash : string → Z → Z) ops cap σ :
  Z.of_nat (length ops) < 2 ^ 64 →
  srun Hash ops (sfresh cap) = Some σ →
  ids σ = Z.of_nat <$> seq 1 (new_ids ops) ∧
  last_id_ (cache σ) = Z.of_nat (new_ids ops).
Proof.
  intros Hlen Hrun.
  destruct (srun_ids Hash ops (sfresh cap) σ Hrun) as (Hl & Hi & Hn);
    [done|done|simpl; lia|].
  simpl in Hn. rewrite Hn in Hi, Hl. done.
Qed.

Lemma new_ids_count_up_witness :
  ids (soutcome ids_between_inserts 100) =
    Z.of_nat <$> seq 1 (new_ids ids_between_inserts) ∧
  last_id_ (cache (soutcome ids_between_inserts 100)) =
    Z.of_nat (new_ids ids_between_inserts).
Proof.
  apply (new_ids_count_up sample_hash ids_between_inserts 100).
  - vm_compute. reflexivity.
  - vm_compute. reflexivity.
Defined.

(** * Capacities below the charge of one entry *)


Section CapacityFacts.

Variable Hash : string → Z → Z.

Lemma all_empty_fresh cap : all_empty (NewLRUCache cap).
Proof. by intros i sh [-> _]%lookup_replicate. Qed.

Lemma all_empty_update c i sh' lid :
  all_empty c → members (table_ sh') = [] →
  all_empty (ShardedLRUCache.mk (<[i:=sh']> (shard_ c)) lid).
Proof.
  intros Hc Hsh' j sh Hj. cbn [shard_] in Hj.
  by apply (shards_update (λ s, members (table_ s) = []) c i sh') in Hj.
Qed.

(** Two entries, each over the capacity of a shard, inserted into a new
    cache: neither is resident afterwards, both handles give their
    values. *)
Lemma two_oversized_inserts cap ka va cha da kb vb chb db :
  per_shard cap < cha → per_shard cap < chb →
  0 ≤ cha → 0 ≤ chb → cha + chb < 2 ^ 64 →
  ∃ c1 ha c2 hb,
    ShardedLRUCache.Insert Hash (NewLRUCache cap) ka va cha da = Some (c1, ha) ∧
    ShardedLRUCache.Insert Hash c1 kb vb chb db = Some (c2, hb) ∧
    ShardedLRUCache.Lookup Hash c2 ka = Some (c2, None) ∧
    ShardedLRUCache.Lookup Hash c2 kb = Some (c2, None) ∧
    ShardedLRUCache.Value c2 ha = Some va ∧
    ShardedLRUCache.Value c2 hb = Some vb.
Proof.
  intros Hoa Hob Ha Hb Hsum.
  destruct (cache_ok_fresh cap) as (Hc0 & Hb0 & Hcap0).
  set (c0 := NewLRUCache cap) in *.
  pose proof (all_empty_fresh cap) as He0. fold c0 in He0.
  assert (Ht0 : ∀ i sh, shard_ c0 !! i = Some sh → total_charge (heap sh) ≤ 0).
  { by intros i sh [-> _]%lookup_replicate. }
  (* the first Insert *)
  destruct (shard_exists c0 [] (Shard (HashSlice Hash ka)) Hc0) as [sha Hia].
  { apply Shard_lt, HashSlice_range. }
  pose proof (Ht0 _ _ Hia) as Hta.
  destruct (sharded_Insert_over Hash c0 [] 0 (per_shard cap) ka va cha da sha)
    as (sha' & HI1 & Hc1 & Hb1 & Hcap1 & HM1 & Htot1 & Hv1 & _);
    try done; try lia.
  cbv zeta in HI1, Hc1, Hb1, Hcap1, Hv1.
  set (ha := mkHandle (Shard (HashSlice Hash ka)) (brk sha)) in *.
  set (c1 := ShardedLRUCache.mk (<[_:=sha']> _) _) in *.
  assert (He1 : all_empty c1) by by apply all_empty_update.
  assert (Ht1 : ∀ i sh, shard_ c1 !! i = Some sh →
            total_charge (heap sh) ≤ cha).
  { intros i sh Hi. cbn [shard_ c1] in Hi.
    apply (shards_update (λ s, total_charge (heap s) ≤ cha) c0 _ sha') in Hi;
      [done| |lia].
    intros j shj Hj. specialize (Ht0 j shj Hj). lia. }
  (* the second Insert *)
  destruct (shard_exists c1 _ (Shard (HashSlice Hash kb)) Hc1) as [shb Hib].
  { apply Shard_lt, HashSlice_range. }
  pose proof (Ht1 _ _ Hib) as Htb.
  destruct (sharded_Insert_over Hash c1 [ha] 1 (per_shard cap) kb vb chb db shb)
    as (shb' & HI2 & Hc2 & Hb2 & Hcap2 & HM2 & Htot2 & Hv2 & Hkept);
    try done; try lia.
  cbv zeta in HI2, Hc2, Hv2, Hkept.
  set (hb := mkHandle (Shard (HashSlice Hash kb)) (brk shb)) in *.
  set (c2 := ShardedLRUCache.mk (<[_:=shb']> _) _) in *.
  assert (He2 : all_empty c2) by by apply all_empty_update.
  exists c1, ha, c2, hb. split; [done|]. split; [done|].
  split; [|split; [|split; [|done]]].
  - eapply sharded_Lookup_miss; [done|]. intros sh. apply He2.
  - eapply sharded_Lookup_miss; [done|]. intros sh. apply He2.
  - apply Hkept; [left|done].
Qed.

End CapacityFacts.

(** C8, as stated, fails: under no hash function does the scenario end
    with [Lookup("b")] returning a handle.  The sixteen shards of a cache
    of total capacity 100 have capacity 7 each, so "b" with its charge of
    60 is evicted by its own [Insert], whichever shard it hashes to. *)
Lemma lookup_b_misses :
  ¬ ∃ (Hash : string → Z → Z) c1 ha c2 hb c3 c4 h,
      ShardedLRUCache.Insert Hash (NewLRUCache 100) "a" 1 60 0 = Some (c1, ha) ∧
      ShardedLRUCache.Insert Hash c1 "b" 2 60 0 = Some (c2, hb) ∧
      ShardedLRUCache.Lookup Hash c2 "a" = Some (c3, None) ∧
      ShardedLRUCache.Lookup Hash c3 "b" = Some (c4, Some h).
Proof.
  intros (Hash & c1 & ha & c2 & hb & c3 & c4 & h & H1 & H2 & H3 & H4).
  destruct (two_oversized_inserts Hash 100 "a" 1 60 0 "b" 2 60 0)
    as (c1' & ha' & c2' & hb' & H1' & H2' & H3' & H4' & _);
    [by vm_compute|by vm_compute|lia..|].
  rewrite H1 in H1'. injection H1' as <- <-.
  rewrite H2 in H2'. injection H2' as <- <-.
  rewrite H3 in H3'. injection H3' as ->.
  rewrite H4 in H4'. discriminate.
Qed.

(** C8 (amended): in a cache created with total capacity 100, whose
    shards have capacity 7 each, inserting "a" with charge 60 and then "b"
    with charge 60 leaves neither resident, under every hash function: each
    entry is evicted by its own [Insert], [Lookup("a")] and [Lookup("b")]
    return not-found, and the handles of the two insertions still give the
    two values. *)
Theorem scenario_100_evicts_both (Hash : string → Z → Z) va da vb db :
  ∃ c1 ha c2 hb,
    ShardedLRUCache.Insert Hash (NewLRUCache 100) "a" va 60 da = Some (c1, ha) ∧
    ShardedLRUCache.Insert Hash c1 "b" vb 60 db = Some (c2, hb) ∧
    ShardedLRUCache.Lookup Hash c2 "a" = Some (c2, None) ∧
    ShardedLRUCache.Lookup Hash c2 "b" = Some (c2, None) ∧
    ShardedLRUCache.Value c2 ha = Some va ∧
    ShardedLRUCache.Value c2 hb = Some vb.
Proof.
  apply two_oversized_inserts; [by vm_compute|by vm_compute|lia..].
Qed.





(** * Slice comparison *)

Lemma memcmp_same x n :
  (n ≤ String.length x)%nat → Slice.memcmp x x n = Some 0.
Proof.
  revert n. induction x as [|a x IH]; intros [|n] Hn; simpl in *;
    try done; try lia.
  rewrite bool_decide_true by done. apply IH. lia.
Qed.

Lemma memcmp_differ x : ∀ y,
  String.length x = String.length y → x ≠ y →
  ∃ r, Slice.memcmp x y (String.length x) = Some r ∧ r ≠ 0.
Proof.
  induction x as [|a x IH]; intros [|b y] Hlen Hne; simpl in *; try done.
  destruct (decide (a = b)) as [->|Hab].
  - rewrite bool_decide_true by done. apply IH; [lia|congruence].
  - rewrite bool_decide_false by done. eexists. split; [done|].
    intros Hz. apply Hab.
    rewrite <- (Ascii.ascii_nat_embedding a), <- (Ascii.ascii_nat_embedding b).
    f_equal. lia.
Qed.

(** X1: [operator!=] of two slices never reads past the end of either and
    returns true exactly when their byte strings differ; this is the test
    [key != ( *ptr)->key()] of [FindPointer]. *)
Theorem Slice_ne_decides (x y : string) :
  Slice.ne x y = Some (bool_decide (x ≠ y)) ∧
  Slice.eq x y = Some (bool_decide (x = y)).
Proof.
  assert (Heq : Slice.eq x y = Some (bool_decide (x = y))).
  { unfold Slice.eq, Slice.size. destruct (decide (x = y)) as [->|Hne].
    - rewrite !bool_decide_true by done. by rewrite memcmp_same.
    - rewrite (bool_decide_false (x = y)) by done.
      case_bool_decide as Hlen; [|done].
      destruct (memcmp_differ x y) as (r & -> & Hr); [lia|done|].
      simpl. by rewrite bool_decide_false. }
  split; [|done]. unfold Slice.ne. rewrite Heq. simpl. f_equal.
  destruct (decide (x = y)).
  - by rewrite bool_decide_true, bool_decide_false by auto.
  - by rewrite bool_decide_false, bool_decide_true by auto.
Qed.

(** * The hash table: round trips *)

Lemma finds_agree m M k h r r' :
  keys_inj m M → finds m M k h r → finds m M k h r' → r = r'.
Proof.
  intros Hinj Hr Hr'. destruct r as [p|].
  - destruct Hr as (Hp & e & He & Hk & Hh). symmetry.
    by eapply finds_unique.
  - destruct r' as [q|]; [|done].
    destruct Hr' as (Hq & e & He & Hk & Hh). by destruct (Hr q e Hq He).
Qed.

(** A search among [M'] for a key that none of the handles by which [M']
    and [M] differ has gives what it gives among [M]. *)
Lemma finds_same m M M' k h r :
  (∀ p, p ∈ M' → p ∈ M ∨ ∃ e, m !! p = Some e ∧ (key e, hash e) ≠ (k, h)) →
  (∀ p, p ∈ M → p ∈ M' ∨ ∃ e, m !! p = Some e ∧ (key e, hash e) ≠ (k, h)) →
  finds m M k h r → finds m M' k h r.
Proof.
  intros H1 H2. destruct r as [p|]; simpl.
  - intros (Hp & e & He & Hk & Hh). split; [|by eauto].
    destruct (H2 p Hp) as [|(e' & He' & Hne)]; [done|].
    destruct Hne. congruence.
  - intros Hnone p e Hp He [Hk Hh].
    destruct (H1 p Hp) as [HpM|(e' & He' & Hne)].
    + by apply (Hnone p e HpM He).
    + destruct Hne. congruence.
Qed.

Lemma Lookup_finds m tb k h r :
  table_ok m tb → finds m (members tb) k h r →
  HandleTable.Lookup m tb k h = Some r.
Proof.
  intros Hok Hr. destruct (Lookup_spec m tb k h Hok) as (r' & -> & Hr').
  f_equal. eapply finds_agree; eauto. apply Hok.
Qed.

(** X2: [HandleTable::Insert(h)] into a well-formed table returns what
    [Lookup] of the key of [h] returned before it; after it that [Lookup]
    returns [h], every other key is looked up as before, and the count of
    entries is one more exactly when nothing was replaced.  This holds
    through the [Resize] an insertion may cause. *)
Theorem table_insert_lookup m tb p e :
  table_ok m tb → m !! p = Some e → p ∉ members tb →
  Z.of_nat (length (members tb)) < 2 ^ 31 →
  ∃ tb' old,
    HandleTable.Insert m tb p = Some (tb', old) ∧
    HandleTable.Lookup m tb (key e) (hash e) = Some old ∧
    HandleTable.Lookup m tb' (key e) (hash e) = Some (Some p) ∧
    (∀ k h, (k, h) ≠ (key e, hash e) →
       HandleTable.Lookup m tb' k h = HandleTable.Lookup m tb k h) ∧
    elems_ tb' = elems_ tb + match old with Some _ => 0 | None => 1 end.
Proof.
  intros Hok He Hfresh Hbound.
  destruct (Insert_spec m tb p e Hok He Hfresh Hbound)
    as (tb' & old & HI & Hfinds & Hperm & Hok').
  exists tb', old. split; [done|].
  split; [by apply Lookup_finds|].
  assert (Hp : p ∈ members tb').
  { assert (Hin : p ∈ option_list old ++ members tb')
      by (rewrite <- Hperm; left).
    apply elem_of_app in Hin as [Hin|]; [|done].
    destruct old as [o|]; [|by apply elem_of_nil in Hin].
    apply list_elem_of_singleton in Hin as <-.
    by destruct Hfinds as [? _]. }
  split; [|split].
  - apply Lookup_finds; [done|]. split; [done|]. by exists e.
  - intros k h Hne.
    destruct (Lookup_spec m tb k h Hok) as (r & -> & Hr).
    apply Lookup_finds; [done|]. revert Hr. apply finds_same.
    + intros q Hq.
      assert (Hin : q ∈ p :: members tb).
      { rewrite Hperm. apply elem_of_app. by right. }
      apply elem_of_cons in Hin as [->|]; [|by left].
      right. exists e. split; [done|]. congruence.
    + intros q Hq.
      assert (Hin : q ∈ option_list old ++ members tb').
      { rewrite <- Hperm. by right. }
      apply elem_of_app in Hin as [Hin|]; [|by left].
      destruct old as [o|]; [|by apply elem_of_nil in Hin].
      apply list_elem_of_singleton in Hin as ->.
      destruct Hfinds as (_ & eo & Heo & Hk & Hh).
      right. exists eo. split; [done|]. congruence.
  - rewrite (tok_elems _ _ Hok), (tok_elems _ _ Hok').
    apply Permutation_length in Hperm. rewrite length_app in Hperm.
    simpl in Hperm. destruct old; simpl in Hperm; lia.
Qed.

Lemma table_insert_lookup_witness :
  ∃ tb' old,
    HandleTable.Insert (heap (outcome one_erased 100).1)
      (table_ (outcome one_erased 100).1) 0%nat = Some (tb', old) ∧
    HandleTable.Lookup (heap (outcome one_erased 100).1)
      (table_ (outcome one_erased 100).1) "a" 7 = Some old ∧
    HandleTable.Lookup (heap (outcome one_erased 100).1) tb' "a" 7
      = Some (Some 0%nat) ∧
    (∀ k h, (k, h) ≠ ("a", 7) →
       HandleTable.Lookup (heap (outcome one_erased 100).1) tb' k h =
       HandleTable.Lookup (heap (outcome one_erased 100).1)
         (table_ (outcome one_erased 100).1) k h) ∧
    elems_ tb' = elems_ (table_ (outcome one_erased 100).1)
                 + match old with Some _ => 0 | None => 1 end.
Proof.
  apply (table_insert_lookup (heap (outcome one_erased 100).1)
           (table_ (outcome one_erased 100).1) 0%nat
           (mkLRUHandle 1 0 10 "a" 1 7)).
  - apply (run_fresh_ok one_erased 100 _ (outcome one_erased 100).2).
    + vm_compute. discriminate.
    + vm_compute. reflexivity.
  - vm_compute. reflexivity.
  - vm_compute. by intros ?%list_elem_of_singleton.
  - vm_compute. reflexivity.
Defined.

(** X3: [HandleTable::Remove(key, hash)] from a well-formed table returns
    what [Lookup] returned before it; after it that [Lookup] returns NULL
    and every other key is looked up as before.  Removing a key that is
    not there leaves the table as it is; otherwise the count of entries is
    one less. *)
Theorem table_remove_lookup m tb k h :
  table_ok m tb →
  ∃ tb' r,
    HandleTable.Remove m tb k h = Some (tb', r) ∧
    HandleTable.Lookup m tb k h = Some r ∧
    HandleTable.Lookup m tb' k h = Some None ∧
    (∀ k' h', (k', h') ≠ (k, h) →
       HandleTable.Lookup m tb' k' h' = HandleTable.Lookup m tb k' h') ∧
    elems_ tb' = elems_ tb - match r with Some _ => 1 | None => 0 end ∧
    (r = None → tb' = tb).
Proof.
  intros Hok.
  destruct (Remove_spec m tb k h Hok) as (tb' & r & HR & Hfinds & Hperm & Hok').
  exists tb', r. split; [done|]. split; [by apply Lookup_finds|].
  pose proof (tok_nodup _ _ Hok) as Hnd. rewrite Hperm in Hnd.
  split; [|split; [|split]].
  - apply Lookup_finds; [done|]. intros q e Hq He [Hk Hh].
    assert (HqM : q ∈ members tb) by (rewrite Hperm; apply elem_of_app; auto).
    destruct r as [p|]; [|by apply (Hfinds q e HqM He)].
    destruct Hfinds as (Hp & ep & Hep & Hkp & Hhp).
    assert (q = p) as -> by (eapply (tok_inj _ _ Hok); eauto; congruence).
    simpl in Hnd. by apply list.NoDup_cons in Hnd as [? _].
  - intros k' h' Hne.
    destruct (Lookup_spec m tb k' h' Hok) as (r' & -> & Hr').
    apply Lookup_finds; [done|]. revert Hr'. apply finds_same.
    + intros q Hq. left. rewrite Hperm. apply elem_of_app. auto.
    + intros q Hq. rewrite Hperm in Hq.
      apply elem_of_app in Hq as [Hq|]; [|by left].
      destruct r as [p|]; [|by apply elem_of_nil in Hq].
      apply list_elem_of_singleton in Hq as ->.
      destruct Hfinds as (_ & ep & Hep & Hkp & Hhp).
      right. exists ep. split; [done|]. congruence.
  - rewrite (tok_elems _ _ Hok), (tok_elems _ _ Hok').
    apply Permutation_length in Hperm. rewrite length_app in Hperm.
    destruct r; simpl in Hperm; lia.
  - intros ->. unfold HandleTable.Remove in HR.
    destruct (FindPointer m tb k h) as [slot|]; simpl in HR; [|done].
    destruct (list_ tb !! slot.1) as [c|]; simpl in HR; [|done].
    destruct (c !! slot.2); by simplify_eq.
Qed.

Lemma table_remove_lookup_witness :
  ∃ tb' r,
    HandleTable.Remove (heap (outcome one_erased 100).1)
      (table_ (outcome one_erased 100).1) "b" 9 = Some (tb', r) ∧
    HandleTable.Lookup (heap (outcome one_erased 100).1)
      (table_ (outcome one_erased 100).1) "b" 9 = Some r ∧
    HandleTable.Lookup (heap (outcome one_erased 100).1) tb' "b" 9
      = Some None ∧
    (∀ k' h', (k', h') ≠ ("b", 9) →
       HandleTable.Lookup (heap (outcome one_erased 100).1) tb' k' h' =
       HandleTable.Lookup (heap (outcome one_erased 100).1)
         (table_ (outcome one_erased 100).1) k' h') ∧
    elems_ tb' = elems_ (table_ (outcome one_erased 100).1)
                 - match r with Some _ => 1 | None => 0 end ∧
    (r = None → tb' = table_ (outcome one_erased 100).1).
Proof.
  apply (table_remove_lookup (heap (outcome one_erased 100).1)
           (table_ (outcome one_erased 100).1) "b" 9).
  apply (run_fresh_ok one_erased 100 _ (outcome one_erased 100).2).
  - vm_compute. discriminate.
  - vm_compute. reflexivity.
Defined.

(** * The hash table: the number of buckets *)

Lemma new_length_pow elems f k :
  elems ≤ 2 ^ 31 → 2 ≤ k ≤ 31 → 31 - k < Z.of_nat f →
  ∃ j, k ≤ j ≤ 31 ∧ new_length f (2 ^ k) elems = Some (2 ^ j) ∧ elems ≤ 2 ^ j.
Proof.
  intros He. revert k. induction f as [|f IH]; intros k Hk Hf; [lia|].
  simpl. case_bool_decide as Hlt.
  - assert (k < 31).
    { destruct (decide (k = 31)) as [->|]; lia. }
    replace (wrap32 (2 ^ k * 2)) with (2 ^ (k + 1)).
    + destruct (IH (k + 1)) as (j & Hj & Hnl & Hle); [lia..|].
      exists j. split; [lia|done].
    + rewrite Z.pow_add_r by lia. rewrite wrap32_small; [lia|].
      assert (2 ^ k < 2 ^ 31) by (apply Z.pow_lt_mono_r; lia). lia.
  - exists k. split; [lia|]. split; [done|lia].
Qed.

Lemma Resize_load m tb tb' :
  elems_ tb ≤ 2 ^ 31 → Resize m tb = Some tb' → load_ok tb'.
Proof.
  intros Hsm. unfold Resize.
  destruct (new_length_pow (elems_ tb) 32 2) as (j & Hj & Hnl & Hle); [lia..|].
  change (2 ^ 2) with 4 in Hnl. rewrite Hnl. simpl.
  destruct (foldl _ _ _) as [new_list|]; simpl; [|done].
  case_bool_decide; [|done]. intros [= <-].
  split; simpl; [done|]. exists j. split; [lia|done].
Qed.

Lemma table_Insert_load m tb p tb' old :
  0 ≤ elems_ tb < 2 ^ 31 → load_ok tb →
  HandleTable.Insert m tb p = Some (tb', old) → load_ok tb'.
Proof.
  intros Hsm Hload. unfold HandleTable.Insert.
  destruct (m !! p) as [e|]; simpl; [|done].
  destruct (FindPointer m tb (key e) (hash e)) as [slot|]; simpl; [|done].
  destruct (list_ tb !! slot.1) as [c|]; simpl; [|done].
  destruct (c !! slot.2) as [o|].
  - intros [= <- <-]. done.
  - rewrite wrap32_small by lia. case_bool_decide as Hgt.
    + destruct (Resize _ _) as [tb''|] eqn:HR; simpl; [|done].
      intros [= <- <-]. eapply Resize_load; [|done]. simpl. lia.
    + intros [= <- <-]. destruct Hload as [_ Hpow]. split; simpl in *; [lia|done].
Qed.

Lemma table_Remove_load m tb k h tb' r :
  table_ok m tb → load_ok tb →
  HandleTable.Remove m tb k h = Some (tb', r) → load_ok tb'.
Proof.
  intros Hok [Hle Hpow] HR.
  destruct (Remove_spec m tb k h Hok) as (tb0 & r0 & HR0 & _ & Hperm & Hok').
  rewrite HR in HR0. injection HR0 as <- <-.
  assert (Hlen : length_ tb' = length_ tb).
  { unfold HandleTable.Remove in HR.
    destruct (FindPointer m tb k h) as [slot|]; simpl in HR; [|done].
    destruct (list_ tb !! slot.1) as [c|]; simpl in HR; [|done].
    destruct (c !! slot.2); by simplify_eq. }
  split; rewrite Hlen; [|done].
  rewrite (tok_elems _ _ Hok'). rewrite (tok_elems _ _ Hok) in Hle.
  apply Permutation_length in Hperm. rewrite length_app in Hperm. lia.
Qed.

Lemma Unref_table s p s' : Unref s p = Some s' → table_ s' = table_ s.
Proof.
  unfold Unref. destruct (heap s !! p) as [e|]; simpl; [|done].
  case_bool_decide; [|done]. case_bool_decide; by intros [= <-].
Qed.

Lemma evict_load fuel : ∀ s H s',
  shard_ok s H → load_ok (table_ s) →
  evict fuel s = Some s' → load_ok (table_ s').
Proof.
  induction fuel as [|fuel IH]; intros s H s' Hs Hload.
  - simpl. destruct (lru_ s); [by intros [= <-]|].
    case_bool_decide; [done|by intros [= <-]].
  - destruct (decide (lru_ s = [] ∨ usage_ s ≤ capacity_ s)) as [Hstop|Hgo].
    { rewrite evict_halt by done. by intros [= <-]. }
    destruct (lru_ s) as [|old l] eqn:Hl; [destruct Hgo; auto|].
    pose proof Hs as (Hok & Hinv & _).
    assert (Hin : old ∈ members (table_ s)).
    { rewrite <- (si_ring _ _ _ Hinv), Hl. left. }
    destruct (si_live _ _ _ Hinv old Hin) as [e He].
    destruct (retire_spec s H old e Hs Hin He) as (tb' & HR & HU & Hs' & _).
    simpl. rewrite Hl. rewrite bool_decide_true by lia.
    rewrite He. simpl. rewrite HR. simpl. rewrite <- Hl, HU.
    apply (IH _ H s' Hs').
    unfold retired. rewrite dropped_table. simpl.
    by eapply table_Remove_load.
Qed.

(** The stages of [Insert]: allocation, [table_.Insert], [Unref] of the
    entry it replaces, the eviction loop. *)
Lemma Insert_stages s H k h v c d :
  shard_ok s H → Z.of_nat (brk s) < 2 ^ 31 →
  0 ≤ h < 2 ^ 32 → 0 ≤ c < 2 ^ 64 →
  ∃ tb' old s3 s',
    HandleTable.Insert (heap (allocated s k h v c d)) (table_ s) (brk s)
      = Some (tb', old) ∧
    finds (heap s) (members (table_ s)) k h old ∧
    table_ s3 = tb' ∧
    lru_ s3 = unlink (lru_ s ++ [brk s]) old ∧
    usage_ s3 = match old with
                | Some o =>
                    match heap s !! o with
                    | Some eo =>
                        if bool_decide (refs eo = 1)
                        then wrap64 (wrap64 (usage_ s + c) - charge eo)
                        else wrap64 (usage_ s + c)
                    | None => wrap64 (usage_ s + c)
                    end
                | None => wrap64 (usage_ s + c)
                end ∧
    capacity_ s3 = capacity_ s ∧
    shard_ok s3 (brk s :: H) ∧
    evict (length (lru_ s3)) s3 = Some s' ∧
    LRUCache.Insert s k h v c d = Some (s', brk s).
Proof.
  intros Hs Hbrk Hh Hc.
  destruct (Insert_pre s H k h v c d Hs Hbrk Hh Hc)
    as (tb' & old & s3 & HI & Hfinds & Hperm & Hs3 & Hok3).
  destruct (evict_ok (length (lru_ s3)) s3 _ Hok3 (le_n _))
    as (s' & He & Hs' & _).
  exists tb', old, s3, s'. split; [done|]. split; [done|].
  assert (Hins : LRUCache.Insert s k h v c d = Some (s', brk s)).
  { rewrite Insert_unfold, HI, bind_Some. cbv beta. cbn [fst snd].
    destruct old as [o|].
    - destruct Hs3 as (eo & Heo & ->).
      pose proof Hs as (_ & Hinv & _).
      rewrite Unref_dropped with (e := eo).
      + by rewrite bind_Some, He.
      + simpl. rewrite lookup_insert_ne; [done|].
        intros <-. pose proof (fresh_brk s (proj2 (proj2 Hs))). congruence.
      + pose proof (si_typed _ _ _ Hinv o eo Heo). lia.
    - subst s3. by rewrite bind_Some, He. }
  destruct old as [o|].
  - destruct Hs3 as (eo & Heo & ->). rewrite Heo.
    split; [by rewrite dropped_table|].
    split; [by rewrite dropped_lru|].
    split; [rewrite dropped_usage; by case_bool_decide|].
    split; [by rewrite dropped_capacity|]. done.
  - by subst s3.
Qed.

Lemma run_invariant (P : LRUCache.t → Prop) :
  (∀ o s H σ1, shard_ok s H →
     Z.of_nat (brk s) < 2 ^ 31 → Z.of_nat (length H) < 2 ^ 31 →
     P s → step o (s, H) = Some σ1 → P σ1.1) →
  ∀ ops σ σ', shard_ok σ.1 σ.2 →
    Z.of_nat (brk σ.1) + Z.of_nat (length ops) ≤ 2 ^ 31 →
    Z.of_nat (length σ.2) + Z.of_nat (length ops) ≤ 2 ^ 31 →
    P σ.1 → run ops σ = Some σ' → P σ'.1.
Proof.
  intros Hstep ops. induction ops as [|o ops IH]; intros [s H] σ' Hs Hb HH HP.
  - by intros [= <-].
  - simpl in Hs, Hb, HH, HP. rewrite run_cons.
    destruct (step o (s, H)) as [σ1|] eqn:Hst; [|done]. simpl.
    pose proof (step_brk _ _ _ Hst) as [Hb1 HH1]. simpl in Hb1, HH1.
    apply IH.
    + eapply step_shard_ok; eauto; lia.
    + lia.
    + lia.
    + eapply Hstep; eauto; lia.
Qed.

Lemma step_load o s H σ1 :
  shard_ok s H →
  Z.of_nat (brk s) < 2 ^ 31 → Z.of_nat (length H) < 2 ^ 31 →
  load_ok (table_ s) → step o (s, H) = Some σ1 → load_ok (table_ σ1.1).
Proof.
  intros Hs Hb HH Hload. pose proof Hs as (Hok & Hinv & _).
  destruct o; simpl.
  - case_bool_decide as Hty; [|done]. destruct Hty as [Hh Hc].
    destruct (Insert_stages s H k h v c d Hs Hb Hh Hc)
      as (tb' & old & s3 & s' & HI & _ & Ht3 & _ & _ & _ & Hs3 & He & ->).
    simpl. intros [= <-]. simpl.
    eapply evict_load; [done| |done]. rewrite Ht3.
    eapply table_Insert_load; [|done|done].
    rewrite (tok_elems _ _ Hok). split; [lia|].
    pose proof (nodup_bounded_length (members (table_ s)) (brk s)
      (tok_nodup _ _ Hok)) as Hlen.
    assert (length (members (table_ s)) ≤ brk s)%nat; [|lia].
    apply Hlen. intros p Hp.
    destruct (si_live _ _ _ Hinv p Hp) as [e He']. apply Hs. eauto.
  - unfold LRUCache.Lookup.
    destruct (HandleTable.Lookup _ _ _ _) as [[e|]|]; simpl; [| |done].
    + destruct (heap s !! e); simpl; [|done]. by intros [= <-].
    + by intros [= <-].
  - case_bool_decide; [|done].
    destruct (LRUCache.Release s handle) as [s1|] eqn:HR; simpl; [|done].
    intros [= <-]. simpl. by rewrite (Unref_table _ _ _ HR).
  - destruct (LRUCache.Erase s k h) as [s1|] eqn:HE; simpl; [|done].
    intros [= <-]. simpl. unfold LRUCache.Erase in HE.
    destruct (HandleTable.Remove _ _ _ _) as [[tb' r]|] eqn:HR; simpl in HE;
      [|done].
    destruct r as [e|]; [|by simplify_eq].
    rewrite (Unref_table _ _ _ HE). simpl. by eapply table_Remove_load.
Qed.

Lemma load_ok_init : load_ok HandleTable.init.
Proof. split; [done|]. exists 2. done. Qed.

(** X4: in every state a shard reaches, the number of buckets of its hash
    table is a power of two, at least 4, and at least the number of
    entries, which is the number of handles chained in the buckets: a
    chain has one entry on average at most, and the table never shrinks
    below four buckets. *)
Theorem table_load_factor ops c s H :
  Z.of_nat (length ops) ≤ 2 ^ 31 →
  run ops (fresh c) = Some (s, H) →
  elems_ (table_ s) = Z.of_nat (length (members (table_ s))) ∧
  elems_ (table_ s) ≤ length_ (table_ s) ∧
  (∃ k, 2 ≤ k ≤ 31 ∧ length_ (table_ s) = 2 ^ k) ∧
  length (list_ (table_ s)) = Z.to_nat (length_ (table_ s)).
Proof.
  intros Hlen Hrun.
  destruct (run_fresh_ok ops c s H Hlen Hrun) as ((Hok & _) & _).
  destruct (run_invariant (λ s, load_ok (table_ s)) step_load ops
              (fresh c) (s, H)) as [Hle Hpow]; simpl; try done; try lia.
  - apply (shard_ok_fresh c).
  - apply load_ok_init.
  - split; [apply Hok|]. split; [done|]. split; [done|]. apply Hok.
Qed.

Lemma table_load_factor_witness :
  elems_ (table_ (outcome one_erased 100).1) =
    Z.of_nat (length (members (table_ (outcome one_erased 100).1))) ∧
  elems_ (table_ (outcome one_erased 100).1) ≤
    length_ (table_ (outcome one_erased 100).1) ∧
  (∃ k, 2 ≤ k ≤ 31 ∧ length_ (table_ (outcome one_erased 100).1) = 2 ^ k) ∧
  length (list_ (table_ (outcome one_erased 100).1)) =
    Z.to_nat (length_ (table_ (outcome one_erased 100).1)).
Proof.
  apply (table_load_factor one_erased 100 _ (outcome one_erased 100).2).
  - vm_compute. discriminate.
  - vm_compute. reflexivity.
Defined.

(** * One shard: what every reachable state allows and keeps *)

(** X5: from every state a shard reaches, every call a client may make
    returns: [Insert] with arguments of their C types, [Lookup] and
    [Erase] of any key, present or not, [Release] and [Value] of any
    handle the client holds.  No [assert] fails and no handle that was
    freed is read. *)
Theorem shard_calls_return ops c s H :
  Z.of_nat (length ops) < 2 ^ 31 →
  run ops (fresh c) = Some (s, H) →
  (∀ k h v ch d, 0 ≤ h < 2 ^ 32 → 0 ≤ ch < 2 ^ 64 →
     is_Some (LRUCache.Insert s k h v ch d)) ∧
  (∀ k h, is_Some (LRUCache.Lookup s k h)) ∧
  (∀ k h, is_Some (LRUCache.Erase s k h)) ∧
  (∀ p, p ∈ H →
     is_Some (LRUCache.Release s p) ∧ is_Some (LRUCache.Value s p)).
Proof.
  intros Hlen Hrun.
  destruct (run_fresh_ok ops c s H) as (Hs & Hb & HH); [lia|done|].
  split; [|split; [|split]].
  - intros k h v ch d Hh Hch.
    destruct (Insert_ok s H k h v ch d Hs) as (s' & -> & _); [lia|done..|].
    by eexists.
  - intros k h.
    destruct (Lookup_ok s H k h Hs) as (s' & r & -> & _); [lia|]. by eexists.
  - intros k h.
    destruct (Erase_spec s H k h Hs) as (s' & r & -> & _). by eexists.
  - intros p Hp.
    destruct (Release_spec s H p Hs Hp) as (e & He & -> & _).
    split; [by eexists|]. unfold LRUCache.Value. rewrite He. by eexists.
Qed.

Lemma shard_calls_return_witness :
  (∀ k h v ch d, 0 ≤ h < 2 ^ 32 → 0 ≤ ch < 2 ^ 64 →
     is_Some (LRUCache.Insert (outcome one_erased 100).1 k h v ch d)) ∧
  (∀ k h, is_Some (LRUCache.Lookup (outcome one_erased 100).1 k h)) ∧
  (∀ k h, is_Some (LRUCache.Erase (outcome one_erased 100).1 k h)) ∧
  (∀ p, p ∈ (outcome one_erased 100).2 →
     is_Some (LRUCache.Release (outcome one_erased 100).1 p) ∧
     is_Some (LRUCache.Value (outcome one_erased 100).1 p)).
Proof.
  apply (shard_calls_return one_erased 100).
  - vm_compute. reflexivity.
  - vm_compute. reflexivity.
Defined.

(** X6: in every state a shard reaches in at most 2^31 calls, with handles
    released only while held, the LRU ring holds exactly the entries of the
    hash table, each once; no two of them have the same key and hash, and
    the table's [Lookup] of the key and hash of each returns that entry. *)
Theorem ring_is_table ops c s H :
  Z.of_nat (length ops) ≤ 2 ^ 31 →
  run ops (fresh c) = Some (s, H) →
  lru_ s ≡ₚ members (table_ s) ∧ NoDup (lru_ s) ∧
  (∀ p q e e', p ∈ lru_ s → q ∈ lru_ s →
     heap s !! p = Some e → heap s !! q = Some e' →
     key e = key e' → hash e = hash e' → p = q) ∧
  (∀ p, p ∈ lru_ s →
     ∃ e, heap s !! p = Some e ∧
       HandleTable.Lookup (heap s) (table_ s) (key e) (hash e) = Some (Some p)).
Proof.
  intros Hlen Hrun.
  destruct (run_fresh_ok ops c s H Hlen Hrun) as (Hs & _).
  pose proof Hs as (Hok & Hinv & _).
  split; [apply Hinv|]. split; [by eapply shard_ok_ring_nodup|].
  split.
  - intros p q e e' Hp Hq. apply (tok_inj _ _ Hok);
      by apply (shard_ok_ring s H _ Hs).
  - intros p Hp. apply (shard_ok_ring s H _ Hs) in Hp.
    destruct (si_live _ _ _ Hinv p Hp) as [e He]. exists e. split; [done|].
    apply Lookup_finds; [done|]. split; [done|]. by exists e.
Qed.

Lemma ring_is_table_witness :
  lru_ (outcome two_entries 100).1 ≡ₚ
    members (table_ (outcome two_entries 100).1) ∧
  NoDup (lru_ (outcome two_entries 100).1) ∧
  (∀ p q e e', p ∈ lru_ (outcome two_entries 100).1 →
     q ∈ lru_ (outcome two_entries 100).1 →
     heap (outcome two_entries 100).1 !! p = Some e →
     heap (outcome two_entries 100).1 !! q = Some e' →
     key e = key e' → hash e = hash e' → p = q) ∧
  (∀ p, p ∈ lru_ (outcome two_entries 100).1 →
     ∃ e, heap (outcome two_entries 100).1 !! p = Some e ∧
       HandleTable.Lookup (heap (outcome two_entries 100).1)
         (table_ (outcome two_entries 100).1) (key e) (hash e)
         = Some (Some p)).
Proof.
  apply (ring_is_table two_entries 100 _ (outcome two_entries 100).2).
  - vm_compute. discriminate.
  - vm_compute. reflexivity.
Defined.

(** X7: in every state a shard reaches in at most 2^31 calls, with handles
    released only while held, the reference count of an allocated entry is
    the number of handles clients hold on it, plus one while it is in the
    cache; and an entry is allocated exactly when it is in the cache or a
    client holds a handle on it: nothing is freed early and nothing that no
    one can reach stays allocated. *)
Theorem refs_count_handles ops c s H :
  Z.of_nat (length ops) ≤ 2 ^ 31 →
  run ops (fresh c) = Some (s, H) →
  (∀ p e, heap s !! p = Some e →
     refs e = Z.of_nat (held H p) + (if bool_decide (p ∈ lru_ s) then 1 else 0)) ∧
  (∀ p, is_Some (heap s !! p) ↔ p ∈ lru_ s ∨ p ∈ H).
Proof.
  intros Hlen Hrun.
  destruct (run_fresh_ok ops c s H Hlen Hrun) as (Hs & _).
  pose proof Hs as (Hok & Hinv & _).
  split.
  - intros p e He. rewrite (si_refs _ _ _ Hinv p e He).
    by rewrite (bool_decide_ext _ _ (shard_ok_ring s H p Hs)).
  - intros p. split.
    + intros [e He].
      destruct (decide (p ∈ members (table_ s))) as [HM|HM];
        [left; by apply (shard_ok_ring s H)|].
      destruct (decide (p ∈ H)) as [|HH]; [by right|].
      rewrite (shard_ok_unheld s H p Hs HM HH) in He. done.
    + intros [Hp|Hp]; [|by apply (si_held _ _ _ Hinv)].
      apply (si_live _ _ _ Hinv). by apply (shard_ok_ring s H).
Qed.

Lemma refs_count_handles_witness :
  (∀ p e, heap (outcome two_entries 100).1 !! p = Some e →
     refs e = Z.of_nat (held (outcome two_entries 100).2 p) +
              (if bool_decide (p ∈ lru_ (outcome two_entries 100).1)
               then 1 else 0)) ∧
  (∀ p, is_Some (heap (outcome two_entries 100).1 !! p) ↔
     p ∈ lru_ (outcome two_entries 100).1 ∨ p ∈ (outcome two_entries 100).2).
Proof.
  apply (refs_count_handles two_entries 100).
  - vm_compute. discriminate.
  - vm_compute. reflexivity.
Defined.

(** * One shard: Lookup and Erase *)

(** X8: [Lookup] from a state a shard reaches in fewer than 2^31 calls,
    with handles released only while held.  A miss returns NULL and
    changes nothing, and then no entry of the cache has the key and hash.
    A hit returns the entry of the cache with the key and hash, adds one to
    its reference count and makes it the newest of the ring, the others
    keeping their order.  In both cases the table, the usage, the capacity
    and the deleter calls stay. *)
Theorem lookup_effect ops c s H k h :
  Z.of_nat (length ops) < 2 ^ 31 →
  run ops (fresh c) = Some (s, H) →
  ∃ s' r, LRUCache.Lookup s k h = Some (s', r) ∧
    usage_ s' = usage_ s ∧ capacity_ s' = capacity_ s ∧
    table_ s' = table_ s ∧ deleted s' = deleted s ∧
    match r with
    | None =>
        s' = s ∧
        ∀ p e, p ∈ lru_ s → heap s !! p = Some e → ¬ (key e = k ∧ hash e = h)
    | Some p =>
        ∃ e, p ∈ lru_ s ∧ heap s !! p = Some e ∧ key e = k ∧ hash e = h ∧
          heap s' = <[p:=set_refs e (refs e + 1)]> (heap s) ∧
          lru_ s' = filter (λ x, x ≠ p) (lru_ s) ++ [p]
    end.
Proof.
  intros Hlen Hrun.
  destruct (run_fresh_ok ops c s H) as (Hs & Hb & HH); [lia|done|].
  pose proof Hs as (Hok & Hinv & _).
  destruct (Lookup_ok s H k h Hs) as (s' & r & HL & Hfinds & _ & Hshape); [lia|].
  exists s', r. split; [done|]. destruct r as [p|].
  - destruct Hshape as (e & He & ->).
    destruct Hfinds as (Hp & e' & He' & Hk & Hh).
    assert (e' = e) as -> by congruence.
    do 4 (split; [done|]). exists e.
    split; [by apply (shard_ok_ring s H)|]. do 3 (split; [done|]).
    split; [|done]. simpl.
    pose proof (si_refs _ _ _ Hinv p e He) as Hrefs.
    pose proof (held_le_length H p).
    rewrite bool_decide_true in Hrefs by done.
    by rewrite wrap32_small by lia.
  - subst s'. do 4 (split; [done|]). split; [done|].
    intros p e Hp. apply Hfinds. by apply (shard_ok_ring s H).
Qed.

Lemma lookup_effect_witness :
  ∃ s' r, LRUCache.Lookup (outcome two_entries 100).1 "a" 7 = Some (s', r) ∧
    usage_ s' = usage_ (outcome two_entries 100).1 ∧
    capacity_ s' = capacity_ (outcome two_entries 100).1 ∧
    table_ s' = table_ (outcome two_entries 100).1 ∧
    deleted s' = deleted (outcome two_entries 100).1 ∧
    match r with
    | None =>
        s' = (outcome two_entries 100).1 ∧
        ∀ p e, p ∈ lru_ (outcome two_entries 100).1 →
          heap (outcome two_entries 100).1 !! p = Some e →
          ¬ (key e = "a" ∧ hash e = 7)
    | Some p =>
        ∃ e, p ∈ lru_ (outcome two_entries 100).1 ∧
          heap (outcome two_entries 100).1 !! p = Some e ∧
          key e = "a" ∧ hash e = 7 ∧
          heap s' = <[p:=set_refs e (refs e + 1)]>
                      (heap (outcome two_entries 100).1) ∧
          lru_ s' = filter (λ x, x ≠ p) (lru_ (outcome two_entries 100).1)
                    ++ [p]
    end.
Proof.
  apply (lookup_effect two_entries 100 _ (outcome two_entries 100).2).
  - vm_compute. reflexivity.
  - vm_compute. reflexivity.
Defined.

(** X9: [Erase] from a state a shard reaches in fewer than 2^31 calls,
    with handles released only while held.  Erasing a key that is not
    in the cache changes nothing.  Erasing one that is takes its entry out
    of the table and the ring, the others keeping their order, and leaves
    every other entry as it is; if no client holds a handle on the entry it
    is freed at once, its deleter is called and its charge leaves the
    usage; otherwise it stays allocated with its value and its charge, and
    its deleter is not called.  A [Lookup] of the key right after [Erase]
    returns NULL in every case. *)
Theorem erase_effect ops c s H k h :
  Z.of_nat (length ops) < 2 ^ 31 →
  run ops (fresh c) = Some (s, H) →
  ∃ s' r,
    HandleTable.Lookup (heap s) (table_ s) k h = Some r ∧
    LRUCache.Erase s k h = Some s' ∧
    LRUCache.Lookup s' k h = Some (s', None) ∧
    capacity_ s' = capacity_ s ∧
    match r with
    | None => s' = s
    | Some p =>
        (p ∉ members (table_ s')) ∧
        lru_ s' = filter (λ x, x ≠ p) (lru_ s) ∧
        (∀ q, q ≠ p → heap s' !! q = heap s !! q) ∧
        ∃ e, heap s !! p = Some e ∧
          if bool_decide (p ∈ H)
          then LRUCache.Value s' p = Some (value e) ∧ calls s' p = 0%nat ∧
               usage_ s' = usage_ s
          else heap s' !! p = None ∧ calls s' p = 1%nat ∧
               usage_ s' = wrap64 (usage_ s - charge e)
    end.
Proof.
  intros Hlen Hrun.
  destruct (run_fresh_ok ops c s H) as (Hs & Hb & HH); [lia|done|].
  pose proof Hs as (Hok & Hinv & Hacc).
  destruct (Erase_spec s H k h Hs) as (s' & r & HE & Hfinds & Hs' & Hshape).
  exists s', r. split; [by apply Lookup_finds|]. split; [done|].
  pose proof (Erase_step_ok _ _ _ _ HE) as [Hev _].
  assert (HL : LRUCache.Lookup s' k h = Some (s', None)).
  { destruct (Lookup_ok s' H k h Hs') as (s'' & r' & HL & Hf' & _ & Hsh'); [lia|].
    assert (r' = None) as ->; [|by subst s''].
    destruct r' as [q|]; [exfalso|done].
    destruct Hf' as (Hq & eq & Heq & Hkq & Hhq).
    destruct r as [p|]; [|subst s'; by apply (Hfinds q eq Hq Heq)].
    destruct Hshape as (e & tb' & He & -> & Hperm).
    destruct Hfinds as (Hp & e' & He' & Hk & Hh).
    assert (e' = e) as -> by congruence.
    unfold retired in Hq, Heq. rewrite dropped_table in Hq. simpl in Hq.
    pose proof (tok_nodup _ _ Hok) as Hnd. rewrite Hperm in Hnd.
    apply list.NoDup_cons in Hnd as [Hnp _].
    assert (Hne : q ≠ p) by (intros ->; done).
    rewrite dropped_lookup_ne in Heq by done. simpl in Heq.
    apply Hne. eapply (tok_inj _ _ Hok); eauto; [|congruence..].
    rewrite Hperm. by right. }
  split; [done|]. split; [apply (ev_capacity _ _ Hev)|].
  destruct r as [p|]; [|done].
  destruct Hshape as (e & tb' & He & -> & Hperm).
  destruct Hfinds as (Hp & _).
  pose proof (tok_nodup _ _ Hok) as Hnd. rewrite Hperm in Hnd.
  apply list.NoDup_cons in Hnd as [Hnp _].
  assert (Hpb : (p < brk s)%nat) by (apply Hacc; eauto).
  pose proof (si_refs _ _ _ Hinv p e He) as Hrefs.
  rewrite bool_decide_true in Hrefs by done.
  pose proof (held_pos H p) as Hheld.
  destruct Hs' as (_ & _ & Hacc').
  pose proof (acc_calls _ Hacc' p) as Hcalls.
  unfold retired in *.
  rewrite dropped_table, dropped_lru. simpl.
  split; [done|]. split; [done|].
  split; [intros q Hq; by rewrite dropped_lookup_ne|].
  exists e. split; [done|].
  rewrite dropped_brk in Hcalls. simpl in Hcalls.
  rewrite Hcalls by done. unfold LRUCache.Value.
  rewrite dropped_usage, dropped_lookup_eq. simpl.
  case_bool_decide as HpH.
  - apply Hheld in HpH. rewrite bool_decide_false by lia. done.
  - apply held_absent in HpH. rewrite bool_decide_true by lia. done.
Qed.

Lemma erase_effect_witness :
  ∃ s' r,
    HandleTable.Lookup (heap (outcome two_entries 100).1)
      (table_ (outcome two_entries 100).1) "a" 7 = Some r ∧
    LRUCache.Erase (outcome two_entries 100).1 "a" 7 = Some s' ∧
    LRUCache.Lookup s' "a" 7 = Some (s', None) ∧
    capacity_ s' = capacity_ (outcome two_entries 100).1 ∧
    match r with
    | None => s' = (outcome two_entries 100).1
    | Some p =>
        (p ∉ members (table_ s')) ∧
        lru_ s' = filter (λ x, x ≠ p) (lru_ (outcome two_entries 100).1) ∧
        (∀ q, q ≠ p → heap s' !! q = heap (outcome two_entries 100).1 !! q) ∧
        ∃ e, heap (outcome two_entries 100).1 !! p = Some e ∧
          if bool_decide (p ∈ (outcome two_entries 100).2)
          then LRUCache.Value s' p = Some (value e) ∧ calls s' p = 0%nat ∧
               usage_ s' = usage_ (outcome two_entries 100).1
          else heap s' !! p = None ∧ calls s' p = 1%nat ∧
               usage_ s' = wrap64 (usage_ (outcome two_entries 100).1 - charge e)
    end.
Proof.
  apply (erase_effect two_entries 100 _ (outcome two_entries 100).2).
  - vm_compute. reflexivity.
  - vm_compute. reflexivity.
Defined.

(** * One shard: Insert and the capacity *)

Lemma Lookup_resident s H p e :
  shard_ok s H → Z.of_nat (length H) < 2 ^ 32 - 2 →
  p ∈ lru_ s → heap s !! p = Some e →
  ∃ s', LRUCache.Lookup s (key e) (hash e) = Some (s', Some p) ∧
    LRUCache.Value s' p = Some (value e).
Proof.
  intros Hs HH Hp He. pose proof Hs as (Hok & _).
  apply (shard_ok_ring s H p Hs) in Hp.
  destruct (Lookup_ok s H (key e) (hash e) Hs HH)
    as (s' & r & HL & Hfinds & _ & Hshape).
  assert (r = Some p) as -> by (eapply finds_unique; eauto; apply Hok).
  destruct Hshape as (e' & He' & ->). exists (touched s p e').
  split; [done|]. unfold LRUCache.Value, touched. simpl.
  rewrite lookup_insert_eq. simpl. congruence.
Qed.

Lemma total_charge_only m p e :
  m !! p = Some e → (∀ q, q ≠ p → m !! q = None) → total_charge m = charge e.
Proof.
  intros He Hnone.
  assert (m = <[p:=e]> ∅) as ->.
  { apply map_eq. intros q. destruct (decide (q = p)) as [->|Hne].
    - by rewrite lookup_insert_eq.
    - rewrite lookup_insert_ne by done. rewrite lookup_empty. by apply Hnone. }
  rewrite total_charge_insert by apply lookup_empty.
  rewrite total_charge_empty. lia.
Qed.

(** X10: [Insert] from a state a shard reaches in fewer than 2^31 calls,
    with handles released only while held, returns, and then the usage is
    within the capacity or the ring is empty.  The ring is then what is
    left of the old ring, without the entry that had the key and with the
    new entry at its newest end, after a number of its oldest entries
    were evicted; the new entry is among those left exactly when the usage
    is within the capacity. *)
Theorem insert_respects_capacity ops c s H k h v ch d :
  Z.of_nat (length ops) < 2 ^ 31 →
  run ops (fresh c) = Some (s, H) →
  0 ≤ h < 2 ^ 32 → 0 ≤ ch < 2 ^ 64 →
  ∃ s' old j,
    LRUCache.Insert s k h v ch d = Some (s', brk s) ∧
    HandleTable.Lookup (heap s) (table_ s) k h = Some old ∧
    lru_ s' = drop j (match old with
                      | Some o => filter (λ x, x ≠ o) (lru_ s ++ [brk s])
                      | None => lru_ s ++ [brk s]
                      end) ∧
    (lru_ s' = [] ∨ usage_ s' ≤ capacity_ s') ∧
    (brk s ∈ lru_ s' ↔ usage_ s' ≤ capacity_ s') ∧
    capacity_ s' = c.
Proof.
  intros Hlen Hrun Hh Hch.
  destruct (run_fresh_ok ops c s H) as (Hs & Hb & HH); [lia|done|].
  destruct (Insert_full s H k h v ch d Hs) as
    (s' & old & j & HI & Hs' & Hfinds & Hl & Hiff & Hcap & _); try done; try lia.
  exists s', old, j. split; [done|].
  split; [apply Lookup_finds; [apply Hs|done]|].
  split; [by destruct old|]. split; [done|]. split; [done|].
  pose proof (Insert_step_ok _ _ _ _ _ _ _ _ HI) as [Hev _].
  rewrite (ev_capacity _ _ Hev). by eapply run_capacity.
Qed.

Lemma insert_respects_capacity_witness :
  ∃ s' old j,
    LRUCache.Insert (outcome two_released 100).1 "c" 11 3 30 0
      = Some (s', brk (outcome two_released 100).1) ∧
    HandleTable.Lookup (heap (outcome two_released 100).1)
      (table_ (outcome two_released 100).1) "c" 11 = Some old ∧
    lru_ s' = drop j (match old with
                      | Some o =>
                          filter (λ x, x ≠ o)
                            (lru_ (outcome two_released 100).1 ++
                             [brk (outcome two_released 100).1])
                      | None =>
                          lru_ (outcome two_released 100).1 ++
                          [brk (outcome two_released 100).1]
                      end) ∧
    (lru_ s' = [] ∨ usage_ s' ≤ capacity_ s') ∧
    (brk (outcome two_released 100).1 ∈ lru_ s' ↔ usage_ s' ≤ capacity_ s') ∧
    capacity_ s' = 100.
Proof.
  apply (insert_respects_capacity two_released 100 _
           (outcome two_released 100).2).
  - vm_compute. reflexivity.
  - vm_compute. reflexivity.
  - lia.
  - lia.
Defined.

(** X11: an [Insert] that fits evicts nothing, on a shard that has served
    fewer than 2^31 calls, with handles released only while held.  If the
    charges of the entries of the shard that are not freed yet, plus the
    charge of the new entry, are within the capacity, the ring after
    [Insert] is the old ring without the entry that had the key and with the
    new entry at its newest end, and a [Lookup] of the key returns the new
    entry, with its value behind [Value]. *)
Theorem insert_within_capacity ops c s H k h v ch d :
  Z.of_nat (length ops) < 2 ^ 31 →
  run ops (fresh c) = Some (s, H) →
  0 ≤ h < 2 ^ 32 → 0 ≤ ch →
  total_charge (heap s) + ch ≤ c → c < 2 ^ 64 →
  ∃ s' s'' old,
    LRUCache.Insert s k h v ch d = Some (s', brk s) ∧
    HandleTable.Lookup (heap s) (table_ s) k h = Some old ∧
    lru_ s' = match old with
              | Some o => filter (λ x, x ≠ o) (lru_ s ++ [brk s])
              | None => lru_ s ++ [brk s]
              end ∧
    usage_ s' ≤ c ∧
    LRUCache.Lookup s' k h = Some (s'', Some (brk s)) ∧
    LRUCache.Value s'' (brk s) = Some v.
Proof.
  intros Hlen Hrun Hh Hch Hfit Hc.
  destruct (run_fresh_ok ops c s H) as (Hs & Hb & HH); [lia|done|].
  pose proof (run_capacity _ _ _ _ Hrun) as Hcap.
  pose proof Hs as (Hok & Hinv & Hacc).
  pose proof (total_charge_nonneg (heap s)
    (λ q e, shard_ok_charges s H q e Hs)) as Hpos.
  pose proof (shard_ok_usage s H Hs ltac:(lia)) as Husage.
  destruct (Insert_stages s H k h v ch d Hs) as
    (tb' & old & s3 & s' & _ & Hfinds & _ & Hl3 & Hu3 & Hc3 & Hs3 & He & HI);
    try done; try lia.
  assert (Hfit3 : usage_ s3 ≤ capacity_ s3).
  { rewrite Hu3, Hc3, Hcap, Husage.
    destruct old as [o|]; [|rewrite wrap64_small; lia].
    destruct (heap s !! o) as [eo|] eqn:Heo; [|rewrite wrap64_small; lia].
    case_bool_decide; [|rewrite wrap64_small; lia].
    pose proof (total_charge_ge (heap s) o eo
      (λ q e, shard_ok_charges s H q e Hs) Heo).
    pose proof (shard_ok_charges s H o eo Hs Heo).
    rewrite (wrap64_small (total_charge (heap s) + ch)) by lia.
    rewrite wrap64_small; lia. }
  rewrite evict_halt in He by auto. injection He as <-.
  destruct (Insert_full s H k h v ch d Hs) as
    (s' & old' & j & HI' & _ & _ & _ & Hiff & _ & (e' & He' & Hd) & _);
    try done; try lia.
  rewrite HI in HI'. injection HI' as <-.
  apply same_data_fields in Hd as (Hv & _ & _ & Hk & Hh'). simpl in *.
  destruct (Lookup_resident s3 (brk s :: H) (brk s) e' Hs3) as (s'' & HL & HV).
  { simpl. lia. }
  { apply Hiff. done. }
  { done. }
  rewrite Hk, Hh' in HL. rewrite Hv in HV.
  exists s3, s'', old. split; [done|].
  split; [by apply Lookup_finds|]. split; [by destruct old|].
  split; [by rewrite <- Hcap, <- Hc3|]. done.
Qed.

Lemma insert_within_capacity_witness :
  ∃ s' s'' old,
    LRUCache.Insert (outcome two_entries 100).1 "a" 7 3 30 0
      = Some (s', brk (outcome two_entries 100).1) ∧
    HandleTable.Lookup (heap (outcome two_entries 100).1)
      (table_ (outcome two_entries 100).1) "a" 7 = Some old ∧
    lru_ s' = match old with
              | Some o =>
                  filter (λ x, x ≠ o)
                    (lru_ (outcome two_entries 100).1 ++
                     [brk (outcome two_entries 100).1])
              | None =>
                  lru_ (outcome two_entries 100).1 ++
                  [brk (outcome two_entries 100).1]
              end ∧
    usage_ s' ≤ 100 ∧
    LRUCache.Lookup s' "a" 7
      = Some (s'', Some (brk (outcome two_entries 100).1)) ∧
    LRUCache.Value s'' (brk (outcome two_entries 100).1) = Some 3.
Proof.
  apply (insert_within_capacity two_entries 100 _
           (outcome two_entries 100).2).
  - vm_compute. reflexivity.
  - vm_compute. reflexivity.
  - lia.
  - lia.
  - vm_compute. discriminate.
  - lia.
Defined.

Lemma Insert_Lookup_alone s k h v ch d :
  shard_ok s [] → Z.of_nat (brk s) < 2 ^ 31 →
  0 ≤ h < 2 ^ 32 → 0 ≤ ch < 2 ^ 64 → ch ≤ capacity_ s →
  ∃ s' s'',
    LRUCache.Insert s k h v ch d = Some (s', brk s) ∧
    usage_ s' ≤ capacity_ s ∧
    LRUCache.Lookup s' k h = Some (s'', Some (brk s)) ∧
    LRUCache.Value s'' (brk s) = Some v.
Proof.
  intros Hs Hb Hh Hch Hfit.
  destruct (Insert_full s [] k h v ch d Hs) as
    (s' & old & j & HI & Hs' & _ & _ & Hiff & Hdone & (e' & He' & Hd) & _);
    try done; try lia.
  pose proof (Insert_step_ok _ _ _ _ _ _ _ _ HI) as [Hev _].
  pose proof (ev_capacity _ _ Hev) as Hcap'.
  apply same_data_fields in Hd as (Hv & _ & Hc' & Hk & Hh'). simpl in *.
  assert (Husage : usage_ s' ≤ capacity_ s').
  { destruct Hdone as [Hnil|]; [|done].
    pose proof Hs' as (_ & Hinv' & Hacc').
    assert (HM : members (table_ s') = []).
    { apply Permutation_nil_r. rewrite <- Hnil. symmetry. apply Hinv'. }
    rewrite (acc_usage _ Hacc').
    rewrite (total_charge_only (heap s') (brk s) e' He').
    - rewrite wrap64_small; lia.
    - intros q Hq. apply (shard_ok_unheld s' [brk s] q Hs').
      + rewrite HM. apply not_elem_of_nil.
      + by intros ->%list_elem_of_singleton. }
  destruct (Lookup_resident s' [brk s] (brk s) e' Hs') as (s'' & HL & HV).
  { simpl. lia. }
  { by apply Hiff. }
  { done. }
  rewrite Hk, Hh' in HL. rewrite Hv in HV.
  exists s', s''. split; [done|]. split; [lia|]. done.
Qed.

(** X12: the round trip of a client that holds no other handle.  From a
    state a shard of capacity [c] reaches in fewer than 2^31 calls, with
    handles released only while held, and in which every handle was given
    back, [Insert] of an entry whose charge is at most [c] makes room for
    it by evicting the oldest entries, and the [Lookup] of its key that
    follows returns the new entry, with its value behind [Value]. *)
Theorem insert_then_lookup ops c s k h v ch d :
  Z.of_nat (length ops) < 2 ^ 31 →
  run ops (fresh c) = Some (s, []) →
  0 ≤ h < 2 ^ 32 → 0 ≤ ch < 2 ^ 64 → ch ≤ c →
  ∃ s' s'',
    LRUCache.Insert s k h v ch d = Some (s', brk s) ∧
    usage_ s' ≤ c ∧
    LRUCache.Lookup s' k h = Some (s'', Some (brk s)) ∧
    LRUCache.Value s'' (brk s) = Some v.
Proof.
  intros Hlen Hrun Hh Hch Hfit.
  destruct (run_fresh_ok ops c s []) as (Hs & Hb & HH); [lia|done|].
  pose proof (run_capacity _ _ _ _ Hrun) as Hcap.
  destruct (Insert_Lookup_alone s k h v ch d Hs) as (s' & s'' & Hall);
    try done; try lia.
  rewrite Hcap in Hall. by exists s', s''.
Qed.

Lemma insert_then_lookup_witness :
  ∃ s' s'',
    LRUCache.Insert (outcome two_released 100).1 "c" 11 3 70 0
      = Some (s', brk (outcome two_released 100).1) ∧
    usage_ s' ≤ 100 ∧
    LRUCache.Lookup s' "c" 11
      = Some (s'', Some (brk (outcome two_released 100).1)) ∧
    LRUCache.Value s'' (brk (outcome two_released 100).1) = Some 3.
Proof.
  apply (insert_then_lookup two_released 100).
  - vm_compute. reflexivity.
  - vm_compute. reflexivity.
  - lia.
  - lia.
  - lia.
Defined.

(** * The destructor of a shard *)

Lemma dtor_none l : foldl dtor_step None l = None.
Proof. induction l; simpl; auto. Qed.

Lemma dtor_frees l : ∀ s,
  NoDup l →
  (∀ p, p ∈ l → ∃ e, heap s !! p = Some e ∧ refs e = 1) →
  ∃ s', foldl dtor_step (Some s) l = Some s' ∧
    (∀ q, heap s' !! q = if bool_decide (q ∈ l) then None else heap s !! q) ∧
    deleted s' = deleted s ++ omap (deleter_call_of (heap s)) l.
Proof.
  induction l as [|p l IH]; intros s Hnd Hone.
  - exists s. split; [done|]. split; [done|]. simpl. by rewrite app_nil_r.
  - apply list.NoDup_cons in Hnd as [Hp Hnd].
    destruct (Hone p) as (e & He & Hr); [left|].
    simpl. rewrite He. simpl. rewrite bool_decide_true by done.
    rewrite (Unref_dropped s p e He) by lia.
    destruct (IH (dropped s p e) Hnd) as (s' & -> & Hheap & Hlog).
    { intros q Hq. destruct (Hone q) as (eq & Heq & Hrq); [by right|].
      exists eq. split; [|done]. rewrite dropped_lookup_ne; [done|].
      by intros ->. }
    exists s'. split; [done|]. split.
    + intros q. rewrite Hheap. destruct (decide (q = p)) as [->|Hne].
      * rewrite bool_decide_false by done. rewrite bool_decide_true by left.
        by apply dropped_lookup_one.
      * rewrite dropped_lookup_ne by done.
        rewrite (bool_decide_ext (q ∈ p :: l) (q ∈ l)); [done|].
        rewrite elem_of_cons. split; [by intros [?|?]|by right].
    + assert (Hcall : deleter_call_of (heap s) p =
                Some (mkCall p (deleter e) (key e) (value e))).
      { unfold deleter_call_of. by rewrite He. }
      rewrite Hlog, dropped_deleted, bool_decide_true by done.
      rewrite <- app_assoc. f_equal. cbn [omap list_omap]. rewrite Hcall.
      simpl. f_equal.
      apply list_omap_ext, Forall_Forall2_diag, list.Forall_forall. intros q Hq.
      unfold deleter_call_of. rewrite dropped_lookup_ne; [done|].
      by intros ->.
Qed.

Lemma Unref_other s p s' q :
  q ≠ p → LRUCache.Unref s p = Some s' → heap s' !! q = heap s !! q.
Proof.
  intros Hne. unfold LRUCache.Unref.
  destruct (heap s !! p) as [e|]; simpl; [|done].
  case_bool_decide; [|done]. case_bool_decide; intros [= <-]; simpl.
  - by rewrite lookup_delete_ne.
  - by rewrite lookup_insert_ne.
Qed.

Lemma dtor_asserts l : ∀ s p e,
  p ∈ l → heap s !! p = Some e → refs e ≠ 1 →
  foldl dtor_step (Some s) l = None.
Proof.
  induction l as [|q l IH]; intros s p e Hp He Hr; [by apply elem_of_nil in Hp|].
  simpl. destruct (decide (q = p)) as [->|Hne].
  - rewrite He. simpl. rewrite bool_decide_false by done. apply dtor_none.
  - destruct (heap s !! q) as [eq|]; simpl; [|apply dtor_none].
    case_bool_decide; [|apply dtor_none].
    destruct (LRUCache.Unref s q) as [s1|] eqn:HU; [|apply dtor_none].
    apply (IH s1 p e); [|by rewrite (Unref_other s q s1 p)|done].
    apply elem_of_cons in Hp as [->|]; done.
Qed.

Lemma dtor_ok s H :
  shard_ok s H → (∀ p, p ∈ H → p ∉ lru_ s) →
  ∃ m log, LRUCache_dtor s = Some (m, log) ∧
    (∀ q, m !! q = if bool_decide (q ∈ lru_ s) then None else heap s !! q) ∧
    log = deleted s ++ omap (deleter_call_of (heap s)) (lru_ s) ∧
    length log = (length (deleted s) + length (lru_ s))%nat ∧
    (H = [] → m = ∅).
Proof.
  intros Hs Hfree. pose proof Hs as (Hok & Hinv & _).
  destruct (dtor_frees (lru_ s) s) as (s' & Hfold & Hheap & Hlog).
  { by eapply shard_ok_ring_nodup. }
  { intros p Hp. pose proof Hp as HpM. apply (shard_ok_ring s H p Hs) in HpM.
    destruct (si_live _ _ _ Hinv p HpM) as [e He]. exists e. split; [done|].
    rewrite (si_refs _ _ _ Hinv p e He), bool_decide_true by done.
    rewrite held_absent; [done|]. intros HpH. by apply (Hfree p). }
  exists (heap s'), (deleted s'). unfold LRUCache_dtor. rewrite Hfold.
  split; [done|]. split; [done|]. split; [done|]. split.
  - rewrite Hlog, length_app. f_equal.
    assert (Hall : ∀ l, (∀ p, p ∈ l → is_Some (heap s !! p)) →
              length (omap (deleter_call_of (heap s)) l) = length l).
    { induction l as [|p l IH]; intros Hl; [done|]. simpl.
      destruct (Hl p) as [e He]; [left|]. unfold deleter_call_of at 1.
      rewrite He. simpl. f_equal. apply IH. intros q Hq. apply Hl. by right. }
    apply Hall. intros p Hp. apply (si_live _ _ _ Hinv).
    by apply (shard_ok_ring s H).
  - intros ->. apply map_empty. intros q. rewrite Hheap.
    case_bool_decide as Hq; [done|].
    apply (shard_ok_unheld s [] q Hs); [|apply not_elem_of_nil].
    intros HqM. apply Hq. by apply (shard_ok_ring s []).
Qed.

(** X13: [~LRUCache()] of a shard that has served at most 2^31 calls, with
    handles released only while held, when none of the handles still held is
    on an entry of the cache.  The destructor returns; it frees every entry
    of the cache and calls the deleter of each once, with its key and its
    value, from the oldest entry of the ring to the newest.  Entries that
    left the cache while a handle on them is held are not touched: they stay
    allocated.  If no handle is held at all, nothing stays allocated. *)
Theorem destructor_frees_cache ops c s H :
  Z.of_nat (length ops) ≤ 2 ^ 31 →
  run ops (fresh c) = Some (s, H) →
  (∀ p, p ∈ H → p ∉ lru_ s) →
  ∃ m log, LRUCache_dtor s = Some (m, log) ∧
    (∀ q, m !! q = if bool_decide (q ∈ lru_ s) then None else heap s !! q) ∧
    log = deleted s ++ omap (deleter_call_of (heap s)) (lru_ s) ∧
    length log = (length (deleted s) + length (lru_ s))%nat ∧
    (H = [] → m = ∅).
Proof.
  intros Hlen Hrun Hfree.
  destruct (run_fresh_ok ops c s H Hlen Hrun) as (Hs & _).
  by apply (dtor_ok s H).
Qed.

Lemma destructor_frees_cache_witness :
  ∃ m log, LRUCache_dtor (outcome erased_held_only 100).1 = Some (m, log) ∧
    (∀ q, m !! q = if bool_decide (q ∈ lru_ (outcome erased_held_only 100).1)
                   then None else heap (outcome erased_held_only 100).1 !! q) ∧
    log = deleted (outcome erased_held_only 100).1 ++
          omap (deleter_call_of (heap (outcome erased_held_only 100).1))
            (lru_ (outcome erased_held_only 100).1) ∧
    length log = (length (deleted (outcome erased_held_only 100).1) +
                  length (lru_ (outcome erased_held_only 100).1))%nat ∧
    ((outcome erased_held_only 100).2 = [] → m = ∅).
Proof.
  apply (destructor_frees_cache erased_held_only 100 _ (outcome erased_held_only 100).2).
  - vm_compute. discriminate.
  - vm_compute. reflexivity.
  - vm_compute. intros p Hp Hq.
    apply list_elem_of_singleton in Hq as ->.
    by apply list_elem_of_singleton in Hp.
Defined.

(** X14: [~LRUCache()] of a shard that has served at most 2^31 calls, with
    handles released only while held, while a client holds a handle on an
    entry of the cache: [assert(e->refs == 1)] fails. *)
Theorem destructor_asserts_released ops c s H p :
  Z.of_nat (length ops) ≤ 2 ^ 31 →
  run ops (fresh c) = Some (s, H) →
  p ∈ H → p ∈ lru_ s →
  LRUCache_dtor s = None.
Proof.
  intros Hlen Hrun HpH Hp.
  destruct (run_fresh_ok ops c s H Hlen Hrun) as (Hs & _).
  pose proof Hs as (Hok & Hinv & _).
  pose proof Hp as HpM. apply (shard_ok_ring s H p Hs) in HpM.
  destruct (si_live _ _ _ Hinv p HpM) as [e He].
  unfold LRUCache_dtor. rewrite (dtor_asserts (lru_ s) s p e); try done.
  rewrite (si_refs _ _ _ Hinv p e He), bool_decide_true by done.
  apply held_pos in HpH. lia.
Qed.

Lemma destructor_asserts_released_witness :
  LRUCache_dtor (outcome two_entries 100).1 = None.
Proof.
  apply (destructor_asserts_released two_entries 100 _
           (outcome two_entries 100).2 0%nat).
  - vm_compute. discriminate.
  - vm_compute. reflexivity.
  - vm_compute. right. left.
  - vm_compute. left.
Defined.

(** * The sharded cache: construction, calls, round trip, destruction *)

(** X15: [ShardedLRUCache(capacity)] makes sixteen empty shards of one and
    the same capacity.  Unless [capacity] is within 15 of the largest
    [size_t], sixteen times that capacity is at least [capacity] and at
    most [capacity + 15]: rounding up never takes capacity away.  For the
    fifteen largest values of [capacity] the sum [capacity + 15] wraps and
    every shard gets the capacity 0. *)
Theorem new_cache_shards cap i sh :
  0 ≤ cap < 2 ^ 64 →
  shard_ (NewLRUCache cap) !! i = Some sh →
  length (shard_ (NewLRUCache cap)) = 16%nat ∧
  sh = SetCapacity LRUCache.init (capacity_ sh) ∧
  if bool_decide (cap ≤ 2 ^ 64 - 16)
  then cap ≤ 16 * capacity_ sh ≤ cap + 15
  else capacity_ sh = 0.
Proof.
  intros Hcap [-> Hi]%lookup_replicate. split; [done|]. split; [done|].
  cbn [capacity_ SetCapacity set_capacity].
  change (kNumShards - 1) with 15. change kNumShards with 16.
  unfold wrap64. case_bool_decide as Hfit.
  - rewrite Z.mod_small by lia.
    pose proof (Z.div_mod (cap + 15) 16 ltac:(lia)).
    pose proof (Z.mod_pos_bound (cap + 15) 16 ltac:(lia)). lia.
  - replace ((cap + 15) mod 2 ^ 64) with (cap + 15 - 2 ^ 64).
    + apply Z.div_small. lia.
    + apply (Z.mod_unique_pos _ _ 1); lia.
Qed.

Lemma new_cache_shards_witness :
  length (shard_ (NewLRUCache 100)) = 16%nat ∧
  SetCapacity LRUCache.init 7 =
    SetCapacity LRUCache.init (capacity_ (SetCapacity LRUCache.init 7)) ∧
  if bool_decide (100 ≤ 2 ^ 64 - 16)
  then 100 ≤ 16 * capacity_ (SetCapacity LRUCache.init 7) ≤ 100 + 15
  else capacity_ (SetCapacity LRUCache.init 7) = 0.
Proof.
  apply (new_cache_shards 100 3%nat (SetCapacity LRUCache.init 7)).
  - lia.
  - vm_compute. reflexivity.
Defined.

Lemma sharded_reachable (Hash : string → Z → Z) ops cap σ :
  Z.of_nat (length ops) < 2 ^ 31 →
  srun Hash ops (sfresh cap) = Some σ →
  cache_ok (cache σ) (handles σ) ∧
  shards_below (Z.of_nat (length ops)) (cache σ) ∧
  shards_capacity (per_shard cap) (cache σ) ∧
  Z.of_nat (length (handles σ)) ≤ Z.of_nat (length ops).
Proof.
  intros Hlen Hrun.
  destruct (cache_ok_fresh cap) as (Hc0 & Hb0 & Hcap0).
  destruct (srun_ok Hash ops (sfresh cap) σ 0 (per_shard cap))
    as (Hc & Hb & Hcap & HH); try done; simpl; lia.
Qed.

(** X16: from every state the sharded cache reaches, every call a client
    may make returns, under any hash function: [Insert] with a charge
    that is a [size_t], [Lookup] and [Erase] of any key, [Release] and
    [Value] of any handle the client holds.  [Release] finds the shard of
    a handle from the hash stored in it, and that is the shard that
    allocated it. *)
Theorem cache_calls_return (Hash : string → Z → Z) ops cap σ :
  Z.of_nat (length ops) < 2 ^ 31 →
  srun Hash ops (sfresh cap) = Some σ →
  (∀ k v ch d, 0 ≤ ch < 2 ^ 64 →
     is_Some (ShardedLRUCache.Insert Hash (cache σ) k v ch d)) ∧
  (∀ k, is_Some (ShardedLRUCache.Lookup Hash (cache σ) k)) ∧
  (∀ k, is_Some (ShardedLRUCache.Erase Hash (cache σ) k)) ∧
  (∀ hd, hd ∈ handles σ →
     is_Some (ShardedLRUCache.Release (cache σ) hd) ∧
     is_Some (ShardedLRUCache.Value (cache σ) hd) ∧
     ∃ own e, shard_ (cache σ) !! arena hd = Some own ∧
       heap own !! addr hd = Some e ∧ Shard (hash e) = arena hd).
Proof.
  intros Hlen Hrun.
  destruct (sharded_reachable Hash ops cap σ Hlen Hrun) as (Hc & Hb & _ & HH).
  assert (Hsh : ∀ k, ∃ sh,
            shard_ (cache σ) !! Shard (HashSlice Hash k) = Some sh ∧
            shard_ok sh (proj (Shard (HashSlice Hash k)) (handles σ)) ∧
            Z.of_nat (brk sh) < 2 ^ 31).
  { intros k.
    destruct (shard_exists (cache σ) (handles σ) (Shard (HashSlice Hash k)) Hc)
      as [sh Hi]; [apply Shard_lt, HashSlice_range|].
    exists sh. split; [done|]. split; [by apply (co_shard _ _ Hc)|].
    specialize (Hb _ _ Hi). lia. }
  split; [|split; [|split]].
  - intros k v ch d Hch. destruct (Hsh k) as (sh & Hi & Hs & Hbrk).
    destruct (Insert_ok sh _ k (HashSlice Hash k) v ch d Hs Hbrk)
      as (sh' & HI & _); [apply HashSlice_range|done|].
    rewrite (sharded_Insert_eq Hash _ k v ch d sh sh' _ Hi HI). by eexists.
  - intros k. destruct (Hsh k) as (sh & Hi & Hs & Hbrk).
    destruct (Lookup_ok sh _ k (HashSlice Hash k) Hs) as (sh' & r & HL & _).
    { pose proof (proj_length (Shard (HashSlice Hash k)) (handles σ)). lia. }
    rewrite (sharded_Lookup_eq Hash _ k sh sh' r Hi HL). by eexists.
  - intros k. destruct (Hsh k) as (sh & Hi & Hs & Hbrk).
    destruct (Erase_spec sh _ k (HashSlice Hash k) Hs) as (sh' & r & HE & _).
    rewrite (sharded_Erase_eq Hash _ k sh sh' Hi HE). by eexists.
  - intros hd Hhd.
    destruct (shard_exists (cache σ) (handles σ) (arena hd) Hc) as [own Hown];
      [by apply (co_arena _ _ Hc)|].
    pose proof (co_shard _ _ Hc _ _ Hown) as Hs.
    destruct (Release_spec own _ (addr hd) Hs (elem_of_proj hd _ Hhd))
      as (e & He & HR & _).
    pose proof (co_home _ _ Hc _ _ _ _ Hown He) as Hhome.
    split; [|split].
    + rewrite (sharded_Release_eq (cache σ) hd own e _ Hown He Hhome HR).
      by eexists.
    + unfold ShardedLRUCache.Value. rewrite Hown. simpl.
      unfold LRUCache.Value. rewrite He. by eexists.
    + by exists own, e.
Qed.

Lemma cache_calls_return_witness :
  (∀ k v ch d, 0 ≤ ch < 2 ^ 64 →
     is_Some (ShardedLRUCache.Insert sample_hash
                (cache (soutcome three_shards 100)) k v ch d)) ∧
  (∀ k, is_Some (ShardedLRUCache.Lookup sample_hash
                   (cache (soutcome three_shards 100)) k)) ∧
  (∀ k, is_Some (ShardedLRUCache.Erase sample_hash
                   (cache (soutcome three_shards 100)) k)) ∧
  (∀ hd, hd ∈ handles (soutcome three_shards 100) →
     is_Some (ShardedLRUCache.Release (cache (soutcome three_shards 100)) hd) ∧
     is_Some (ShardedLRUCache.Value (cache (soutcome three_shards 100)) hd) ∧
     ∃ own e, shard_ (cache (soutcome three_shards 100)) !! arena hd = Some own ∧
       heap own !! addr hd = Some e ∧ Shard (hash e) = arena hd).
Proof.
  apply (cache_calls_return sample_hash three_shards 100).
  - vm_compute. reflexivity.
  - vm_compute. reflexivity.
Defined.

Lemma proj_none i HS : (∀ hd, hd ∈ HS → arena hd ≠ i) → proj i HS = [].
Proof.
  intros Hnone. destruct (proj i HS) as [|p l] eqn:Hp; [done|].
  assert (Hin : p ∈ proj i HS) by (rewrite Hp; left).
  unfold proj in Hin. apply list_elem_of_fmap in Hin as (hd & _ & Hhd).
  apply list_elem_of_filter in Hhd as [Harena Hhd]. by destruct (Hnone hd Hhd).
Qed.

(** X17: the round trip through the sharded cache, under any hash
    function.  From a state the cache reaches in fewer than 2^31 calls,
    with handles released only while held, in which the client holds no
    handle of the shard of the key, whatever it holds of other shards,
    [Insert] of an entry whose charge is at most the capacity of a shard,
    followed by [Lookup] of its key, returns the handle of the new entry
    both times, and [Value] of it is the inserted value. *)
Theorem cache_insert_then_lookup (Hash : string → Z → Z) ops cap σ k v ch d :
  Z.of_nat (length ops) < 2 ^ 31 →
  srun Hash ops (sfresh cap) = Some σ →
  (∀ hd, hd ∈ handles σ → arena hd ≠ Shard (HashSlice Hash k)) →
  0 ≤ ch ≤ per_shard cap →
  ∃ c1 hd c2,
    ShardedLRUCache.Insert Hash (cache σ) k v ch d = Some (c1, hd) ∧
    ShardedLRUCache.Lookup Hash c1 k = Some (c2, Some hd) ∧
    ShardedLRUCache.Value c2 hd = Some v ∧
    arena hd = Shard (HashSlice Hash k).
Proof.
  intros Hlen Hrun Hfree Hch.
  destruct (sharded_reachable Hash ops cap σ Hlen Hrun) as (Hc & Hb & Hcap & HH).
  set (i := Shard (HashSlice Hash k)) in *.
  destruct (shard_exists (cache σ) (handles σ) i Hc) as [sh Hi];
    [apply Shard_lt, HashSlice_range|].
  pose proof (co_shard _ _ Hc _ _ Hi) as Hs.
  rewrite (proj_none i (handles σ) Hfree) in Hs.
  specialize (Hb _ _ Hi). specialize (Hcap _ _ Hi).
  assert (per_shard cap < 2 ^ 64).
  { unfold per_shard, wrap64. change kNumShards with 16.
    pose proof (Z.mod_pos_bound (cap + (16 - 1)) (2 ^ 64) ltac:(lia)).
    apply Z.div_lt_upper_bound; lia. }
  destruct (Insert_Lookup_alone sh k (HashSlice Hash k) v ch d Hs)
    as (sh' & sh'' & HI & _ & HL & HV); try lia; [apply HashSlice_range|].
  pose proof (sharded_Insert_eq Hash _ k v ch d sh sh' _ Hi HI) as HI'.
  fold i in HI'. set (c1 := ShardedLRUCache.mk _ _) in HI'.
  assert (Hi1 : shard_ c1 !! i = Some sh').
  { unfold c1. cbn [shard_]. apply list_lookup_insert_eq.
    by apply lookup_lt_Some in Hi. }
  pose proof (sharded_Lookup_eq Hash _ k sh' sh'' _ Hi1 HL) as HL'.
  fold i in HL'. set (c2 := ShardedLRUCache.mk (<[_:=sh'']> _) _) in HL'.
  exists c1, (mkHandle i (brk sh)), c2.
  split; [done|]. split; [done|]. split; [|done].
  unfold ShardedLRUCache.Value. cbn [arena addr c2 shard_].
  rewrite list_lookup_insert_eq; [done|].
  unfold c1. cbn [shard_]. rewrite length_insert.
  by apply lookup_lt_Some in Hi.
Qed.

Lemma cache_insert_then_lookup_witness :
  ∃ c1 hd c2,
    ShardedLRUCache.Insert sample_hash (cache (soutcome three_shards 100))
      "a" 9 6 0 = Some (c1, hd) ∧
    ShardedLRUCache.Lookup sample_hash c1 "a" = Some (c2, Some hd) ∧
    ShardedLRUCache.Value c2 hd = Some 9 ∧
    arena hd = Shard (HashSlice sample_hash "a").
Proof.
  apply (cache_insert_then_lookup sample_hash three_shards 100).
  - vm_compute. reflexivity.
  - vm_compute. reflexivity.
  - vm_compute. intros hd Hhd. apply list_elem_of_singleton in Hhd as ->.
    discriminate.
  - vm_compute. split; discriminate.
Defined.

Lemma Forall2_elem_of_impl {A B} (P Q : A → B → Prop) l k :
  Forall2 P l k → (∀ x y, x ∈ l → P x y → Q x y) → Forall2 Q l k.
Proof.
  induction 1 as [|x y l k HP _ IH]; intros HPQ; constructor.
  - apply HPQ; [left|done].
  - apply IH. intros x' y' Hx'. apply HPQ. by right.
Qed.

(** X18: destroying a sharded cache that has served fewer than 2^31 calls,
    with handles released only while held and every handle given back,
    destroys its sixteen shards, each without a failed [assert]; no entry of
    any shard stays allocated, and the deleter of every entry still in the
    cache has been called. *)
Theorem cache_destructor_frees (Hash : string → Z → Z) ops cap σ :
  Z.of_nat (length ops) < 2 ^ 31 →
  srun Hash ops (sfresh cap) = Some σ →
  handles σ = [] →
  ∃ left, ShardedLRUCache_dtor (cache σ) = Some left ∧
    length left = 16%nat ∧
    Forall2 (λ sh x, x.1 = ∅ ∧
               x.2 = deleted sh ++ omap (deleter_call_of (heap sh)) (lru_ sh))
      (reverse (shard_ (cache σ))) left.
Proof.
  intros Hlen Hrun Hnone.
  destruct (sharded_reachable Hash ops cap σ Hlen Hrun) as (Hc & _).
  rewrite Hnone in Hc.
  assert (Hall : ∀ sh, sh ∈ reverse (shard_ (cache σ)) →
            LRUCache_dtor sh =
            Some (∅, deleted sh ++ omap (deleter_call_of (heap sh)) (lru_ sh))).
  { intros sh Hsh. rewrite elem_of_reverse in Hsh.
    apply list_elem_of_lookup in Hsh as [i Hi].
    pose proof (co_shard _ _ Hc _ _ Hi) as Hs.
    destruct (dtor_ok sh [] Hs) as (m & log & -> & _ & -> & _ & Hm).
    { intros p Hp. by apply elem_of_nil in Hp. }
    by rewrite Hm. }
  unfold ShardedLRUCache_dtor.
  destruct (mapM LRUCache_dtor (reverse (shard_ (cache σ)))) as [left|] eqn:HM.
  - exists left. split; [done|]. split.
    + rewrite <- (length_mapM _ _ _ HM), length_reverse. apply Hc.
    + apply mapM_Some_1 in HM.
      eapply Forall2_elem_of_impl; [exact HM|].
      intros sh x Hsh Hx. cbv beta in Hx. rewrite (Hall sh Hsh) in Hx.
      by injection Hx as <-.
  - apply mapM_None_1, list.Exists_exists in HM as (sh & Hsh & Hnone').
    by rewrite (Hall sh Hsh) in Hnone'.
Qed.

Lemma cache_destructor_frees_witness :
  ∃ left,
    ShardedLRUCache_dtor (cache (soutcome all_released 100)) = Some left ∧
    length left = 16%nat ∧
    Forall2 (λ sh x, x.1 = ∅ ∧
               x.2 = deleted sh ++ omap (deleter_call_of (heap sh)) (lru_ sh))
      (reverse (shard_ (cache (soutcome all_released 100)))) left.
Proof.
  apply (cache_destructor_frees sample_hash all_released 100).
  - vm_compute. reflexivity.
  - vm_compute. reflexivity.
  - vm_compute. reflexivity.
Defined.

(** * One shard: the usage stays within the capacity *)

Lemma dropped_usage_le s p e :
  usage_ s = total_charge (heap s) →
  (∀ q e', heap s !! q = Some e' → 0 ≤ charge e') →
  total_charge (heap s) < 2 ^ 64 →
  heap s !! p = Some e →
  usage_ (dropped s p e) ≤ usage_ s.
Proof.
  intros Hu Hpos Hlt He. rewrite dropped_usage. case_bool_decide; [|lia].
  pose proof (total_charge_ge (heap s) p e Hpos He).
  pose proof (Hpos p e He). rewrite wrap64_small; lia.
Qed.

Lemma step_total o s H σ1 :
  shard_ok s H →
  Z.of_nat (brk s) < 2 ^ 31 → Z.of_nat (length H) < 2 ^ 31 →
  step o (s, H) = Some σ1 →
  0 ≤ op_charge o ∧
  total_charge (heap σ1.1) ≤ total_charge (heap s) + op_charge o.
Proof.
  intros Hs Hb HH. pose proof Hs as (Hok & Hinv & _). destruct o; simpl.
  - case_bool_decide as Hty; [|done]. destruct Hty as [Hh Hc].
    destruct (Insert_full s H k h v c d Hs Hb Hh Hc)
      as (s' & old & j & -> & _ & _ & _ & _ & _ & _ & Htot).
    simpl. intros [= <-]. simpl. lia.
  - destruct (Lookup_ok s H k h Hs) as (s' & r & -> & _ & _ & Hshape); [lia|].
    simpl. intros [= <-]. simpl. split; [done|]. destruct r as [p|].
    + destruct Hshape as (e & He & ->). simpl.
      rewrite (total_charge_update _ _ e) by done. lia.
    + subst s'. lia.
  - case_bool_decide as Hp; [|done].
    destruct (Release_spec s H handle Hs Hp) as (e & He & -> & _).
    simpl. intros [= <-]. simpl. split; [done|].
    pose proof (total_charge_dropped s handle e He
      (shard_ok_charges s H _ _ Hs He)). lia.
  - destruct (Erase_spec s H k h Hs) as (s' & r & -> & _ & _ & Hshape).
    simpl. intros [= <-]. simpl. split; [done|]. destruct r as [p|].
    + destruct Hshape as (e & tb' & He & -> & _). unfold retired.
      pose proof (total_charge_dropped
        (set_table (set_lru s (LRU_Remove (lru_ s) p)) tb') p e He
        (shard_ok_charges s H _ _ Hs He)) as Hle. simpl in Hle. lia.
    + subst s'. lia.
Qed.

Lemma step_fits o s H σ1 :
  shard_ok s H →
  Z.of_nat (brk s) < 2 ^ 31 → Z.of_nat (length H) < 2 ^ 31 →
  total_charge (heap s) < 2 ^ 64 →
  lru_ s = [] ∨ usage_ s ≤ capacity_ s →
  step o (s, H) = Some σ1 →
  lru_ σ1.1 = [] ∨ usage_ σ1.1 ≤ capacity_ σ1.1.
Proof.
  intros Hs Hb HH Hlt HP. pose proof Hs as (Hok & Hinv & _).
  pose proof (shard_ok_usage s H Hs Hlt) as Hu.
  assert (Hne : ∀ p, p ∈ members (table_ s) → usage_ s ≤ capacity_ s).
  { intros p Hp. destruct HP as [Hnil|]; [|done].
    apply (shard_ok_ring s H p Hs) in Hp. rewrite Hnil in Hp.
    by apply elem_of_nil in Hp. }
  destruct o; simpl.
  - case_bool_decide as Hty; [|done]. destruct Hty as [Hh Hc].
    destruct (Insert_full s H k h v c d Hs Hb Hh Hc)
      as (s' & old & j & -> & _ & _ & _ & _ & Hdone & _).
    simpl. by intros [= <-].
  - destruct (Lookup_ok s H k h Hs) as (s' & r & -> & Hf & _ & Hshape); [lia|].
    simpl. intros [= <-]. simpl. destruct r as [p|]; [|by subst s'].
    destruct Hshape as (e & He & ->). destruct Hf as [Hp _].
    right. simpl. by apply (Hne p).
  - case_bool_decide as Hp; [|done].
    destruct (Release_spec s H handle Hs Hp) as (e & He & -> & _).
    simpl. intros [= <-]. simpl. rewrite dropped_lru, dropped_capacity.
    destruct HP as [|Hfit]; [by left|right].
    pose proof (dropped_usage_le s handle e Hu
      (λ q e', shard_ok_charges s H q e' Hs) Hlt He). lia.
  - destruct (Erase_spec s H k h Hs) as (s' & r & -> & Hf & _ & Hshape).
    simpl. intros [= <-]. simpl. destruct r as [p|]; [|by subst s'].
    destruct Hshape as (e & tb' & He & -> & _). destruct Hf as [Hp _].
    right. unfold retired. rewrite dropped_capacity. simpl.
    pose proof (dropped_usage_le
      (set_table (set_lru s (LRU_Remove (lru_ s) p)) tb') p e Hu
      (λ q e', shard_ok_charges s H q e' Hs) Hlt He) as Hle.
    simpl in Hle. specialize (Hne p Hp). lia.
Qed.

Lemma run_charge_nonneg ops : ∀ σ σ',
  run ops σ = Some σ' → 0 ≤ inserted_charge ops.
Proof.
  induction ops as [|o ops IH]; intros σ σ'; [done|].
  rewrite run_cons. destruct (step o σ) as [σ1|] eqn:Hst; [|done]. simpl.
  intros Hrun. specialize (IH _ _ Hrun).
  assert (0 ≤ op_charge o); [|lia].
  destruct o; simpl in *; try done. case_bool_decide; [lia|done].
Qed.

Lemma run_fits ops : ∀ σ σ',
  shard_ok σ.1 σ.2 →
  Z.of_nat (brk σ.1) + Z.of_nat (length ops) ≤ 2 ^ 31 →
  Z.of_nat (length σ.2) + Z.of_nat (length ops) ≤ 2 ^ 31 →
  total_charge (heap σ.1) + inserted_charge ops < 2 ^ 64 →
  lru_ σ.1 = [] ∨ usage_ σ.1 ≤ capacity_ σ.1 →
  run ops σ = Some σ' →
  (lru_ σ'.1 = [] ∨ usage_ σ'.1 ≤ capacity_ σ'.1) ∧
  total_charge (heap σ'.1) ≤ total_charge (heap σ.1) + inserted_charge ops.
Proof.
  induction ops as [|o ops IH]; intros [s H] σ' Hs Hb HH Htot HP.
  - intros [= <-]. simpl. split; [done|lia].
  - simpl in Hs, Hb, HH, HP. rewrite run_cons.
    destruct (step o (s, H)) as [σ1|] eqn:Hst; [|done]. simpl.
    intros Hrun. pose proof (run_charge_nonneg _ _ _ Hrun) as Hnn.
    pose proof (step_brk _ _ _ Hst) as [Hb1 HH1]. simpl in Hb1, HH1.
    destruct (step_total o s H σ1 Hs) as [Hc Hle]; [lia|lia|done|].
    change (inserted_charge (o :: ops))
      with (op_charge o + inserted_charge ops) in *.
    simpl in Htot.
    destruct (IH σ1 σ') as [HP' Hle']; try done; try lia.
    + eapply step_shard_ok; eauto; lia.
    + eapply (step_fits o s H); eauto; lia.
    + split; [done|]. simpl. lia.
Qed.

(** X19: in a run of fewer than 2^31 calls on a shard of capacity [c], with
    handles released only while held, if the charges of all the entries the
    run inserted add up to less than 2^64, the usage counter has not
    wrapped: it is the sum of the charges of the entries not freed yet.
    After every call of the run the usage is then within the capacity or the
    ring is empty, every entry left being pinned by a handle; and whenever
    the client holds no handle at all the usage is within the capacity. *)
Theorem usage_within_capacity ops c s H :
  Z.of_nat (length ops) < 2 ^ 31 →
  run ops (fresh c) = Some (s, H) →
  inserted_charge ops < 2 ^ 64 →
  usage_ s = total_charge (heap s) ∧
  0 ≤ usage_ s ≤ inserted_charge ops ∧
  (lru_ s = [] ∨ usage_ s ≤ c) ∧
  (H = [] → 0 ≤ c → usage_ s ≤ c).
Proof.
  intros Hlen Hrun Hsum.
  destruct (run_fresh_ok ops c s H) as (Hs & _); [lia|done|].
  pose proof (run_capacity _ _ _ _ Hrun) as Hcap.
  destruct (run_fits ops (fresh c) (s, H)) as [HP Htot]; simpl; try done;
    try lia.
  { apply (shard_ok_fresh c). }
  { by left. }
  simpl in HP, Htot. rewrite total_charge_empty in Htot. rewrite Hcap in HP.
  pose proof (total_charge_nonneg (heap s)
    (λ q e, shard_ok_charges s H q e Hs)) as Hpos.
  pose proof (shard_ok_usage s H Hs ltac:(lia)) as Hu.
  split; [done|]. split; [lia|]. split; [done|].
  intros -> Hc. destruct HP as [Hnil|]; [|done].
  assert (heap s = ∅) as Hempty.
  { apply map_empty. intros q. apply (shard_ok_unheld s [] q Hs).
    - intros Hq. apply (shard_ok_ring s [] q Hs) in Hq.
      rewrite Hnil in Hq. by apply elem_of_nil in Hq.
    - apply not_elem_of_nil. }
  rewrite Hu, Hempty, total_charge_empty. done.
Qed.

Lemma usage_within_capacity_witness :
  usage_ (outcome two_entries 100).1 =
    total_charge (heap (outcome two_entries 100).1) ∧
  0 ≤ usage_ (outcome two_entries 100).1 ≤ inserted_charge two_entries ∧
  (lru_ (outcome two_entries 100).1 = [] ∨
   usage_ (outcome two_entries 100).1 ≤ 100) ∧
  ((outcome two_entries 100).2 = [] → 0 ≤ 100 →
   usage_ (outcome two_entries 100).1 ≤ 100).
Proof.
  apply (usage_within_capacity two_entries 100).
  - vm_compute. reflexivity.
  - vm_compute. reflexivity.
  - vm_compute. reflexivity.
Defined.

(** * One shard: what the deleter is called with *)

Lemma tracked_same s s' : step_ok s s' → deleted s' = deleted s → tracked s s'.
Proof.
  intros [Hev _] Hd. split; [done|]. exists []. rewrite app_nil_r.
  split; [done|]. intros call Hc. by apply elem_of_nil in Hc.
Qed.

Lemma tracked_trans s1 s2 s3 : tracked s1 s2 → tracked s2 s3 → tracked s1 s3.
Proof.
  intros [E1 (l1 & L1 & C1)] [E2 (l2 & L2 & C2)].
  split; [by eapply evolves_trans|].
  exists (l1 ++ l2). split; [by rewrite L2, L1, app_assoc|].
  intros call [Hc|Hc]%elem_of_app Hlt; [by apply C1|].
  pose proof (ev_brk _ _ E1).
  pose proof (C2 call Hc ltac:(lia)) as Hcall.
  unfold deleter_call_of in *.
  destruct (heap s2 !! dc_entry call) as [e2|] eqn:He2; [|done].
  destruct (ev_heap _ _ E1 _ e2 He2 Hlt) as (e1 & -> & Hd).
  apply same_data_fields in Hd as (Hv & Hf & _ & Hk & _). simpl in *.
  by rewrite <- Hv, <- Hf, <- Hk.
Qed.

Lemma Unref_tracked s p s' : Unref s p = Some s' → tracked s s'.
Proof.
  intros HU. pose proof (Unref_step_ok _ _ _ HU) as Hstep.
  unfold Unref in HU. destruct (heap s !! p) as [e|] eqn:He; [|done].
  simpl in HU. case_bool_decide; [|done]. case_bool_decide.
  - injection HU as <-. split; [apply Hstep|].
    eexists. split; [done|]. intros call ->%list_elem_of_singleton _.
    unfold deleter_call_of. simpl. by rewrite He.
  - injection HU as <-. by apply tracked_same.
Qed.

Lemma evict_tracked fuel : ∀ s s', evict fuel s = Some s' → tracked s s'.
Proof.
  induction fuel as [|fuel IH]; intros s s'; simpl.
  - destruct (lru_ s); [|case_bool_decide]; intros; simplify_eq;
      apply tracked_same; auto using step_ok_refl.
  - destruct (lru_ s) as [|old l] eqn:Hl;
      [intros; simplify_eq; apply tracked_same; auto using step_ok_refl|].
    case_bool_decide;
      [|intros; simplify_eq; apply tracked_same; auto using step_ok_refl].
    intros He.
    destruct (heap s !! old) as [h|]; simplify_eq/=.
    destruct (HandleTable.Remove (heap s) (table_ s) (key h) (hash h))
      as [r|]; simplify_eq/=.
    destruct (Unref _ old) as [s1|] eqn:Hu; simplify_eq/=.
    eapply tracked_trans; [|by apply IH].
    eapply tracked_trans; [|by eapply Unref_tracked].
    apply tracked_same; [|done]. by apply step_ok_links.
Qed.

Lemma step_tracked o σ σ' : step o σ = Some σ' → tracked σ.1 σ'.1.
Proof.
  destruct σ as [s H], o; simpl; intros Hs.
  - case_bool_decide; [|done].
    destruct (LRUCache.Insert s k h v c d) as [[s1 p]|] eqn:Hi; simplify_eq/=.
    unfold LRUCache.Insert in Hi.
    destruct (HandleTable.Insert _ _ _) as [r|]; simplify_eq/=.
    match type of Hi with (?x ≫= _) = _ => destruct x as [s3|] eqn:H3 end;
      simplify_eq/=.
    destruct (evict _ s3) as [s4|] eqn:H4; simplify_eq/=.
    eapply tracked_trans; [|by eapply evict_tracked].
    eapply (tracked_trans s (allocated s k h v c d)).
    { apply tracked_same; [|done].
      by apply (step_ok_alloc s (LRU_Append (lru_ s) (brk s))
        (table_ s) (mkLRUHandle v d c k 2 h) c). }
    destruct r.2 as [old|].
    + eapply tracked_trans; [|by eapply Unref_tracked].
      apply tracked_same; [|done]. by apply step_ok_links.
    + simplify_eq. apply tracked_same; [|done]. by apply step_ok_links.
  - destruct (LRUCache.Lookup s k h) as [[s1 r]|] eqn:Hl; simplify_eq/=.
    apply tracked_same; [by eapply Lookup_step_ok|].
    unfold LRUCache.Lookup in Hl.
    destruct (HandleTable.Lookup _ _ _ _) as [[e|]|]; simplify_eq/=; [|done].
    destruct (heap s !! e); by simplify_eq/=.
  - case_bool_decide; [|done].
    destruct (LRUCache.Release s handle) as [s1|] eqn:Hr; simplify_eq/=.
    by eapply Unref_tracked.
  - destruct (LRUCache.Erase s k h) as [s1|] eqn:He; simplify_eq/=.
    unfold LRUCache.Erase in He.
    destruct (HandleTable.Remove (heap s) (table_ s) k h) as [[tb [e|]]|];
      simplify_eq/=; [|apply tracked_same; auto using step_ok_refl].
    eapply tracked_trans; [|by eapply Unref_tracked].
    apply tracked_same; [|done]. by apply step_ok_links.
Qed.

Lemma run_tracked ops : ∀ σ σ', run ops σ = Some σ' → tracked σ.1 σ'.1.
Proof.
  induction ops as [|o ops IH]; intros σ σ'.
  - intros [= <-]. apply tracked_same; auto using step_ok_refl.
  - rewrite run_cons. destruct (step o σ) as [σ1|] eqn:Hs; [|done]. simpl.
    intros Hr. eapply tracked_trans; [by eapply step_tracked|by apply IH].
Qed.

Lemma filter_length_nil {A} (P : A → Prop) `{∀ x, Decision (P x)} l :
  length (filter P l) = 0%nat → filter P l = [].
Proof. by destruct (filter P l). Qed.

(** X20: in a run of any length, an entry that is allocated at one time
    and freed at a later one, by a [Release], an [Erase], a replacement or
    an eviction, has had its
    deleter called in between exactly once among all the deleter calls of
    the shard, and that call was made with the deleter, the key and the
    value the entry was inserted with. *)
Theorem deleter_gets_entry ops1 ops2 c s1 H1 s2 H2 p e :
  run ops1 (fresh c) = Some (s1, H1) →
  heap s1 !! p = Some e →
  run ops2 (s1, H1) = Some (s2, H2) →
  heap s2 !! p = None →
  filter (λ call, dc_entry call = p) (deleted s2) =
    [mkCall p (deleter e) (key e) (value e)].
Proof.
  intros Hrun1 He Hrun2 Hgone.
  pose proof (run_step_ok _ _ _ Hrun1) as [_ Hacc1].
  specialize (Hacc1 (accounted_fresh c)).
  pose proof (run_step_ok _ _ _ Hrun2) as [Hev Hacc2].
  specialize (Hacc2 Hacc1). simpl in Hacc1, Hacc2, Hev.
  destruct (run_tracked ops2 (s1, H1) (s2, H2) Hrun2) as [_ (l & Hl & Hcalls)].
  simpl in Hl, Hcalls.
  assert (Hp : (p < brk s1)%nat) by (apply Hacc1; eauto).
  pose proof (acc_calls _ Hacc1 p Hp) as Hc1. rewrite He in Hc1.
  pose proof (ev_brk _ _ Hev).
  pose proof (acc_calls _ Hacc2 p ltac:(lia)) as Hc2. rewrite Hgone in Hc2.
  unfold calls, ncalls in Hc1, Hc2.
  rewrite Hl, list.filter_app in Hc2 |- *. rewrite length_app, Hc1 in Hc2.
  rewrite (filter_length_nil _ _ Hc1). simpl in *.
  destruct (filter (λ call, dc_entry call = p) l) as [|call [|]] eqn:Hf;
    simplify_eq/=.
  assert (Hin : call ∈ filter (λ call, dc_entry call = p) l)
    by (rewrite Hf; left).
  apply list_elem_of_filter in Hin as [<- Hin].
  specialize (Hcalls call Hin Hp). unfold deleter_call_of in Hcalls.
  rewrite He in Hcalls. simpl in Hcalls. by injection Hcalls as <-.
Qed.

Lemma deleter_gets_entry_witness :
  filter (λ call, dc_entry call = 0%nat)
    (deleted (outcome (two_released ++ [OpInsert "c" 11 3 70 0]) 100).1) =
    [mkCall 0%nat 0 "a" 1].
Proof.
  apply (deleter_gets_entry two_released [OpInsert "c" 11 3 70 0] 100
           (outcome two_released 100).1 (outcome two_released 100).2
           _ (outcome (two_released ++ [OpInsert "c" 11 3 70 0]) 100).2
           0%nat (mkLRUHandle 1 0 40 "a" 1 7)).
  - vm_compute. reflexivity.
  - vm_compute. reflexivity.
  - vm_compute. reflexivity.
  - vm_compute. reflexivity.
Defined.
